(** * CodeSnippet.tsx: the per-line syntax highlighter [highlightLine]

    A shallow embedding of [highlightLine] (src/framer-components/CodeSnippet.tsx,
    lines 6-86), of the expression that renders one line (line 417), and of
    what the component [CodeSnippet] computes around it: the text it copies
    (lines 115-131), the lines and the width of the gutter (lines 133-135)
    and the rows of the body (lines 389-421).

    [highlightLine] is a chain of [String.prototype.replace] calls with global
    regular expressions.  The embedding therefore has three layers:

    - [Js]: JavaScript strings as lists of UTF-16 code units, the character
      classes of the regular expressions, and the completion of a call
      (a value or a thrown [TypeError]);
    - [Regex]: a backtracking matcher for the fragment of the regular
      expression language the source uses, and [replace] with a template or
      with a callback;
    - [CodeSnippet]: the nine passes of [highlightLine], in source order, and
      the lines and rows of the component. *)

From Stdlib Require Import String Ascii List NArith Arith Lia Bool.
From Stdlib Require DecimalN DecimalPos DecimalFacts.
Import ListNotations.

Set Implicit Arguments.

(* ------------------------------------------------------------------ *)
(** ** JavaScript strings *)

Module Js.
Local Open Scope N_scope.

(** A string is a sequence of UTF-16 code units. *)
Definition char := N.
Definition str := list char.

(** An ASCII literal as a string. *)
Definition lit (s : string) : str :=
  map N_of_ascii (list_ascii_of_string s).

(** The code unit of an ASCII character. *)
Definition code (a : ascii) : char := N_of_ascii a.
Arguments code a%_char.

(** The double quote (U+0022). *)
Definition dq : char := 34.

(** A literal in which every apostrophe stands for a double quote: the texts
    of this development contain many double quotes and no apostrophe. *)
Definition sq (s : string) : str :=
  map (fun c => if N.eqb c 39 then dq else c) (lit s).

Definition between (lo hi c : char) : bool :=
  (N.leb lo c && N.leb c hi)%bool.

(** [\d] *)
Definition is_digit (c : char) : bool := between 48 57 c.

(** [\w]: [A-Za-z0-9_] (no [i] or [u] flag anywhere in the source). *)
Definition is_word (c : char) : bool :=
  (between 97 122 c || between 65 90 c || is_digit c || N.eqb c 95)%bool.

(** Line terminators: LF, CR, LS, PS. *)
Definition is_line_terminator (c : char) : bool :=
  (N.eqb c 10 || N.eqb c 13 || N.eqb c 8232 || N.eqb c 8233)%bool.

(** [\s]: white space and line terminators. *)
Definition is_space (c : char) : bool :=
  (between 9 13 c || N.eqb c 32 || N.eqb c 160 || N.eqb c 5760
   || between 8192 8202 c || N.eqb c 8232 || N.eqb c 8233
   || N.eqb c 8239 || N.eqb c 8287 || N.eqb c 12288 || N.eqb c 65279)%bool.

(** [.] without the [s] flag. *)
Definition is_dot (c : char) : bool := negb (is_line_terminator c).

Definition is_chr (a : char) (c : char) : bool := N.eqb c a.
Definition is_other (a : char) (c : char) : bool := negb (N.eqb c a).

(** [[\w-]] (and [[\w_-]], the same set). *)
Definition is_word_or_dash (c : char) : bool := (is_word c || N.eqb c 45)%bool.

(** The completion of a call: a value, or a thrown [TypeError] (the only
    exception the body of [highlightLine] could raise: calling [.replace] on
    a capture that is [undefined]). *)
Inductive completion (A : Type) : Type :=
| Returns (a : A)
| TypeError.
Arguments TypeError {A}.

Definition bind {A B} (m : completion A) (f : A -> completion B) : completion B :=
  match m with
  | Returns a => f a
  | TypeError => TypeError
  end.

End Js.

Notation "x <- m ;; k" := (Js.bind m (fun x => k))
  (at level 61, m at next level, right associativity).

(* ------------------------------------------------------------------ *)
(** ** Regular expressions and [String.prototype.replace] *)

Module Regex.
Import Js.

(** The fragment of the pattern language used by [highlightLine].  Every
    quantifier of the source ([*], [+], [*?], [+?]) applies to a single
    character class, so repetition is [Rep] over a class; [+] is a class
    followed by [Rep], and [x?] is [Or x Empty]. *)
Inductive regex : Type :=
| Empty
| Class (p : char -> bool)
| Cat (r1 r2 : regex)
| Or (r1 r2 : regex)
| Rep (greedy : bool) (p : char -> bool)
| Group (n : nat) (r : regex)
| WordBoundary.

Definition Chr (a : char) : regex := Class (is_chr a).

Fixpoint Str (s : str) : regex :=
  match s with
  | [] => Empty
  | a :: s' => Cat (Chr a) (Str s')
  end.

Definition Opt (r : regex) : regex := Or r Empty.
Definition Plus (greedy : bool) (p : char -> bool) : regex :=
  Cat (Class p) (Rep greedy p).

Fixpoint cat (rs : list regex) : regex :=
  match rs with
  | [] => Empty
  | [r] => r
  | r :: rs' => Cat r (cat rs')
  end.

(** [a|b|c], tried left to right. *)
Fixpoint alt (rs : list regex) : regex :=
  match rs with
  | [] => Class (fun _ => false)
  | [r] => r
  | r :: rs' => Or r (alt rs')
  end.

(** Captures: group number to captured text; a group that did not take part
    in the match is absent ([undefined]). *)
Definition caps := list (nat * str).

Definition get (c : caps) (n : nat) : option str :=
  option_map snd (find (fun e => Nat.eqb (fst e) n) c).

Definition set (n : nat) (v : str) (c : caps) : caps := (n, v) :: c.

(** The text consumed between a position [s] and a later position [s']
    of the same string. *)
Definition consumed (s s' : str) : str :=
  firstn (length s - length s') s.

Definition word_before (prev : option char) : bool :=
  match prev with Some c => is_word c | None => false end.

Definition word_after (s : str) : bool :=
  match s with c :: _ => is_word c | [] => false end.

Section Matcher.
Variable A : Type.

(** A continuation receives the character before the current position
    (for [\b]), the rest of the input and the captures so far. *)
Definition cont := option char -> str -> caps -> option A.

Fixpoint rep (greedy : bool) (p : char -> bool)
    (prev : option char) (s : str) (c : caps) (k : cont) {struct s} : option A :=
  match s with
  | x :: s' =>
      if p x then
        if greedy then
          match rep greedy p (Some x) s' c k with
          | Some a => Some a
          | None => k prev s c
          end
        else
          match k prev s c with
          | Some a => Some a
          | None => rep greedy p (Some x) s' c k
          end
      else k prev s c
  | [] => k prev s c
  end.

(** Backtracking matcher in continuation-passing style: alternatives are
    tried in priority order and the first complete match wins. *)
Fixpoint run (r : regex) (prev : option char) (s : str) (c : caps) (k : cont)
    {struct r} : option A :=
  match r with
  | Empty => k prev s c
  | Class p =>
      match s with
      | x :: s' => if p x then k (Some x) s' c else None
      | [] => None
      end
  | Cat r1 r2 => run r1 prev s c (fun prev' s' c' => run r2 prev' s' c' k)
  | Or r1 r2 =>
      match run r1 prev s c k with
      | Some a => Some a
      | None => run r2 prev s c k
      end
  | Rep g p => rep g p prev s c k
  | Group n r1 =>
      run r1 prev s c (fun prev' s' c' => k prev' s' (set n (consumed s s') c'))
  | WordBoundary =>
      if xorb (word_before prev) (word_after s) then k prev s c else None
  end.
End Matcher.

(** One attempt at one position: the length of the match and its captures. *)
Definition exec (r : regex) (prev : option char) (s : str) : option (nat * caps) :=
  run r prev s [] (fun _ s' c' => Some (length s - length s', c')).

(** The pieces a global pattern cuts a string into: characters outside every
    match, and matches (whole text and captures). *)
Inductive piece : Type :=
| Plain (c : char)
| Hit (m : str) (c : caps).

(** All matches, leftmost first, without overlap.  [skip] counts the
    characters of the current match still to step over; after an empty match
    the scan advances by one character. *)
Fixpoint scan (r : regex) (prev : option char) (s : str) (skip : nat)
    {struct s} : list piece :=
  match skip with
  | S n =>
      match s with
      | x :: s' => scan r (Some x) s' n
      | [] => []
      end
  | O =>
      match exec r prev s with
      | Some (len, c) =>
          Hit (firstn len s) c ::
          match s with
          | x :: s' =>
              match len with
              | O => Plain x :: scan r (Some x) s' 0
              | S n => scan r (Some x) s' n
              end
          | [] => []
          end
      | None =>
          match s with
          | x :: s' => Plain x :: scan r (Some x) s' 0
          | [] => []
          end
      end
  end.

Definition pieces (r : regex) (s : str) : list piece := scan r None s 0.

(** A replacement template: text and [$n] references. *)
Inductive titem : Type :=
| T (s : str)
| Ref (n : nat).

Definition template := list titem.

(** [$n] of a group that did not take part is the empty string. *)
Definition subst (t : template) (c : caps) : str :=
  flat_map (fun i =>
    match i with
    | T s => s
    | Ref n => match get c n with Some v => v | None => [] end
    end) t.

(** [s.replace(/r/g, "template")] *)
Definition replace (r : regex) (t : template) (s : str) : str :=
  flat_map (fun p =>
    match p with
    | Plain x => [x]
    | Hit _ c => subst t c
    end) (pieces r s).

(** [s.replace(/r/g, (match, g1, g2, ...) => ...)]: the callback receives the
    whole match and the captures; it may throw. *)
Fixpoint replace_pieces (f : str -> caps -> completion str) (ps : list piece)
    : completion str :=
  match ps with
  | [] => Returns []
  | Plain x :: ps' =>
      rest <- replace_pieces f ps' ;; Returns (x :: rest)
  | Hit m c :: ps' =>
      out <- f m c ;;
      rest <- replace_pieces f ps' ;;
      Returns (out ++ rest)
  end.

Definition replace_fn (r : regex) (f : str -> caps -> completion str) (s : str)
    : completion str :=
  replace_pieces f (pieces r s).

(** *** What a pattern can match

    A declarative reading of the patterns, without priorities: [matches r]
    relates a position (character before, rest of input, captures) to every
    position the matcher may reach through [r]. *)
Inductive matches : regex -> option char -> str -> caps ->
                    option char -> str -> caps -> Prop :=
| M_Empty prev s c : matches Empty prev s c prev s c
| M_Class p prev x s c :
    p x = true -> matches (Class p) prev (x :: s) c (Some x) s c
| M_Cat r1 r2 prev s c p1 s1 c1 p2 s2 c2 :
    matches r1 prev s c p1 s1 c1 -> matches r2 p1 s1 c1 p2 s2 c2 ->
    matches (Cat r1 r2) prev s c p2 s2 c2
| M_OrL r1 r2 prev s c p' s' c' :
    matches r1 prev s c p' s' c' -> matches (Or r1 r2) prev s c p' s' c'
| M_OrR r1 r2 prev s c p' s' c' :
    matches r2 prev s c p' s' c' -> matches (Or r1 r2) prev s c p' s' c'
| M_RepStop g p prev s c : matches (Rep g p) prev s c prev s c
| M_RepStep g p prev x s c p' s' c' :
    p x = true -> matches (Rep g p) (Some x) s c p' s' c' ->
    matches (Rep g p) prev (x :: s) c p' s' c'
| M_Group n r prev s c p' s' c' :
    matches r prev s c p' s' c' ->
    matches (Group n r) prev s c p' s' (set n (consumed s s') c')
| M_WordBoundary prev s c :
    xorb (word_before prev) (word_after s) = true ->
    matches WordBoundary prev s c prev s c.

(** Can [r] match the empty string? (an over-approximation) *)
Fixpoint nullable (r : regex) : bool :=
  match r with
  | Empty => true
  | Class _ => false
  | Cat r1 r2 => nullable r1 && nullable r2
  | Or r1 r2 => nullable r1 || nullable r2
  | Rep _ _ => true
  | Group _ r1 => nullable r1
  | WordBoundary => true
  end.

(** Can a non-empty match of [r] begin with [x]? (an over-approximation) *)
Fixpoint first (r : regex) (x : char) : bool :=
  match r with
  | Empty => false
  | Class p => p x
  | Cat r1 r2 => first r1 x || (nullable r1 && first r2 x)
  | Or r1 r2 => first r1 x || first r2 x
  | Rep _ p => p x
  | Group _ r1 => first r1 x
  | WordBoundary => false
  end.

(** [r] never reads the character [a]. *)
Fixpoint avoids (a : char) (r : regex) : bool :=
  match r with
  | Empty | WordBoundary => true
  | Class p | Rep _ p => negb (p a)
  | Cat r1 r2 | Or r1 r2 => avoids a r1 && avoids a r2
  | Group _ r1 => avoids a r1
  end.

(** [r] has no capture group. *)
Fixpoint no_groups (r : regex) : bool :=
  match r with
  | Empty | WordBoundary | Class _ | Rep _ _ => true
  | Cat r1 r2 | Or r1 r2 => no_groups r1 && no_groups r2
  | Group _ _ => false
  end.

(** How a text read by [r] can begin. *)
Definition starts (r : regex) (g : str) : Prop :=
  match g with
  | [] => nullable r = true
  | x :: _ => first r x = true
  end.

(** The groups that take part in every match of [r]. *)
Fixpoint always_set (r : regex) (n : nat) : bool :=
  match r with
  | Cat r1 r2 => always_set r1 n || always_set r2 n
  | Or r1 r2 => always_set r1 n && always_set r2 n
  | Group m r1 => Nat.eqb m n || always_set r1 n
  | _ => false
  end.

(** The character before the position reached after reading [m]. *)
Definition prev_after (prev : option char) (m : str) : option char :=
  fold_left (fun _ x => Some x) m prev.

(** [r] reads [m] in front of [rest], as its first choice: whatever the
    continuation accepts behind [m] is the result of the matcher. *)
Definition reads (r : regex) (prev : option char) (m rest : str)
    (c c' : caps) : Prop :=
  forall (A : Type) (k : cont A) (a : A),
    k (prev_after prev m) rest c' = Some a ->
    run r prev (m ++ rest) c k = Some a.

(** No match of [\b] followed by [r] can begin at a character of [xs]:
    there is no word boundary before it, or it is not a first character
    of [r]. *)
Fixpoint blocked (r : regex) (prev : option char) (xs : str) : bool :=
  match xs with
  | [] => true
  | x :: xs' =>
      (negb (xorb (word_before prev) (is_word x)) || negb (first r x))
      && blocked r (Some x) xs'
  end.

(** No match begins at a character of [xs], in front of [rest]. *)
Fixpoint no_match_in (r : regex) (prev : option char) (xs rest : str) : bool :=
  match xs with
  | [] => true
  | x :: xs' =>
      match exec r prev (xs ++ rest) with
      | None => no_match_in r (Some x) xs' rest
      | Some _ => false
      end
  end.

Definition is_hit (p : piece) : bool :=
  match p with Hit _ _ => true | Plain _ => false end.

(** The matches of a global pattern in a string. *)
Definition hits (r : regex) (s : str) : list piece :=
  filter is_hit (pieces r s).


(** [p] occurs in [s] (as a contiguous substring). *)
Fixpoint prefix (p s : str) : bool :=
  match p, s with
  | [], _ => true
  | a :: p', b :: s' => N.eqb a b && prefix p' s'
  | _ :: _, [] => false
  end.

Fixpoint infix (p s : str) : bool :=
  prefix p s || match s with [] => false | _ :: s' => infix p s' end.

(** The text a piece stands for. *)
Definition piece_text (p : piece) : str :=
  match p with
  | Plain x => [x]
  | Hit m _ => m
  end.

End Regex.

(* ------------------------------------------------------------------ *)
(** ** [highlightLine] *)

Module CodeSnippet.
Import Js Regex.

(** Each pattern is quoted from the source in the comment above its
    definition; there, \x22 stands for the double quote, and a blank
    separates a star from a closing parenthesis. *)

(** Numbers and strings: [`${tags.length - 1}`] prints an index in decimal,
    [parseInt(index)] reads the digits matched by [\d+] back.  A digit string
    above 2^53 is read by JavaScript as a float that large; it is out of
    range of every array, as the exact value is here. *)
Fixpoint digits_of_uint (u : Decimal.uint) : str :=
  match u with
  | Decimal.Nil => []
  | Decimal.D0 u' => 48%N :: digits_of_uint u'
  | Decimal.D1 u' => 49%N :: digits_of_uint u'
  | Decimal.D2 u' => 50%N :: digits_of_uint u'
  | Decimal.D3 u' => 51%N :: digits_of_uint u'
  | Decimal.D4 u' => 52%N :: digits_of_uint u'
  | Decimal.D5 u' => 53%N :: digits_of_uint u'
  | Decimal.D6 u' => 54%N :: digits_of_uint u'
  | Decimal.D7 u' => 55%N :: digits_of_uint u'
  | Decimal.D8 u' => 56%N :: digits_of_uint u'
  | Decimal.D9 u' => 57%N :: digits_of_uint u'
  end.

Definition toString (n : N) : str := digits_of_uint (N.to_uint n).

(** A value that may be [undefined], converted to a string (template
    literals and the result of a [replace] callback). *)
Definition show (v : option str) : str :=
  match v with
  | Some s => s
  | None => lit "undefined"
  end.

(** [a[i]]: [undefined] out of range. *)
Fixpoint index (a : list str) (i : N) : option str :=
  match a with
  | [] => None
  | x :: a' => if N.eqb i 0 then Some x else index a' (N.pred i)
  end.

(** *** 1. Escape HTML special characters *)

Definition escape (raw : str) : str :=
  replace (Chr (code ">")) [T (lit "&gt;")]
    (replace (Chr (code "<")) [T (lit "&lt;")]
      (replace (Chr (code "&")) [T (lit "&amp;")] raw)).

(** *** 2. Structural passes *)

Definition keywords : list string :=
  ["schema"; "endschema"; "section"; "style"; "javascript"; "if"; "for";
   "assign"; "echo"; "render"; "include"; "else"; "elsif"; "unless"; "case";
   "when"; "capture"; "paginate"; "form"; "tablerow"; "comment"; "raw";
   "layout"]%string.

Definition words (l : list string) : regex :=
  alt (map (fun w => Str (lit w)) l).

(** [/(\{%-?)(.*?)(-?%\})/g] *)
Definition re_liquid_tag : regex :=
  cat [Group 1 (Cat (Str (lit "{%")) (Opt (Chr (code "-"))));
       Group 2 (Rep false is_dot);
       Group 3 (Cat (Opt (Chr (code "-"))) (Str (lit "%}")))].

(** [/\b(schema|endschema|...|layout)\b/g] *)
Definition re_keyword : regex :=
  cat [WordBoundary; Group 1 (words keywords); WordBoundary].

Definition liquid_tag_cb (_ : str) (c : caps) : completion str :=
  match get c 2 with
  | None => TypeError
  | Some inner =>
      let kw := replace re_keyword
                  [T (sq "<span style='color:#cf222e;font-weight:600'>"); Ref 1;
                   T (lit "</span>")] inner in
      Returns (sq "<span style='color:#1a7f37;font-weight:600'>" ++ show (get c 1)
               ++ lit "</span>" ++ kw
               ++ sq "<span style='color:#1a7f37;font-weight:600'>" ++ show (get c 3)
               ++ lit "</span>")
  end.

Definition liquid_tags (s : str) : completion str :=
  replace_fn re_liquid_tag liquid_tag_cb s.

(** [/(\{\{-?)(.*?)(-?\}\})/g] *)
Definition re_liquid_output : regex :=
  cat [Group 1 (Cat (Str (lit "{{")) (Opt (Chr (code "-"))));
       Group 2 (Rep false is_dot);
       Group 3 (Cat (Opt (Chr (code "-"))) (Str (lit "}}")))].

(** [/\|\s*(\w+)/g] *)
Definition re_filter : regex :=
  cat [Chr (code "|"); Rep true is_space; Group 1 (Plus true is_word)].

Definition liquid_output_cb (_ : str) (c : caps) : completion str :=
  match get c 2 with
  | None => TypeError
  | Some inner =>
      let filters := replace re_filter
                       [T (sq "| <span style='color:#953800;font-weight:500'>"); Ref 1;
                        T (lit "</span>")] inner in
      Returns (sq "<span style='color:#1a7f37;font-weight:600'>" ++ show (get c 1)
               ++ lit "</span>"
               ++ sq "<span style='color:#0550ae'>" ++ filters ++ lit "</span>"
               ++ sq "<span style='color:#1a7f37;font-weight:600'>" ++ show (get c 3)
               ++ lit "</span>")
  end.

Definition liquid_output (s : str) : completion str :=
  replace_fn re_liquid_output liquid_output_cb s.

(** [/(&lt;\/?)([\w-]+)(.*?)(&gt;)/g] *)
Definition re_html_tag : regex :=
  cat [Group 1 (Cat (Str (lit "&lt;")) (Opt (Chr (code "/"))));
       Group 2 (Plus true is_word_or_dash);
       Group 3 (Rep false is_dot);
       Group 4 (Str (lit "&gt;"))].

(** [/([\w-]+)(=)(&quot;|\x22)(.*?)(&quot;|\x22)/g] *)
Definition re_attr : regex :=
  cat [Group 1 (Plus true is_word_or_dash);
       Group 2 (Chr (code "="));
       Group 3 (Or (Str (lit "&quot;")) (Chr dq));
       Group 4 (Rep false is_dot);
       Group 5 (Or (Str (lit "&quot;")) (Chr dq))].

Definition html_tag_cb (_ : str) (c : caps) : completion str :=
  match get c 3 with
  | None => TypeError
  | Some attrs =>
      let ha := replace re_attr
                  [T (sq "<span style='color:#116329'>"); Ref 1; T (lit "</span>");
                   Ref 2;
                   T (sq "<span style='color:#0a3069'>"); Ref 3; Ref 4; Ref 5;
                   T (lit "</span>")] attrs in
      Returns (sq "<span style='color:#6e7781'>" ++ show (get c 1) ++ lit "</span>"
               ++ sq "<span style='color:#0550ae'>" ++ show (get c 2) ++ lit "</span>"
               ++ ha
               ++ sq "<span style='color:#6e7781'>" ++ show (get c 4) ++ lit "</span>")
  end.

Definition html_tags (s : str) : completion str :=
  replace_fn re_html_tag html_tag_cb s.

(** [/(&lt;!--)(.*?)(--&gt;)/g] *)
Definition re_comment : regex :=
  cat [Group 1 (Str (lit "&lt;!--"));
       Group 2 (Rep false is_dot);
       Group 3 (Str (lit "--&gt;"))].

Definition html_comments (s : str) : str :=
  replace re_comment
    [T (sq "<span style='color:#6e7781;font-style:italic'>"); Ref 1; Ref 2; Ref 3;
     T (lit "</span>")] s.

Definition structural (s : str) : completion str :=
  s1 <- liquid_tags s ;;
  s2 <- liquid_output s1 ;;
  s3 <- html_tags s2 ;;
  Returns (html_comments s3).

(** *** 3. Mask all HTML tags *)

(** [/<[^>]*>/g] *)
Definition re_tag : regex :=
  cat [Chr (code "<"); Rep true (is_other (code ">")); Chr (code ">")].

(** [`__HL_TAG_${i}__`] *)
Definition placeholder (i : N) : str :=
  lit "__HL_TAG_" ++ toString i ++ lit "__".

(** The callback pushes the match on [tags] and returns the placeholder that
    carries its index, [tags.length - 1] after the push.  The state of the
    array is threaded through the matches in order. *)
Fixpoint mask_pieces (ps : list piece) (tags : list str) : str * list str :=
  match ps with
  | [] => ([], tags)
  | Plain x :: ps' =>
      let (out, tags') := mask_pieces ps' tags in (x :: out, tags')
  | Hit m _ :: ps' =>
      let pushed := tags ++ [m] in
      let (out, tags') := mask_pieces ps' pushed in
      (placeholder (N.of_nat (length pushed) - 1) ++ out, tags')
  end.

Definition mask (s : str) : str * list str :=
  mask_pieces (pieces re_tag s) [].

(** *** 4. Content passes *)

(** [/\x22([\w_-]+?)\x22\s*:/g] *)
Definition re_json_key : regex :=
  cat [Chr dq; Group 1 (Plus false is_word_or_dash); Chr dq;
       Rep true is_space; Chr (code ":")].

Definition json_keys (s : str) : str :=
  replace re_json_key
    [T (sq "<span style='color:#953800'>'"); Ref 1; T (sq "'</span>:")] s.

(** [/\x22([^\x22]* )\x22/g] *)
Definition re_string : regex :=
  cat [Chr dq; Group 1 (Rep true (is_other dq)); Chr dq].

Definition strings (s : str) : str :=
  replace re_string
    [T (sq "<span style='color:#0a3069'>'"); Ref 1; T (sq "'</span>")] s.

(** [/\b(\d+\.?\d* )\b/g] *)
Definition re_number : regex :=
  cat [WordBoundary;
       Group 1 (cat [Plus true is_digit; Opt (Chr (code ".")); Rep true is_digit]);
       WordBoundary].

Definition numbers (s : str) : str :=
  replace re_number
    [T (sq "<span style='color:#0550ae'>"); Ref 1; T (lit "</span>")] s.

(** [/\b(true|false|nil|null)\b/g] *)
Definition re_boolean : regex :=
  cat [WordBoundary; Group 1 (words ["true"; "false"; "nil"; "null"]%string);
       WordBoundary].

Definition booleans (s : str) : str :=
  replace re_boolean
    [T (sq "<span style='color:#cf222e;font-weight:500'>"); Ref 1; T (lit "</span>")] s.

Definition content (s : str) : str :=
  booleans (numbers (strings (json_keys s))).

(** *** 5. Unmask HTML tags *)

(** [/__HL_TAG_(\d+)__/g] *)
Definition re_placeholder : regex :=
  cat [Str (lit "__HL_TAG_"); Group 1 (Plus true is_digit); Str (lit "__")].

(** [parseInt] of the digits matched by [(\d+)]. *)
Definition digit_value (c : char) : Decimal.uint -> Decimal.uint :=
  if N.eqb c (code "0") then Decimal.D0 else
  if N.eqb c (code "1") then Decimal.D1 else
  if N.eqb c (code "2") then Decimal.D2 else
  if N.eqb c (code "3") then Decimal.D3 else
  if N.eqb c (code "4") then Decimal.D4 else
  if N.eqb c (code "5") then Decimal.D5 else
  if N.eqb c (code "6") then Decimal.D6 else
  if N.eqb c (code "7") then Decimal.D7 else
  if N.eqb c (code "8") then Decimal.D8 else Decimal.D9.

Definition parseInt (s : str) : N :=
  N.of_uint (fold_right digit_value Decimal.Nil s).

(** [(_, index) => tags[parseInt(index)]]: the entry, or [undefined]. *)
Definition unmask_cb (tags : list str) (c : caps) : option str :=
  match get c 1 with
  | Some idx => index tags (parseInt idx)
  | None => None
  end.

(** The value the callback returns is converted to a string by [replace]. *)
Definition unmask (tags : list str) (s : str) : str :=
  flat_map (fun p =>
    match p with
    | Plain x => [x]
    | Hit _ c => show (unmask_cb tags c)
    end) (pieces re_placeholder s).

(** *** The whole function *)

Definition highlightLine (raw : str) : completion str :=
  s <- structural (escape raw) ;;
  let (masked, tags) := mask s in
  Returns (unmask tags (content masked)).

(** The renderer's [__html: highlightLine(line) || " "]: the empty string is
    the only falsy string. *)
Definition line_html (line : str) : completion str :=
  h <- highlightLine line ;;
  Returns (match h with [] => lit " " | _ => h end).

(** *** Notions used in the statements below *)

(** [<span style="...">body</span>] *)
Definition span (style : string) (body : str) : str :=
  sq "<span style='" ++ lit style ++ sq "'>" ++ body ++ lit "</span>".

(** The styles of the rules, as the source spells them. *)
Definition delimiter_style : string := "color:#1a7f37;font-weight:600".
Definition keyword_style : string := "color:#cf222e;font-weight:600".
Definition bracket_style : string := "color:#6e7781".
Definition tag_name_style : string := "color:#0550ae".
Definition attr_name_style : string := "color:#116329".
Definition attr_value_style : string := "color:#0a3069".
Definition key_style : string := "color:#953800".
Definition string_style : string := "color:#0a3069".
Definition number_style : string := "color:#0550ae".
Definition boolean_style : string := "color:#cf222e;font-weight:500".

(** The non-breaking space (U+00A0). *)
Definition nbsp : char := 160%N.

(** What the first step does to one character. *)
Definition escape_char (x : char) : str :=
  if N.eqb x (code "&") then lit "&amp;"
  else if N.eqb x (code "<") then lit "&lt;"
  else if N.eqb x (code ">") then lit "&gt;"
  else [x].

(** Text in which every [<] begins [<span ] or [</span>]: the two ways in
    which the passes write a [<]. *)
Fixpoint well_tagged (s : str) : bool :=
  match s with
  | [] => true
  | x :: s' =>
      (negb (N.eqb x (code "<")) || prefix (lit "span ") s'
       || prefix (lit "/span>") s')
      && well_tagged s'
  end.

(** The characters that follow a [<] inside [<span ] and [</span>]. *)
Definition tag_char (x : char) : bool :=
  existsb (N.eqb x) (lit "span />").

(** [<], then characters other than [>], then [>]. *)
Definition is_tag (t : str) : bool :=
  match t with
  | x :: t' =>
      N.eqb x (code "<")
      && match rev t' with
         | y :: b => N.eqb y (code ">") && forallb (is_other (code ">")) b
         | [] => false
         end
  | [] => false
  end.

(** What the masking callback returns and pushes, match by match, when the
    table already holds [n] entries. *)
Fixpoint masked_text (ps : list piece) (n : nat) : str :=
  match ps with
  | [] => []
  | Plain x :: ps' => x :: masked_text ps' n
  | Hit _ _ :: ps' => placeholder (N.of_nat (S n) - 1) ++ masked_text ps' (S n)
  end.

Fixpoint hit_texts (ps : list piece) : list str :=
  match ps with
  | [] => []
  | Plain _ :: ps' => hit_texts ps'
  | Hit m _ :: ps' => m :: hit_texts ps'
  end.



(** *** The passes inside the callbacks *)

(** The keyword pass of the Liquid tag callback, on the text between the
    delimiters. *)
Definition keyword_pass (inner : str) : str :=
  replace re_keyword
    [T (sq "<span style='color:#cf222e;font-weight:600'>"); Ref 1;
     T (lit "</span>")] inner.

(** The filter pass of the Liquid output callback, on the text between the
    delimiters. *)
Definition filter_pass (inner : str) : str :=
  replace re_filter
    [T (sq "| <span style='color:#953800;font-weight:500'>"); Ref 1;
     T (lit "</span>")] inner.

(** *** The component [CodeSnippet]

    Of the component, the parts that compute: the text that is copied, the
    lines of the body, the width of the gutter and the rows. *)

(** The line feed (U+000A), the separator of [split]. *)
Definition lf : char := 10%N.

(** [code || (empty string)]: the prop may be missing; a missing prop and
    the empty string both give the empty string. *)
Definition or_empty (code : option str) : str :=
  match code with
  | Some s => s
  | None => []
  end.

(** The text [handleCopy] writes to the clipboard (and, when that fails,
    into the textarea it copies from). *)
Definition copied_text (code : option str) : str := or_empty code.

(** [s.split(line feed)], with the line read so far in [cur]. *)
Fixpoint split (cur s : str) : list str :=
  match s with
  | [] => [cur]
  | x :: s' =>
      if N.eqb x lf then cur :: split [] s' else split (cur ++ [x]) s'
  end.

(** [const lines = (code || (empty string)).split(line feed)] *)
Definition lines (code : option str) : list str := split [] (or_empty code).

(** [const totalLines = lines.length] *)
Definition totalLines (code : option str) : nat := length (lines code).

(** [const gutterChars = String(totalLines).length] *)
Definition gutterChars (code : option str) : nat :=
  length (toString (N.of_nat (totalLines code))).

(** [lines.map((line, i) => ...)]: for every line, the number [i + 1] shown in
    the gutter when [showLineNumbers] is on, and the markup
    [highlightLine(line) || " "]. *)
Fixpoint rows_from (showLineNumbers : bool) (i : N) (ls : list str)
    : completion (list (option N * str)) :=
  match ls with
  | [] => Returns []
  | line :: ls' =>
      h <- line_html line ;;
      rest <- rows_from showLineNumbers (i + 1) ls' ;;
      Returns ((if showLineNumbers then Some (i + 1)%N else None, h) :: rest)
  end.

Definition rows (showLineNumbers : bool) (code : option str)
    : completion (list (option N * str)) :=
  rows_from showLineNumbers 0 (lines code).

(** *** More notions used in the statements below *)

(** Lines put together again, a line feed between two lines. *)
Fixpoint join (ls : list str) : str :=
  match ls with
  | [] => []
  | [l] => l
  | l :: ls' => l ++ lf :: join ls'
  end.

(** Every [<] of the text is followed, somewhere, by a [>]. *)
Fixpoint closed (s : str) : bool :=
  match s with
  | [] => true
  | x :: s' =>
      (negb (N.eqb x (code "<")) || existsb (is_chr (code ">")) s') && closed s'
  end.

(** [o] ends with [>]. *)
Definition ends_gt (o : str) : Prop := exists o', o = o' ++ [code ">"].

(** More styles, as the source spells them. *)
Definition filter_style : string := "color:#953800;font-weight:500".
Definition output_style : string := "color:#0550ae".
Definition comment_style : string := "color:#6e7781;font-style:italic".

(** The whitespace-control dash of a Liquid delimiter, present or not. *)
Definition dash (present : bool) : str :=
  if present then [code "-"] else [].

(** The slash of a closing tag, present or not. *)
Definition slash (present : bool) : str :=
  if present then [code "/"] else [].

(** A character of a comment that no earlier step reads: not a line
    terminator and none of [&], [<], [>], [{], [-]. *)
Definition comment_char (x : char) : bool :=
  is_dot x && negb (existsb (N.eqb x) (lit "&<>{-")).

(** *** Notions for tokens and for the characters of tags *)

(** A character that is neither a word character nor a dot: what stands
    next to a token of its own. *)
Definition apart (x : char) : bool := negb (is_word x) && negb (is_chr (code ".") x).

(** The text is empty or ends with a character that is [apart]. *)
Definition ends_apart (a : str) : bool :=
  match rev a with
  | [] => true
  | y :: _ => apart y
  end.

(** The text is empty or begins with a character that is [apart]. *)
Definition begins_apart (b : str) : bool :=
  match b with
  | [] => true
  | z :: _ => apart z
  end.

(** A character of the tags the passes write: a lower-case letter, a digit,
    a blank, or one of [<], [>], [/], [=], the double quote, [:], [#], [;],
    [-]. *)
Definition markup_char (x : char) : bool :=
  between 97%N 122%N x || is_digit x || existsb (N.eqb x) (sq " <>/=':#;-").

(** Whether a position is inside a tag (behind a [<], with no [>] since),
    after reading [s] from a position that is [inside] or not. *)
Definition state_after (inside : bool) (s : str) : bool :=
  fold_left (fun i x =>
    if N.eqb x (code "<") then true
    else if N.eqb x (code ">") then false else i) s inside.

(** Inside the tags of [s] (from a [<] to the next [>]) there are only
    markup characters; [inside] tells whether [s] begins inside a tag. *)
Fixpoint markup_in_tags (inside : bool) (s : str) : bool :=
  match s with
  | [] => true
  | x :: s' =>
      if N.eqb x (code "<") then markup_in_tags true s'
      else if N.eqb x (code ">") then markup_in_tags false s'
      else (negb inside || markup_char x) && markup_in_tags inside s'
  end.

(** A text that can be written anywhere: it has only markup characters in
    its tags, also when it begins inside one, and it ends outside. *)
Definition closes (l : str) : Prop :=
  forall i, markup_in_tags i l = true /\ state_after i l = false.

(** The text [o] can stand at a position that is [k]: it has only markup
    characters in its tags and ends outside a tag. *)
Definition fits (k : bool) (o : str) : Prop :=
  markup_in_tags k o = true /\ state_after k o = false.

End CodeSnippet.

(* ------------------------------------------------------------------ *)
(** ** Facts about the matcher *)

Import Js Regex CodeSnippet.

Unset Implicit Arguments.

Section MatcherFacts.
Variable A : Type.
Implicit Types (k : cont A) (r : regex) (s : str) (c : caps).

(** Whatever the matcher returns comes from the continuation, called at a
    position that [r] can reach. *)
Lemma rep_sound g p s : forall prev c k a,
  rep g p prev s c k = Some a ->
  exists p' s' c', matches (Rep g p) prev s c p' s' c' /\ k p' s' c' = Some a.
Proof.
  induction s as [|x s IH]; intros prev c k a H; simpl in H.
  - exists prev, [], c. split; [constructor|assumption].
  - destruct (p x) eqn:Hp.
    2:{ exists prev, (x :: s), c. split; [constructor|assumption]. }
    destruct g.
    + destruct (rep true p (Some x) s c k) eqn:E.
      * inversion H; subst. apply IH in E as (p' & s' & c' & M & K).
        exists p', s', c'. split; [now apply M_RepStep|assumption].
      * exists prev, (x :: s), c. split; [constructor|assumption].
    + destruct (k prev (x :: s) c) eqn:E.
      * inversion H; subst.
        exists prev, (x :: s), c. split; [constructor|assumption].
      * apply IH in H as (p' & s' & c' & M & K).
        exists p', s', c'. split; [now apply M_RepStep|assumption].
Qed.

Lemma run_sound r : forall prev s c k a,
  run r prev s c k = Some a ->
  exists p' s' c', matches r prev s c p' s' c' /\ k p' s' c' = Some a.
Proof.
  induction r as [|p|r1 IH1 r2 IH2|r1 IH1 r2 IH2|g p|n r IH|];
    intros prev s c k a H; simpl in H.
  - exists prev, s, c. split; [constructor|assumption].
  - destruct s as [|x s]; [discriminate|].
    destruct (p x) eqn:Hp; [|discriminate].
    exists (Some x), s, c. split; [now constructor|assumption].
  - apply IH1 in H as (p1 & s1 & c1 & M1 & H).
    apply IH2 in H as (p2 & s2 & c2 & M2 & H).
    exists p2, s2, c2. split; [eapply M_Cat; eassumption|assumption].
  - destruct (run r1 prev s c k) eqn:E.
    + inversion H; subst. apply IH1 in E as (p' & s' & c' & M & K).
      exists p', s', c'. split; [now apply M_OrL|assumption].
    + apply IH2 in H as (p' & s' & c' & M & K).
      exists p', s', c'. split; [now apply M_OrR|assumption].
  - eapply rep_sound; eauto.
  - apply IH in H as (p' & s' & c' & M & K).
    exists p', s', (set n (consumed s s') c'). split; [now apply M_Group|assumption].
  - destruct (xorb (word_before prev) (word_after s)) eqn:E; [|discriminate].
    exists prev, s, c. split; [now constructor|assumption].
Qed.
End MatcherFacts.

(** A match reads a prefix of the input. *)
Lemma matches_suffix r prev s c p' s' c' :
  matches r prev s c p' s' c' -> exists m, s = m ++ s'.
Proof.
  induction 1.
  - now exists [].
  - now exists [x].
  - destruct IHmatches1 as [m1 ->], IHmatches2 as [m2 ->].
    exists (m1 ++ m2). now rewrite app_assoc.
  - assumption.
  - assumption.
  - now exists [].
  - destruct IHmatches as [m ->]. now exists (x :: m).
  - assumption.
  - now exists [].
Qed.

Lemma consumed_app m s' : consumed (m ++ s') s' = m.
Proof.
  unfold consumed. rewrite length_app.
  replace (length m + length s' - length s') with (length m) by lia.
  rewrite firstn_app, Nat.sub_diag, firstn_all. simpl. apply app_nil_r.
Qed.

Lemma consumed_nil s : consumed s [] = s.
Proof. unfold consumed. simpl. rewrite Nat.sub_0_r. apply firstn_all. Qed.

Lemma app_same_length_nil_eq (m s : str) : s = m ++ s -> m = [].
Proof.
  intros E. apply (f_equal (@length _)) in E. rewrite length_app in E.
  apply length_zero_iff_nil. lia.
Qed.

(** A pattern that is not nullable reads at least one character. *)
Lemma matches_nonempty r prev s c p' s' c' :
  matches r prev s c p' s' c' -> nullable r = false -> s' <> s.
Proof.
  induction 1; simpl; intros N; try discriminate.
  - intros E. apply (f_equal (@length _)) in E. simpl in E. lia.
  - apply andb_false_iff in N.
    destruct (matches_suffix _ _ _ _ _ _ _ H) as [m1 E1], (matches_suffix _ _ _ _ _ _ _ H0) as [m2 E2].
    subst. intros E.
    assert (m1 = [] /\ m2 = []) as [-> ->].
    { apply (f_equal (@length _)) in E. rewrite !length_app in E.
      split; apply length_zero_iff_nil; lia. }
    destruct N as [N|N]; [now apply IHmatches1|now apply IHmatches2].
  - apply orb_false_iff in N as [N _]. auto.
  - apply orb_false_iff in N as [_ N]. auto.
  - auto.
Qed.

(** The first character a match reads is one of the pattern's first
    characters. *)
Lemma matches_first r prev s c p' s' c' :
  matches r prev s c p' s' c' ->
  s' = s \/ exists x t, s = x :: t /\ first r x = true.
Proof.
  induction 1; simpl; auto.
  - right. eauto.
  - destruct IHmatches1 as [->|(x & t & -> & F)].
    + destruct IHmatches2 as [->|(x & t & -> & F)]; auto.
      right. exists x, t. split; auto.
      destruct (nullable r1) eqn:N; [now rewrite F, orb_true_r|].
      exfalso. now apply (matches_nonempty _ _ _ _ _ _ _ H).
    + right. exists x, t. split; auto. now rewrite F.
  - destruct IHmatches as [->|(x & t & -> & F)]; auto.
    right. exists x, t. now rewrite F.
  - destruct IHmatches as [->|(x & t & -> & F)]; auto.
    right. exists x, t. now rewrite F, orb_true_r.
  - right. eauto.
Qed.

(** *** One attempt at one position *)

Lemma exec_sound r prev s len c :
  exec r prev s = Some (len, c) ->
  exists m s' p', s = m ++ s' /\ len = length m /\ matches r prev s [] p' s' c.
Proof.
  unfold exec. intros H.
  apply run_sound in H as (p' & s' & c' & M & K).
  inversion K; subst. destruct (matches_suffix _ _ _ _ _ _ _ M) as [m ->].
  exists m, s', p'. repeat split; auto.
  rewrite length_app. lia.
Qed.

(** No match where the input is over, or begins with a character that is
    not a first character of the pattern. *)
Lemma exec_none_first r prev s :
  nullable r = false ->
  match s with [] => True | x :: _ => first r x = false end ->
  exec r prev s = None.
Proof.
  intros N F. destruct (exec r prev s) as [[len c]|] eqn:E; [|reflexivity].
  exfalso. apply exec_sound in E as (m & s' & p' & -> & _ & M).
  destruct (matches_first _ _ _ _ _ _ _ M) as [E|(x & t & E & Fx)].
  - now apply (matches_nonempty _ _ _ _ _ _ _ M).
  - rewrite E in F. congruence.
Qed.

(** A match of a pattern that is not nullable is not empty. *)
Lemma exec_nonempty r prev s len c :
  nullable r = false -> exec r prev s = Some (len, c) -> len <> 0.
Proof.
  intros N E. apply exec_sound in E as (m & s' & p' & -> & -> & M).
  intros L. apply length_zero_iff_nil in L. subst m.
  now apply (matches_nonempty _ _ _ _ _ _ _ M).
Qed.

(** *** Scanning *)

Lemma prev_after_app prev a b :
  prev_after prev (a ++ b) = prev_after (prev_after prev a) b.
Proof. apply fold_left_app. Qed.

Lemma prev_after_cons prev x m :
  prev_after prev (x :: m) = prev_after (Some x) m.
Proof. reflexivity. Qed.

(** Stepping over the rest of a match. *)
Lemma scan_skip r m : forall prev rest,
  scan r prev (m ++ rest) (length m) = scan r (prev_after prev m) rest 0.
Proof.
  induction m as [|x m IH]; intros prev rest; simpl.
  - destruct rest; reflexivity.
  - apply IH.
Qed.

(** Characters at which no match begins are copied. *)
Lemma scan_plain r xs : forall prev ys,
  (forall a x b, xs = a ++ x :: b ->
     exec r (prev_after prev a) (x :: b ++ ys) = None) ->
  scan r prev (xs ++ ys) 0 = map Plain xs ++ scan r (prev_after prev xs) ys 0.
Proof.
  induction xs as [|x xs IH]; intros prev ys H.
  - reflexivity.
  - change ((x :: xs) ++ ys) with (x :: xs ++ ys).
    pose proof (H [] x xs eq_refl) as E. cbn [prev_after fold_left] in E.
    cbn [scan]. rewrite E. cbn [map app]. f_equal.
    apply IH. intros a y b ->. apply (H (x :: a) y b eq_refl).
Qed.

Lemma scan_no_first r xs prev ys :
  nullable r = false ->
  forallb (fun x => negb (first r x)) xs = true ->
  scan r prev (xs ++ ys) 0 = map Plain xs ++ scan r (prev_after prev xs) ys 0.
Proof.
  intros N F. apply scan_plain. intros a x b ->.
  apply exec_none_first; auto.
  rewrite forallb_app in F. apply andb_true_iff in F as [_ F].
  simpl in F. apply andb_true_iff in F as [F _]. now apply negb_true_iff.
Qed.

Lemma scan_nil r prev : nullable r = false -> scan r prev [] 0 = [].
Proof.
  intros N. simpl. now rewrite exec_none_first.
Qed.

(** A string without any first character of the pattern has no match. *)
Lemma pieces_no_first r s :
  nullable r = false ->
  forallb (fun x => negb (first r x)) s = true ->
  pieces r s = map Plain s.
Proof.
  intros N F. unfold pieces.
  rewrite <- (app_nil_r s) at 1. rewrite scan_no_first by assumption.
  now rewrite scan_nil, app_nil_r.
Qed.

(** A match at the current position, followed by the rest. *)
Lemma scan_hit r prev m rest c :
  m <> [] ->
  exec r prev (m ++ rest) = Some (length m, c) ->
  scan r prev (m ++ rest) 0 = Hit m c :: scan r (prev_after prev m) rest 0.
Proof.
  intros Hm E. destruct m as [|x m]; [congruence|].
  change ((x :: m) ++ rest) with (x :: m ++ rest) in *.
  cbn [scan]. rewrite E. cbn [length]. f_equal.
  - cbn [firstn]. rewrite firstn_app, Nat.sub_diag, firstn_all.
    rewrite firstn_O, (app_nil_r m). reflexivity.
  - rewrite scan_skip. reflexivity.
Qed.

(** *** Replacing *)

Lemma flat_map_plain (f : piece -> str) (s : str) :
  (forall x, f (Plain x) = [x]) -> flat_map f (map Plain s) = s.
Proof.
  intros H. induction s as [|x s IH]; simpl; [reflexivity|].
  now rewrite H, IH.
Qed.

Lemma replace_pieces_plain f s :
  replace_pieces f (map Plain s) = Returns s.
Proof.
  induction s as [|x s IH]; simpl; [reflexivity|]. now rewrite IH.
Qed.

(** Without a match, [replace] returns its input. *)
Lemma replace_no_hit r t s : pieces r s = map Plain s -> replace r t s = s.
Proof.
  intros H. unfold replace. rewrite H. now apply flat_map_plain.
Qed.

Lemma replace_fn_no_hit r f s :
  pieces r s = map Plain s -> replace_fn r f s = Returns s.
Proof.
  intros H. unfold replace_fn. rewrite H. apply replace_pieces_plain.
Qed.

(* ------------------------------------------------------------------ *)
(** ** Step 1: escaping *)

Lemma scan_chr a s : forall prev,
  scan (Chr a) prev s 0
  = map (fun x => if N.eqb x a then Hit [x] [] else Plain x) s.
Proof.
  induction s as [|x s IH]; intros prev.
  - reflexivity.
  - cbn [scan]. unfold exec at 1. cbn [Chr run]. unfold is_chr at 1.
    destruct (N.eqb x a) eqn:E; cbn [map]; rewrite E, <- (IH (Some x)).
    + replace (length (x :: s) - length s) with 1 by (cbn [length]; lia).
      reflexivity.
    + reflexivity.
Qed.

(** Replacing one character by a text, everywhere. *)
Lemma replace_chr a t s :
  replace (Chr a) [T t] s = flat_map (fun x => if N.eqb x a then t else [x]) s.
Proof.
  unfold replace, pieces. rewrite (scan_chr a s None).
  induction s as [|x s IH]; [reflexivity|].
  cbn [map flat_map]. rewrite IH. f_equal.
  destruct (N.eqb x a); [|reflexivity].
  unfold subst. simpl. apply app_nil_r.
Qed.

Lemma flat_map_flat_map (A B C : Type) (f : A -> list B) (g : B -> list C) l :
  flat_map g (flat_map f l) = flat_map (fun x => flat_map g (f x)) l.
Proof.
  induction l as [|x l IH]; [reflexivity|].
  simpl. now rewrite flat_map_app, IH.
Qed.

(** The three replacements of step 1 amount to escaping every character on
    its own. *)
Lemma escape_flat_map raw : escape raw = flat_map escape_char raw.
Proof.
  unfold escape. rewrite !replace_chr, !flat_map_flat_map.
  apply flat_map_ext. intros x. unfold escape_char.
  destruct (N.eqb x (code "&")) eqn:E1; [reflexivity|].
  cbn [flat_map app].
  destruct (N.eqb x (code "<")) eqn:E2; [reflexivity|].
  cbn [flat_map app]. rewrite app_nil_r.
  destruct (N.eqb x (code ">")) eqn:E3; reflexivity.
Qed.

Lemma escape_app a b : escape (a ++ b) = escape a ++ escape b.
Proof. rewrite !escape_flat_map. apply flat_map_app. Qed.

(* ------------------------------------------------------------------ *)
(** ** Captures *)

Lemma get_set n v c m :
  get (set n v c) m = if Nat.eqb n m then Some v else get c m.
Proof.
  unfold get, set. simpl. destruct (Nat.eqb n m); reflexivity.
Qed.

(** Captures are only added. *)
Lemma matches_keeps r prev s c p' s' c' n :
  matches r prev s c p' s' c' -> get c n <> None -> get c' n <> None.
Proof.
  induction 1; auto.
  intros G. rewrite get_set. destruct (Nat.eqb n0 n); [discriminate|auto].
Qed.

Lemma matches_sets r prev s c p' s' c' n :
  matches r prev s c p' s' c' -> always_set r n = true -> get c' n <> None.
Proof.
  induction 1; simpl; intros S; try discriminate.
  - apply orb_true_iff in S as [S|S]; [|auto].
    eapply matches_keeps; eauto.
  - apply andb_true_iff in S as [S _]; auto.
  - apply andb_true_iff in S as [_ S]; auto.
  - rewrite get_set. destruct (Nat.eqb n0 n) eqn:E; [discriminate|].
    simpl in S. auto.
Qed.

(** Every match reported by [scan] was found by [exec] at its position in
    the string. *)
Lemma scan_hit_position r m c s : forall prev skip,
  In (Hit m c) (scan r prev s skip) ->
  exists a b, s = a ++ m ++ b /\
              exec r (prev_after prev a) (m ++ b) = Some (length m, c).
Proof.
  assert (X : forall prev s len c',
    exec r prev s = Some (len, c') -> Hit m c = Hit (firstn len s) c' ->
    exists b, s = m ++ b /\ exec r prev (m ++ b) = Some (length m, c)).
  { intros prev s0 len c' E Heq. inversion Heq; subst.
    pose proof E as E'.
    apply exec_sound in E' as (m0 & s' & p' & -> & -> & M).
    rewrite firstn_app, Nat.sub_diag, firstn_all, firstn_O, app_nil_r.
    exists s'. auto. }
  assert (Y : forall x s prev,
    (exists a b, s = a ++ m ++ b /\
       exec r (prev_after (Some x) a) (m ++ b) = Some (length m, c)) ->
    exists a b, x :: s = a ++ m ++ b /\
       exec r (prev_after prev a) (m ++ b) = Some (length m, c)).
  { intros x s0 prev (a & b & -> & E). exists (x :: a), b. auto. }
  induction s as [|x s IH]; intros prev skip H.
  - destruct skip; simpl in H; [|contradiction].
    destruct (exec r prev []) as [[len c']|] eqn:E; [|contradiction].
    destruct H as [H|[]]. symmetry in H.
    destruct (X _ _ _ _ E H) as (b & Eb & Ex). exists [], b. auto.
  - destruct skip; cbn [scan] in H; [|apply (Y x s prev); eauto].
    destruct (exec r prev (x :: s)) as [[len c']|] eqn:E.
    + destruct H as [H|H].
      * symmetry in H. destruct (X _ _ _ _ E H) as (b & Eb & Ex).
        exists [], b. auto.
      * destruct len; [|apply (Y x s prev); eauto].
        destruct H as [H|H]; [discriminate|apply (Y x s prev); eauto].
    + destruct H as [H|H]; [discriminate|apply (Y x s prev); eauto].
Qed.

Lemma scan_hit_matches r m c s prev skip :
  In (Hit m c) (scan r prev s skip) ->
  exists prev' p'' s'', matches r prev' (m ++ s'') [] p'' s'' c.
Proof.
  intros H. apply scan_hit_position in H as (a & b & -> & E).
  apply exec_sound in E as (m0 & s' & p' & E & L & M).
  assert (m0 = m /\ s' = b) as [-> ->].
  { clear - E L. revert m0 E L.
    induction m as [|x m IH]; intros [|y m0] E L; try discriminate; auto.
    simpl in *. inversion E; subst. destruct (IH m0); auto. now subst. }
  eauto.
Qed.

Lemma scan_hit_sets r n m c s prev skip :
  always_set r n = true -> In (Hit m c) (scan r prev s skip) -> get c n <> None.
Proof.
  intros S H. apply scan_hit_matches in H as (prev' & p'' & s'' & M).
  eapply matches_sets; eauto.
Qed.

(** A callback that returns on every match makes [replace] return. *)
Lemma replace_pieces_returns f ps :
  (forall m c, In (Hit m c) ps -> exists out, f m c = Returns out) ->
  exists out, replace_pieces f ps = Returns out.
Proof.
  induction ps as [|[x|m c] ps IH]; intros H; simpl.
  - eauto.
  - destruct IH as [out ->]; [intros; apply H; now right|]. simpl. eauto.
  - destruct (H m c) as [o ->]; [now left|].
    destruct IH as [out ->]; [intros; apply H; now right|]. simpl. eauto.
Qed.

(** *** The three passes with a callback never throw *)

Lemma liquid_tags_returns s : exists out, liquid_tags s = Returns out.
Proof.
  apply replace_pieces_returns. intros m c H. unfold liquid_tag_cb.
  destruct (get c 2) eqn:G; [eauto|].
  exfalso. revert G. eapply scan_hit_sets; [|exact H]. reflexivity.
Qed.

Lemma liquid_output_returns s : exists out, liquid_output s = Returns out.
Proof.
  apply replace_pieces_returns. intros m c H. unfold liquid_output_cb.
  destruct (get c 2) eqn:G; [eauto|].
  exfalso. revert G. eapply scan_hit_sets; [|exact H]. reflexivity.
Qed.

Lemma html_tags_returns s : exists out, html_tags s = Returns out.
Proof.
  apply replace_pieces_returns. intros m c H. unfold html_tag_cb.
  destruct (get c 3) eqn:G; [eauto|].
  exfalso. revert G. eapply scan_hit_sets; [|exact H]. reflexivity.
Qed.

Lemma structural_returns s : exists out, structural s = Returns out.
Proof.
  unfold structural.
  destruct (liquid_tags_returns s) as [s1 ->]. simpl.
  destruct (liquid_output_returns s1) as [s2 ->]. simpl.
  destruct (html_tags_returns s2) as [s3 ->]. simpl. eauto.
Qed.

Lemma highlightLine_returns raw : exists out, highlightLine raw = Returns out.
Proof.
  unfold highlightLine.
  destruct (structural_returns (escape raw)) as [s ->]. simpl.
  destruct (mask s). eauto.
Qed.

(** *** Without a match every pass is the identity *)



Lemma mask_pieces_plain s tags : mask_pieces (map Plain s) tags = (s, tags).
Proof.
  induction s as [|x s IH]; simpl; [reflexivity|]. now rewrite IH.
Qed.


(* ------------------------------------------------------------------ *)
(** ** The claims *)

(** C3 (as stated, refuted): the input [&amp;] comes out as [&amp;amp;]. *)
Lemma C3_amp_is_escaped_again :
  highlightLine (lit "&amp;") = Returns (lit "&amp;amp;").
Proof. vm_compute. reflexivity. Qed.

(** C3 (amended): the escape step runs once and unconditionally, one
    character at a time: every [&], [<] and [>] of the line is replaced by its
    entity, also inside text that is already escaped.  So an [&amp;] of the
    input is [&amp;amp;] after step 1 whatever surrounds it, and
    [highlightLine] maps the line [&amp;] to [&amp;amp;] (what a browser shows
    as the literal text [&amp;]). *)
Theorem C3_escape_once_per_character :
  (forall raw, escape raw = flat_map escape_char raw) /\
  (forall a b, escape (a ++ lit "&amp;" ++ b)
               = escape a ++ lit "&amp;amp;" ++ escape b) /\
  highlightLine (lit "&amp;") = Returns (lit "&amp;amp;").
Proof.
  split; [exact escape_flat_map|]. split.
  - intros a b. now rewrite !escape_app.
  - vm_compute. reflexivity.
Qed.



(** C5 (as stated, refuted): for the empty line [highlightLine] returns the
    empty string, and what is rendered is not a non-breaking space. *)
Lemma C5_empty_line_not_nbsp :
  highlightLine [] = Returns [] /\ line_html [] <> Returns [nbsp].
Proof. split; [reflexivity|discriminate]. Qed.

(** C5 (amended): for the empty line [highlightLine] itself returns the empty
    string; the renderer puts a single ordinary space (U+0020) in its place,
    so the markup of a rendered line is never empty. *)
Theorem C5_empty_line_is_a_space :
  highlightLine [] = Returns [] /\
  line_html [] = Returns (lit " ") /\
  (forall line, line_html line <> Returns []).
Proof.
  repeat split.
  intros line. unfold line_html.
  destruct (highlightLine line) as [[|x h]|]; discriminate.
Qed.

(** C6 (the code at the failing input): a line that spells a placeholder
    whose index has no entry in the table is not rejected: the callback
    yields [undefined], [replace] writes the text [undefined] in its place
    and [highlightLine] returns normally. *)
Theorem C6_dangling_placeholder_undefined :
  let raw := lit "__HL_TAG_5__" in
  structural (escape raw) = Returns raw /\
  mask raw = (raw, []) /\
  hits re_placeholder (content raw) = [Hit raw [(1, lit "5")]] /\
  highlightLine raw = Returns (lit "undefined").
Proof. vm_compute. repeat split. Qed.

(** C7 (the code at the failing input): in the line ["count": 5] the span
    written by the key pass is itself rewritten by the string pass (which
    matches the quoted style attribute) and by the number pass (which matches
    953800); the key ends up inside a span of the string colour, behind a
    broken opening tag. *)
Theorem C7_json_key_span_is_mangled :
  exists out,
    highlightLine (sq "'count': 5") = Returns out /\
    out = lit "<span style="
          ++ span string_style
               ([dq] ++ lit "color:#" ++ span number_style (lit "953800") ++ [dq])
          ++ lit ">" ++ span string_style (sq "'count'") ++ lit "</span>: "
          ++ span number_style (lit "5") /\
    infix (span key_style (sq "'count'")) out = false.
Proof.
  eexists. split; [vm_compute; reflexivity|].
  split; vm_compute; reflexivity.
Qed.

(** C8 (as stated, refuted): the output for [<div class="a">] is not the
    markup with one span per construct. *)
Lemma C8_value_wrapped_twice :
  highlightLine (sq "<div class='a'>")
  <> Returns (span bracket_style (lit "&lt;") ++ span tag_name_style (lit "div")
              ++ lit " " ++ span attr_name_style (lit "class") ++ lit "="
              ++ span attr_value_style (sq "'a'")
              ++ span bracket_style (lit "&gt;")).
Proof. vm_compute. discriminate. Qed.

(** C8 (amended): for [<div class="a">] the delimiters, the tag name, the
    attribute name and the quoted value are each coloured by their rule, and
    the quoted value is wrapped twice in the same colour: once by the tag
    pass and once more by the string pass, which still sees it after
    masking. *)
Theorem C8_div_class :
  highlightLine (sq "<div class='a'>")
  = Returns (span bracket_style (lit "&lt;") ++ span tag_name_style (lit "div")
             ++ lit " " ++ span attr_name_style (lit "class") ++ lit "="
             ++ span attr_value_style (span string_style (sq "'a'"))
             ++ span bracket_style (lit "&gt;")).
Proof. vm_compute. reflexivity. Qed.

(* ------------------------------------------------------------------ *)
(** ** Reading matches backwards *)

(** A match reads a prefix [m] of the input and leaves the last character
    of [m] before the position it reaches. *)
Lemma matches_reads r prev s c p' s' c' :
  matches r prev s c p' s' c' ->
  exists m, s = m ++ s' /\ p' = prev_after prev m.
Proof.
  induction 1.
  - now exists [].
  - now exists [x].
  - destruct IHmatches1 as (m1 & -> & ->), IHmatches2 as (m2 & -> & ->).
    exists (m1 ++ m2). now rewrite app_assoc, prev_after_app.
  - assumption.
  - assumption.
  - now exists [].
  - destruct IHmatches as (m & -> & ->). now exists (x :: m).
  - assumption.
  - now exists [].
Qed.

Lemma app_inv_length (a b a' b' : str) :
  a ++ b = a' ++ b' -> length b = length b' -> a = a' /\ b = b'.
Proof.
  revert a'. induction a as [|x a IH]; intros [|y a'] E L; simpl in *.
  - auto.
  - subst b. simpl in L. rewrite length_app in L. lia.
  - subst b'. simpl in L. rewrite length_app in L. lia.
  - inversion E; subst. destruct (IH a' H1 L) as [-> ->]. auto.
Qed.

Lemma matches_Class_inv p prev s c p' s' c' :
  matches (Class p) prev s c p' s' c' ->
  exists x, s = x :: s' /\ p x = true /\ p' = Some x /\ c' = c.
Proof. inversion 1; subst. eauto. Qed.

Lemma matches_Cat_inv r1 r2 prev s c p' s' c' :
  matches (Cat r1 r2) prev s c p' s' c' ->
  exists p1 s1 c1,
    matches r1 prev s c p1 s1 c1 /\ matches r2 p1 s1 c1 p' s' c'.
Proof. inversion 1; subst. eauto. Qed.

Lemma matches_Str_inv l : forall prev s c p' s' c',
  matches (Str l) prev s c p' s' c' ->
  s = l ++ s' /\ p' = prev_after prev l /\ c' = c.
Proof.
  induction l as [|a l IH]; intros prev s c p' s' c' M; simpl in M.
  - inversion M; subst. auto.
  - apply matches_Cat_inv in M as (p1 & s1 & c1 & M1 & M2).
    apply matches_Class_inv in M1 as (x & -> & Hx & -> & ->).
    apply IH in M2 as (-> & -> & ->).
    unfold is_chr in Hx. apply N.eqb_eq in Hx. subst. auto.
Qed.

Lemma matches_Rep_inv g p prev s c p' s' c' :
  matches (Rep g p) prev s c p' s' c' ->
  exists m, s = m ++ s' /\ forallb p m = true /\ p' = prev_after prev m /\ c' = c.
Proof.
  remember (Rep g p) as r eqn:R. induction 1; inversion R; subst.
  - now exists [].
  - destruct (IHmatches eq_refl) as (m & -> & F & -> & ->).
    exists (x :: m). simpl. rewrite H, F. auto.
Qed.

Lemma matches_Group_inv n r prev s c p' s' c' :
  matches (Group n r) prev s c p' s' c' ->
  exists m c0, s = m ++ s' /\ matches r prev s c p' s' c0 /\ c' = set n m c0.
Proof.
  inversion 1 as [| | | | | | |n0 r0 prev0 s0 c0 p0 s0' c0' M|]; subst.
  destruct (matches_reads _ _ _ _ _ _ _ M) as (m & -> & _).
  exists m, c0'. rewrite consumed_app. auto.
Qed.

Lemma matches_Or_inv r1 r2 prev s c p' s' c' :
  matches (Or r1 r2) prev s c p' s' c' ->
  matches r1 prev s c p' s' c' \/ matches r2 prev s c p' s' c'.
Proof. inversion 1; subst; auto. Qed.

Lemma matches_Empty_inv prev s c p' s' c' :
  matches Empty prev s c p' s' c' -> p' = prev /\ s' = s /\ c' = c.
Proof. inversion 1; subst; auto. Qed.

Lemma matches_WordBoundary_inv prev s c p' s' c' :
  matches WordBoundary prev s c p' s' c' ->
  p' = prev /\ s' = s /\ c' = c /\ xorb (word_before prev) (word_after s) = true.
Proof. inversion 1; subst; auto. Qed.

(** The pattern cannot match where its first step cannot. *)
Lemma exec_none_matches r prev s :
  (forall p' s' c', ~ matches r prev s [] p' s' c') -> exec r prev s = None.
Proof.
  intros H. destruct (exec r prev s) as [[len c]|] eqn:E; [|reflexivity].
  apply exec_sound in E as (m & s' & p' & _ & _ & M). now apply H in M.
Qed.

(* ------------------------------------------------------------------ *)
(** ** The number pass and word boundaries *)

Lemma rep_greedy_all (A : Type) p xs : forall prev rest c (k : cont A) a,
  forallb p xs = true ->
  rep true p (prev_after prev xs) rest c k = Some a ->
  rep true p prev (xs ++ rest) c k = Some a.
Proof.
  induction xs as [|x xs IH]; intros prev rest c k a F H; [exact H|].
  simpl in F. apply andb_true_iff in F as [Fx F].
  cbn [app rep]. rewrite Fx. now rewrite (IH (Some x) rest c k a F H).
Qed.

Lemma digit_is_word x : is_digit x = true -> is_word x = true.
Proof. unfold is_word. intros ->. now rewrite orb_true_r. Qed.

Lemma word_before_after prev m :
  m <> [] -> forallb is_word m = true -> word_before (prev_after prev m) = true.
Proof.
  revert prev. induction m as [|x m IH]; intros prev N F; [congruence|].
  simpl in F. apply andb_true_iff in F as [Fx F].
  destruct m as [|y m]; [exact Fx|].
  rewrite prev_after_cons. apply IH; [discriminate|exact F].
Qed.

Lemma forallb_digit_word d : forallb is_digit d = true -> forallb is_word d = true.
Proof.
  induction d as [|x d IH]; simpl; [reflexivity|].
  intros H. apply andb_true_iff in H as [Hx H].
  now rewrite (digit_is_word _ Hx), IH.
Qed.

(** A string of digits on its own is one match of the number pattern. *)
Lemma exec_number_digits d :
  d <> [] -> forallb is_digit d = true ->
  exec re_number None d = Some (length d, [(1, d)]).
Proof.
  intros N F. destruct d as [|x d]; [congruence|].
  pose proof F as F'. simpl in F'. apply andb_true_iff in F' as [Fx Fd].
  unfold exec, re_number. cbn [cat run Plus Opt Chr word_before word_after].
  rewrite (digit_is_word _ Fx), Fx. cbn [xorb].
  rewrite <- (app_nil_r d) at 1.
  apply rep_greedy_all; [exact Fd|].
  cbn [rep run].
  change (prev_after (Some x) d) with (prev_after None (x :: d)).
  rewrite word_before_after by (auto using forallb_digit_word).
  cbn [word_after xorb length]. now rewrite consumed_nil, Nat.sub_0_r.
Qed.

Lemma pieces_number_digits d :
  d <> [] -> forallb is_digit d = true ->
  pieces re_number d = [Hit d [(1, d)]].
Proof.
  intros N F. unfold pieces. rewrite <- (app_nil_r d) at 1.
  rewrite scan_hit with (c := [(1, d)]); [|exact N|].
  - now rewrite scan_nil.
  - rewrite app_nil_r. now apply exec_number_digits.
Qed.

(** Digits standing alone are wrapped by the number pass. *)
Lemma numbers_digits d :
  d <> [] -> forallb is_digit d = true -> numbers d = span number_style d.
Proof.
  intros N F. unfold numbers, replace. rewrite pieces_number_digits by assumption.
  cbn [flat_map subst get find fst snd Nat.eqb option_map app].
  unfold span. now rewrite !app_nil_r.
Qed.

Lemma forallb_weaken (A : Type) (p q : A -> bool) l :
  (forall x, p x = true -> q x = true) -> forallb p l = true -> forallb q l = true.
Proof.
  intros H. induction l as [|x l IH]; simpl; [reflexivity|].
  intros F. apply andb_true_iff in F as [Fx F]. now rewrite (H _ Fx), IH.
Qed.

Lemma matches_number_body_inv prev s c p' s' c' :
  matches (Cat (Plus true is_digit)
            (Cat (Opt (Chr (code "."))) (Rep true is_digit))) prev s c p' s' c' ->
  exists m, s = m ++ s' /\ m <> [] /\
    forallb (fun x => is_digit x || is_chr (code ".") x) m = true.
Proof.
  intros M.
  apply matches_Cat_inv in M as (q1 & t1 & d1 & M1 & M).
  apply matches_Cat_inv in M1 as (q0 & t0 & d0 & M0 & M1).
  apply matches_Class_inv in M0 as (x & -> & Hx & -> & ->).
  apply matches_Rep_inv in M1 as (m1 & -> & F1 & -> & ->).
  apply matches_Cat_inv in M as (q2 & t2 & d2 & M2 & M3).
  apply matches_Rep_inv in M3 as (m3 & -> & F3 & _ & _).
  assert (exists m2, t1 = m2 ++ m3 ++ s' /\
            forallb (fun x => is_digit x || is_chr (code ".") x) m2 = true)
    as (m2 & -> & F2).
  { apply matches_Or_inv in M2 as [M2|M2].
    - apply matches_Class_inv in M2 as (y & -> & Hy & _ & _).
      exists [y]. cbn [forallb app]. now rewrite Hy, orb_true_r.
    - apply matches_Empty_inv in M2 as (_ & <- & _). now exists []. }
  exists (x :: m1 ++ m2 ++ m3). split; [|split; [discriminate|]].
  - simpl. now rewrite <- !app_assoc.
  - cbn [forallb]. rewrite Hx. cbn [orb andb]. rewrite !forallb_app, F2.
    cbn [andb]. apply andb_true_iff.
    split; eapply forallb_weaken; eauto; intros y ->; reflexivity.
Qed.

(** Every match of the number pattern consists of digits and dots, and
    there is a word boundary before it and after it. *)
Lemma matches_number_inv prev s p' s' c' :
  matches re_number prev s [] p' s' c' ->
  exists m, s = m ++ s' /\ m <> [] /\
    forallb (fun x => is_digit x || is_chr (code ".") x) m = true /\
    xorb (word_before prev) (word_after s) = true /\
    xorb (word_before (prev_after prev m)) (word_after s') = true.
Proof.
  unfold re_number. cbn [cat]. intros M.
  apply matches_Cat_inv in M as (p1 & s1 & c1 & M1 & M).
  apply matches_WordBoundary_inv in M1 as (-> & -> & -> & B1).
  apply matches_Cat_inv in M as (p2 & s2 & c2 & M & M2).
  apply matches_WordBoundary_inv in M2 as (E1 & E2 & E3 & B2). subst p2 s2 c2.
  apply matches_Group_inv in M as (m & c0 & E & M & _).
  destruct (matches_reads _ _ _ _ _ _ _ M) as (m' & E' & Ep).
  apply matches_number_body_inv in M as (m0 & E0 & N0 & F0).
  assert (m0 = m) as -> by (rewrite E in E0; now apply app_inv_length in E0).
  assert (m' = m) as -> by (rewrite E in E'; now apply app_inv_length in E').
  exists m. subst p'. auto.
Qed.

Lemma forallb_app_l (A : Type) (p : A -> bool) a b :
  forallb p (a ++ b) = true -> forallb p a = true.
Proof. rewrite forallb_app. intros H. now apply andb_true_iff in H. Qed.

Lemma forallb_app_r (A : Type) (p : A -> bool) a b :
  forallb p (a ++ b) = true -> forallb p b = true.
Proof. rewrite forallb_app. intros H. now apply andb_true_iff in H. Qed.

Lemma dot_not_word x : is_chr (code ".") x = true -> is_word x = false.
Proof. unfold is_chr. intros H. apply N.eqb_eq in H. now subst. Qed.

(** In a run of word characters the number pattern can only match the whole
    run, and only if the run is all digits. *)
Lemma exec_number_in_word a x b :
  forallb is_word (a ++ x :: b) = true ->
  forallb is_digit (a ++ x :: b) = false ->
  exec re_number (prev_after None a) (x :: b) = None.
Proof.
  intros W D. apply exec_none_matches. intros p' s' c' M.
  apply matches_number_inv in M as (m & E & Nm & F & B1 & B2).
  pose proof (forallb_app_l _ _ _ _ W) as Wa.
  pose proof (forallb_app_r _ _ _ _ W) as Wxb.
  assert (a = []) as ->.
  { destruct a as [|y a]; [reflexivity|exfalso].
    rewrite word_before_after in B1 by (auto; discriminate).
    simpl in Wxb. apply andb_true_iff in Wxb as [Wx _].
    cbn [word_after] in B1. now rewrite Wx in B1. }
  cbn [prev_after fold_left] in B2. rewrite E in Wxb.
  change (fold_left (fun _ y => Some y) m None) with (prev_after None m) in B2.
  rewrite word_before_after in B2 by (eauto using forallb_app_l).
  assert (s' = []) as ->.
  { destruct s' as [|y s']; [reflexivity|exfalso].
    apply forallb_app_r in Wxb. simpl in Wxb.
    apply andb_true_iff in Wxb as [Wy _]. cbn [word_after] in B2.
    now rewrite Wy in B2. }
  rewrite app_nil_r in *. subst m.
  change ([] ++ x :: b) with (x :: b) in D.
  assert (forallb is_digit (x :: b) = true); [|congruence].
  clear - F Wxb. induction (x :: b) as [|y l IH]; [reflexivity|].
  simpl in *. apply andb_true_iff in F as [Fy F], Wxb as [Wy W].
  rewrite IH by assumption. rewrite andb_true_r.
  destruct (is_digit y); [reflexivity|]. simpl in Fy.
  apply dot_not_word in Fy. congruence.
Qed.

(** Digits that are part of a word are not touched by the number pass. *)
Lemma numbers_in_word w :
  forallb is_word w = true -> forallb is_digit w = false -> numbers w = w.
Proof.
  intros W D. apply replace_no_hit. unfold pieces.
  rewrite <- (app_nil_r w) at 1. rewrite scan_plain.
  - rewrite scan_nil by reflexivity. apply app_nil_r.
  - intros a x b ->. rewrite app_nil_r. now apply exec_number_in_word.
Qed.

(* ------------------------------------------------------------------ *)
(** ** Strings in which a pattern cannot match *)

Lemma exec_blocked r prev x s :
  nullable r = false ->
  negb (xorb (word_before prev) (is_word x)) || negb (first r x) = true ->
  exec (Cat WordBoundary r) prev (x :: s) = None.
Proof.
  intros N H. apply exec_none_matches. intros p' s' c' M.
  apply matches_Cat_inv in M as (p1 & s1 & c1 & M1 & M).
  apply matches_WordBoundary_inv in M1 as (-> & -> & -> & B).
  cbn [word_after] in B. rewrite B in H. cbn [negb orb] in H.
  destruct (matches_first _ _ _ _ _ _ _ M) as [E|(y & t & E & F)].
  - now apply (matches_nonempty _ _ _ _ _ _ _ M).
  - inversion E; subst. now rewrite F in H.
Qed.

Lemma scan_blocked r xs : forall prev ys,
  nullable r = false ->
  blocked r prev xs = true ->
  scan (Cat WordBoundary r) prev (xs ++ ys) 0
  = map Plain xs ++ scan (Cat WordBoundary r) (prev_after prev xs) ys 0.
Proof.
  induction xs as [|x xs IH]; intros prev ys N B; [reflexivity|].
  cbn [blocked] in B. apply andb_true_iff in B as [Bx B].
  cbn [app scan]. rewrite exec_blocked by assumption.
  cbn [map app]. f_equal. now apply IH.
Qed.

Lemma blocked_app r a : forall prev b,
  blocked r prev (a ++ b) = blocked r prev a && blocked r (prev_after prev a) b.
Proof.
  induction a as [|x a IH]; intros prev b; [reflexivity|].
  cbn [app blocked]. rewrite IH, andb_assoc. reflexivity.
Qed.

(** Characters none of which is a first character of [r]. *)
Lemma blocked_no_first r xs : forall prev,
  forallb (fun x => negb (first r x)) xs = true -> blocked r prev xs = true.
Proof.
  induction xs as [|x xs IH]; intros prev F; [reflexivity|].
  simpl in F. apply andb_true_iff in F as [Fx F].
  cbn [blocked]. rewrite Fx, orb_true_r. now apply IH.
Qed.

Lemma flat_map_singleton (f : char -> str) l :
  (forall x, In x l -> f x = [x]) -> flat_map f l = l.
Proof.
  induction l as [|x l IH]; intros H; [reflexivity|].
  simpl. rewrite H by now left. simpl. f_equal. apply IH.
  intros y Hy. apply H. now right.
Qed.

Lemma forallb_In (A : Type) (p : A -> bool) l x :
  forallb p l = true -> In x l -> p x = true.
Proof. intros F. now apply forallb_forall. Qed.

(** *** Digits *)

Lemma digit_range x : is_digit x = true -> (48 <= x <= 57)%N.
Proof.
  unfold is_digit, between. intros H. apply andb_true_iff in H as [H1 H2].
  apply N.leb_le in H1, H2. auto.
Qed.

(** A digit is none of the characters compared with in the goal. *)
Ltac not_a_digit H :=
  apply digit_range in H;
  repeat match goal with
  | |- context [code ?a] =>
      let v := eval vm_compute in (code a) in change (code a) with v
  end;
  repeat match goal with
  | |- context [N.eqb ?x ?n] =>
      destruct (N.eqb_spec x n) as [->|_]; [exfalso; clear - H; lia|]
  end;
  try reflexivity.

Lemma escape_digits d : forallb is_digit d = true -> escape d = d.
Proof.
  intros F. rewrite escape_flat_map. apply flat_map_singleton.
  intros x Hx. apply (forallb_In _ _ _ _ F) in Hx.
  unfold escape_char. not_a_digit Hx.
Qed.

(** Proves that a digit is not a first character of a given pattern. *)
Ltac no_digit_first :=
  let x := fresh "x" in
  let H := fresh "H" in
  intros x H; cbn -[N.eqb N.leb]; unfold is_chr, is_other, dq; not_a_digit H.

Lemma pieces_digits r d :
  nullable r = false ->
  (forall x, is_digit x = true -> negb (first r x) = true) ->
  forallb is_digit d = true ->
  pieces r d = map Plain d.
Proof.
  intros N H F. apply pieces_no_first; [exact N|].
  now apply (forallb_weaken _ _ _ _ H).
Qed.

Lemma blocked_cons_no_first r prev x xs :
  first r x = false -> blocked r (Some x) xs = true ->
  blocked r prev (x :: xs) = true.
Proof. intros F B. cbn [blocked]. now rewrite F, B, orb_true_r. Qed.

(** A string of digits on its own goes through the whole function as one
    number. *)
Lemma highlightLine_digits d :
  d <> [] -> forallb is_digit d = true ->
  highlightLine d = Returns (span number_style d).
Proof.
  intros N F. unfold highlightLine. rewrite (escape_digits _ F).
  assert (S : structural d = Returns d).
  { unfold structural, liquid_tags, liquid_output, html_tags, html_comments.
    rewrite replace_fn_no_hit
      by (apply pieces_digits; [reflexivity|no_digit_first|exact F]).
    cbn [bind].
    rewrite replace_fn_no_hit
      by (apply pieces_digits; [reflexivity|no_digit_first|exact F]).
    cbn [bind].
    rewrite replace_fn_no_hit
      by (apply pieces_digits; [reflexivity|no_digit_first|exact F]).
    cbn [bind].
    rewrite replace_no_hit
      by (apply pieces_digits; [reflexivity|no_digit_first|exact F]).
    reflexivity. }
  rewrite S. cbn [bind]. unfold mask.
  rewrite pieces_digits by (try reflexivity; try assumption; no_digit_first).
  rewrite mask_pieces_plain. unfold content, json_keys, strings.
  rewrite (replace_no_hit re_json_key _ d)
    by (apply pieces_digits; [reflexivity|no_digit_first|exact F]).
  rewrite (replace_no_hit re_string _ d)
    by (apply pieces_digits; [reflexivity|no_digit_first|exact F]).
  rewrite (numbers_digits _ N F).
  assert (B : booleans (span number_style d) = span number_style d).
  { apply replace_no_hit. unfold pieces, span, number_style, re_boolean.
    cbn [cat].
    match goal with |- scan _ _ ?s _ = _ => rewrite <- (app_nil_r s) at 1 end.
    rewrite scan_blocked; [now rewrite scan_nil, app_nil_r|reflexivity|].
    rewrite !blocked_app.
    do 3 (apply andb_true_iff; split; [vm_compute; reflexivity|]).
    apply andb_true_iff; split.
    - apply blocked_no_first. revert F. apply forallb_weaken. no_digit_first.
    - apply blocked_cons_no_first; vm_compute; reflexivity. }
  rewrite B. f_equal. unfold unmask.
  rewrite pieces_no_first; [now apply flat_map_plain|reflexivity|].
  unfold span, number_style. rewrite !forallb_app.
  do 3 (apply andb_true_iff; split; [vm_compute; reflexivity|]).
  apply andb_true_iff; split; [|vm_compute; reflexivity].
  revert F. apply forallb_weaken. no_digit_first.
Qed.

(** *** Words *)

(** Between two word boundaries inside a run of word characters lies the
    whole run: [\b(r)\b] matches there only if [r] matches the run. *)
Lemma exec_bounded_in_word r n a x b :
  nullable r = false ->
  forallb is_word (a ++ x :: b) = true ->
  (forall prev c p' c', ~ matches r prev (a ++ x :: b) c p' [] c') ->
  exec (Cat WordBoundary (Cat (Group n r) WordBoundary)) (prev_after None a) (x :: b)
  = None.
Proof.
  intros N W H. apply exec_none_matches. intros p' s' c' M.
  apply matches_Cat_inv in M as (p1 & s1 & c1 & M1 & M).
  apply matches_WordBoundary_inv in M1 as (-> & -> & -> & B1).
  apply matches_Cat_inv in M as (p2 & s2 & c2 & M & M2).
  apply matches_WordBoundary_inv in M2 as (E1 & E2 & E3 & B2). subst p2 s2 c2.
  apply matches_Group_inv in M as (m & c0 & E & M & _).
  destruct (matches_reads _ _ _ _ _ _ _ M) as (m' & E' & Ep).
  assert (m' = m) as -> by (rewrite E in E'; now apply app_inv_length in E').
  pose proof (forallb_app_l _ _ _ _ W) as Wa.
  pose proof (forallb_app_r _ _ _ _ W) as Wxb.
  assert (a = []) as ->.
  { destruct a as [|y a]; [reflexivity|exfalso].
    rewrite word_before_after in B1 by (auto; discriminate).
    simpl in Wxb. apply andb_true_iff in Wxb as [Wx _].
    cbn [word_after] in B1. now rewrite Wx in B1. }
  cbn [prev_after fold_left] in Ep.
  change (fold_left (fun _ y => Some y) m None) with (prev_after None m) in Ep.
  assert (Nm : m <> []).
  { intros ->. apply (matches_nonempty _ _ _ _ _ _ _ M N). now rewrite E. }
  rewrite E in Wxb. subst p'.
  rewrite word_before_after in B2 by (eauto using forallb_app_l).
  assert (s' = []) as ->.
  { destruct s' as [|y s']; [reflexivity|exfalso].
    apply forallb_app_r in Wxb. simpl in Wxb.
    apply andb_true_iff in Wxb as [Wy _]. cbn [word_after] in B2.
    now rewrite Wy in B2. }
  apply (H _ _ _ _ M).
Qed.

(** A match of an alternative of literal words is one of the words. *)
Lemma matches_words_inv l : forall prev s c p' s' c',
  matches (words l) prev s c p' s' c' ->
  exists w, In w l /\ s = lit w ++ s'.
Proof.
  unfold words. induction l as [|w l IH]; intros prev s c p' s' c' M.
  - simpl in M. apply matches_Class_inv in M as (x & _ & Hx & _). discriminate.
  - destruct l as [|w' l].
    + simpl in M. apply matches_Str_inv in M as (-> & _). exists w. simpl. auto.
    + change (alt (map (fun w => Str (lit w)) (w :: w' :: l)))
        with (Or (Str (lit w)) (alt (map (fun w => Str (lit w)) (w' :: l)))) in M.
      apply matches_Or_inv in M as [M|M].
      * apply matches_Str_inv in M as (-> & _). exists w. simpl. auto.
      * apply IH in M as (w0 & I & ->). exists w0. split; [now right|reflexivity].
Qed.

(** *** Identifiers *)

Lemma word_range x :
  is_word x = true ->
  ((97 <= x <= 122) \/ (65 <= x <= 90) \/ (48 <= x <= 57) \/ x = 95)%N.
Proof.
  unfold is_word, is_digit, between. intros H.
  repeat (apply orb_true_iff in H as [H|H]);
    try (apply andb_true_iff in H as [H1 H2]; apply N.leb_le in H1, H2);
    try (apply N.eqb_eq in H); auto.
Qed.

(** A word character is none of the characters compared with in the goal. *)
Ltac not_a_word H :=
  apply word_range in H;
  repeat match goal with
  | |- context [code ?a] =>
      let v := eval vm_compute in (code a) in change (code a) with v
  end;
  repeat match goal with
  | |- context [N.eqb ?x ?n] =>
      destruct (N.eqb_spec x n) as [->|_]; [exfalso; clear - H; lia|]
  end;
  try reflexivity.

Ltac no_word_first :=
  let x := fresh "x" in
  let H := fresh "H" in
  intros x H; cbn -[N.eqb N.leb]; unfold is_chr, is_other, dq; not_a_word H.

Lemma escape_word w : forallb is_word w = true -> escape w = w.
Proof.
  intros F. rewrite escape_flat_map. apply flat_map_singleton.
  intros x Hx. apply (forallb_In _ _ _ _ F) in Hx.
  unfold escape_char. not_a_word Hx.
Qed.

Lemma pieces_word r w :
  nullable r = false ->
  (forall x, is_word x = true -> negb (first r x) = true) ->
  forallb is_word w = true ->
  pieces r w = map Plain w.
Proof.
  intros N H F. apply pieces_no_first; [exact N|].
  now apply (forallb_weaken _ _ _ _ H).
Qed.

(** A word that is not a number and not one of [true], [false], [nil],
    [null], and that has no underscore, goes through the whole function
    unchanged. *)
Lemma highlightLine_word w :
  forallb is_word w = true ->
  forallb is_digit w = false ->
  existsb (is_chr (code "_")) w = false ->
  ~ In w (map lit ["true"; "false"; "nil"; "null"]%string) ->
  highlightLine w = Returns w.
Proof.
  intros W D U B. unfold highlightLine. rewrite (escape_word _ W).
  assert (S : structural w = Returns w).
  { unfold structural, liquid_tags, liquid_output, html_tags, html_comments.
    rewrite replace_fn_no_hit
      by (apply pieces_word; [reflexivity|no_word_first|exact W]).
    cbn [bind].
    rewrite replace_fn_no_hit
      by (apply pieces_word; [reflexivity|no_word_first|exact W]).
    cbn [bind].
    rewrite replace_fn_no_hit
      by (apply pieces_word; [reflexivity|no_word_first|exact W]).
    cbn [bind].
    rewrite replace_no_hit
      by (apply pieces_word; [reflexivity|no_word_first|exact W]).
    reflexivity. }
  rewrite S. cbn [bind]. unfold mask.
  rewrite pieces_word by (try reflexivity; try assumption; no_word_first).
  rewrite mask_pieces_plain. unfold content, json_keys, strings.
  rewrite (replace_no_hit re_json_key _ w)
    by (apply pieces_word; [reflexivity|no_word_first|exact W]).
  rewrite (replace_no_hit re_string _ w)
    by (apply pieces_word; [reflexivity|no_word_first|exact W]).
  rewrite (numbers_in_word _ W D).
  assert (Bo : booleans w = w).
  { apply replace_no_hit. unfold pieces.
    rewrite <- (app_nil_r w) at 1. rewrite scan_plain.
    - rewrite scan_nil by reflexivity. apply app_nil_r.
    - intros a x b ->. rewrite app_nil_r.
      apply exec_bounded_in_word; [reflexivity|exact W|].
      intros prev c p' c' M. apply matches_words_inv in M as (w0 & I & E).
      rewrite app_nil_r in E. apply B. rewrite E. now apply in_map. }
  rewrite Bo. f_equal. unfold unmask.
  rewrite pieces_no_first; [now apply flat_map_plain|reflexivity|].
  clear - U. induction w as [|x w IH]; [reflexivity|].
  simpl in U. apply orb_false_iff in U as [Ux U].
  cbn [forallb]. rewrite (IH U), andb_true_r.
  cbn -[N.eqb]. now rewrite Ux.
Qed.

(** Wherever the number pass finds a match, the match is made of digits and
    dots, begins with a word character and the character before it is not a
    word character. *)
Lemma number_hit_boundary s m c :
  In (Hit m c) (pieces re_number s) ->
  exists a b, s = a ++ m ++ b /\
    word_before (prev_after None a) = false /\
    word_after m = true /\
    forallb (fun x => is_digit x || is_chr (code ".") x) m = true.
Proof.
  intros H. apply scan_hit_position in H as (a & b & E & X).
  exists a, b. split; [exact E|].
  apply exec_sound in X as (m0 & s' & p' & E0 & L & M).
  apply app_inv_length in E0 as [<- <-].
  2:{ apply (f_equal (@length _)) in E0. rewrite !length_app in E0. lia. }
  pose proof M as M'.
  apply matches_number_inv in M' as (m1 & E1 & N1 & F1 & B1 & _).
  apply app_inv_length in E1 as [<- _]; [|reflexivity].
  destruct (matches_first _ _ _ _ _ _ _ M) as [E2|(x & t & E2 & Fx)].
  { exfalso. now apply (matches_nonempty _ _ _ _ _ _ _ M). }
  destruct m as [|y m]; [congruence|]. inversion E2; subst x t.
  assert (Dy : is_digit y = true).
  { revert Fx. unfold re_number. cbn -[N.eqb N.leb].
    now rewrite !orb_false_r. }
  cbn [app word_after] in *. rewrite (digit_is_word _ Dy) in *.
  repeat split; auto.
  destruct (word_before (prev_after None a)); [discriminate|reflexivity].
Qed.

(** C9: a number that stands right next to a tag is not wrapped.  In the
    line [<b>123</b>] the token [123] stands alone, between [>] and [<].
    The number pass runs on the masked text, in which the neighbours of
    [123] are placeholders; a placeholder begins and ends with an
    underscore, a word character, so there is no word boundary around [123]
    and the pass finds no match: the content passes change nothing and
    [highlightLine] returns the line with [123] bare.  With a blank on
    either side of the number, in [<b> 123 </b>], the same token is
    wrapped. *)
Theorem C9_number_next_to_a_tag_is_not_wrapped :
  let raw := lit "<b>123</b>" in
  let s := span bracket_style (lit "&lt;") ++ span tag_name_style (lit "b")
           ++ span bracket_style (lit "&gt;")
           ++ lit "123"
           ++ span bracket_style (lit "&lt;/") ++ span tag_name_style (lit "b")
           ++ span bracket_style (lit "&gt;") in
  let masked := lit "__HL_TAG_0__&lt;__HL_TAG_1____HL_TAG_2__b__HL_TAG_3____HL_TAG_4__&gt;__HL_TAG_5__123__HL_TAG_6__&lt;/__HL_TAG_7____HL_TAG_8__b__HL_TAG_9____HL_TAG_10__&gt;__HL_TAG_11__" in
  structural (escape raw) = Returns s /\
  fst (mask s) = masked /\
  hits re_number masked = [] /\
  content masked = masked /\
  highlightLine raw = Returns s /\
  infix (span number_style (lit "123")) s = false /\
  highlightLine (lit "<b> 123 </b>")
  = Returns
      (span bracket_style (lit "&lt;") ++ span tag_name_style (lit "b")
       ++ span bracket_style (lit "&gt;")
       ++ lit " " ++ span number_style (lit "123") ++ lit " "
       ++ span bracket_style (lit "&lt;/") ++ span tag_name_style (lit "b")
       ++ span bracket_style (lit "&gt;")).
Proof. vm_compute. repeat split. Qed.

(* ------------------------------------------------------------------ *)
(** ** The markup written by the structural passes *)

Lemma prefix_app p : forall s t, prefix p s = true -> prefix p (s ++ t) = true.
Proof.
  induction p as [|c p IH]; intros [|x s] t H; simpl in *; try easy.
  apply andb_true_iff in H as [-> H]. simpl. now apply IH.
Qed.

(** A text [p] that begins in [u ++ w ++ y :: v] ends within [u] when [y]
    is not a character of [p] and the last character of [p] is not in [w]. *)
Lemma prefix_not_across p : forall w y v,
  p <> [] ->
  existsb (N.eqb y) p = false ->
  existsb (N.eqb (last p 0%N)) w = false ->
  prefix p (w ++ y :: v) = false.
Proof.
  induction p as [|c p IH]; intros w y v Np Hy Hw; [congruence|].
  cbn [existsb] in Hy. apply orb_false_iff in Hy as [Hyc Hy].
  destruct w as [|z w]; cbn [app prefix].
  - rewrite N.eqb_sym, Hyc. reflexivity.
  - destruct (N.eqb c z) eqn:E; [|reflexivity]. cbn [andb].
    apply N.eqb_eq in E. subst z.
    destruct p as [|c' p].
    + cbn [last existsb] in Hw. now rewrite N.eqb_refl in Hw.
    + apply IH; [discriminate|exact Hy|].
      change (last (c :: c' :: p) 0%N) with (last (c' :: p) 0%N) in Hw.
      cbn [existsb] in Hw. now apply orb_false_iff in Hw.
Qed.

Lemma prefix_cut p : forall u w y v,
  existsb (N.eqb y) p = false ->
  existsb (N.eqb (last p 0%N)) w = false ->
  prefix p (u ++ w ++ y :: v) = true -> prefix p u = true.
Proof.
  induction p as [|c p IH]; intros u w y v Hy Hw H; [reflexivity|].
  destruct u as [|z u].
  - cbn [app] in H. rewrite prefix_not_across in H; [discriminate|discriminate|auto..].
  - cbn [app prefix] in *. apply andb_true_iff in H as [-> H]. cbn [andb].
    destruct p as [|c' p]; [reflexivity|].
    apply (IH u w y v); auto.
    + cbn [existsb] in Hy. now apply orb_false_iff in Hy.
Qed.

Lemma well_tagged_app a b :
  well_tagged a = true -> well_tagged b = true -> well_tagged (a ++ b) = true.
Proof.
  induction a as [|x a IH]; intros Ha Hb; [exact Hb|].
  cbn [app well_tagged] in *. apply andb_true_iff in Ha as [Hx Ha].
  rewrite (IH Ha Hb), andb_true_r.
  apply orb_true_iff in Hx as [Hx|Hx].
  - apply orb_true_iff in Hx as [Hx|Hx].
    + now rewrite Hx.
    + now rewrite (prefix_app _ _ _ Hx), orb_true_r.
  - now rewrite (prefix_app _ _ _ Hx), orb_true_r.
Qed.

Lemma well_tagged_suffix a b :
  well_tagged (a ++ b) = true -> well_tagged b = true.
Proof.
  induction a as [|x a IH]; intros H; [exact H|].
  cbn [app well_tagged] in H. apply andb_true_iff in H as [_ H]. auto.
Qed.

Lemma well_tagged_no_lt s :
  forallb (is_other (code "<")) s = true -> well_tagged s = true.
Proof.
  induction s as [|x s IH]; intros H; [reflexivity|].
  cbn [forallb well_tagged] in *. apply andb_true_iff in H as [Hx H].
  unfold is_other in Hx. now rewrite Hx, IH.
Qed.

(** Cutting a well-tagged text in front of [w ++ y :: v], where [w] has no
    blank and no [>] and [y] is not a character of a tag opening, does not
    cut through [<span ] or [</span>]. *)
Lemma well_tagged_cut a w y v :
  existsb (fun x => is_chr (code " ") x || is_chr (code ">") x) w = false ->
  tag_char y = false ->
  well_tagged (a ++ w ++ y :: v) = true -> well_tagged a = true.
Proof.
  intros Hw Hy. induction a as [|x a IH]; intros H; [reflexivity|].
  cbn [app well_tagged] in *. apply andb_true_iff in H as [Hx H].
  rewrite (IH H), andb_true_r.
  assert (W1 : existsb (N.eqb (last (lit "span ") 0%N)) w = false).
  { clear - Hw. induction w as [|z w IH]; [reflexivity|].
    cbn [existsb] in *. apply orb_false_iff in Hw as [Hz Hw].
    apply orb_false_iff in Hz as [Hz _]. rewrite (IH Hw), orb_false_r.
    unfold is_chr in Hz. rewrite N.eqb_sym. exact Hz. }
  assert (W2 : existsb (N.eqb (last (lit "/span>") 0%N)) w = false).
  { clear - Hw. induction w as [|z w IH]; [reflexivity|].
    cbn [existsb] in *. apply orb_false_iff in Hw as [Hz Hw].
    apply orb_false_iff in Hz as [_ Hz]. rewrite (IH Hw), orb_false_r.
    unfold is_chr in Hz. rewrite N.eqb_sym. exact Hz. }
  assert (Y1 : existsb (N.eqb y) (lit "span ") = false).
  { revert Hy. unfold tag_char. cbn -[N.eqb].
    intros Hy. repeat (apply orb_false_iff in Hy as [? Hy]).
    repeat (apply orb_false_iff; split); auto. }
  assert (Y2 : existsb (N.eqb y) (lit "/span>") = false).
  { revert Hy. unfold tag_char. cbn -[N.eqb].
    intros Hy. repeat (apply orb_false_iff in Hy as [? Hy]).
    repeat (apply orb_false_iff; split); auto. }
  apply orb_true_iff in Hx as [Hx|Hx].
  - apply orb_true_iff in Hx as [Hx|Hx].
    + now rewrite Hx.
    + now rewrite (prefix_cut _ _ _ _ _ Y1 W1 Hx), orb_true_r.
  - now rewrite (prefix_cut _ _ _ _ _ Y2 W2 Hx), orb_true_r.
Qed.

Lemma well_tagged_cut_at a y v :
  tag_char y = false ->
  well_tagged (a ++ y :: v) = true -> well_tagged a = true.
Proof. intros Hy. now apply (well_tagged_cut a [] y v). Qed.

(** *** Replacing, match by match *)

(** A scan either finds nothing, or copies the characters in front of the
    first match, reports the match and goes on behind it. *)
Lemma scan_first_hit r :
  nullable r = false ->
  forall s prev,
    scan r prev s 0 = map Plain s \/
    exists a m c b,
      s = a ++ m ++ b /\ m <> [] /\
      exec r (prev_after prev a) (m ++ b) = Some (length m, c) /\
      scan r prev s 0
      = map Plain a ++ Hit m c :: scan r (prev_after prev (a ++ m)) b 0.
Proof.
  intros N. induction s as [|x s IH]; intros prev.
  - left. now apply scan_nil.
  - destruct (exec r prev (x :: s)) as [[len c]|] eqn:E.
    + right. pose proof E as E'.
      apply exec_sound in E' as (m & s' & p' & Es & -> & M).
      assert (Nm : m <> []).
      { intros ->. apply (matches_nonempty _ _ _ _ _ _ _ M N). now rewrite Es. }
      exists [], m, c, s'. rewrite Es in *. repeat split; auto.
      cbn [map app]. now apply scan_hit.
    + destruct (IH (Some x)) as [P|(a & m & c & b & -> & Nm & X & S)].
      * left. cbn [scan]. rewrite E. cbn [map]. now f_equal.
      * right. exists (x :: a), m, c, b. repeat split; auto.
        cbn [scan app]. rewrite E. cbn [map app]. now f_equal.
Qed.

Lemma replace_pieces_app_plain f a ps :
  replace_pieces f (map Plain a ++ ps)
  = (rest <- replace_pieces f ps ;; Returns (a ++ rest)).
Proof.
  induction a as [|x a IH]; cbn [map app replace_pieces].
  - destruct (replace_pieces f ps); reflexivity.
  - rewrite IH. destruct (replace_pieces f ps); reflexivity.
Qed.

(** [replace] with a template is [replace] with a callback that fills the
    template in. *)
Lemma replace_as_fn r t s :
  Returns (replace r t s) = replace_fn r (fun _ c => Returns (subst t c)) s.
Proof.
  unfold replace, replace_fn. induction (pieces r s) as [|[x|m c] ps IH].
  - reflexivity.
  - cbn [flat_map replace_pieces]. rewrite <- IH. reflexivity.
  - cbn [flat_map replace_pieces bind]. rewrite <- IH. reflexivity.
Qed.

Section ReplaceTagged.
Variable r : regex.
Variable f : str -> caps -> completion str.
Variable Inv : str -> Prop.
Hypothesis r_not_nullable : nullable r = false.
Hypothesis Inv_suffix : forall a b, Inv (a ++ b) -> Inv b.
Hypothesis Inv_tagged : forall s, Inv s -> well_tagged s = true.
Hypothesis hit_tagged : forall prev a m b c out,
  Inv (a ++ m ++ b) ->
  exec r prev (m ++ b) = Some (length m, c) ->
  f m c = Returns out ->
  well_tagged a = true /\ well_tagged out = true.

(** If the text in front of every match and the replacement of every match
    are well tagged, so is the result. *)
Lemma replace_pieces_tagged n : forall s prev out,
  length s <= n -> Inv s ->
  replace_pieces f (scan r prev s 0) = Returns out ->
  well_tagged out = true.
Proof.
  induction n as [|n IH]; intros s prev out L I H.
  - destruct s; [|simpl in L; lia].
    rewrite scan_nil in H by assumption. inversion H. reflexivity.
  - destruct (scan_first_hit r r_not_nullable s prev)
      as [P|(a & m & c & b & -> & Nm & X & S)].
    + rewrite P, replace_pieces_plain in H. inversion H; subst. auto.
    + rewrite S, replace_pieces_app_plain in H. cbn [replace_pieces] in H.
      destruct (f m c) as [o|] eqn:F; [|discriminate]. cbn [bind] in H.
      destruct (replace_pieces f (scan r (prev_after prev (a ++ m)) b 0))
        as [rest|] eqn:R; [|discriminate].
      cbn [bind] in H. inversion H; subst out.
      destruct (hit_tagged _ a m b c o I X F) as [Wa Wo].
      apply well_tagged_app; [exact Wa|]. apply well_tagged_app; [exact Wo|].
      apply (IH b (prev_after prev (a ++ m)) rest); auto.
      * rewrite !length_app in L. destruct m; [congruence|]. simpl in L. lia.
      * apply (Inv_suffix (a ++ m)). now rewrite <- app_assoc.
Qed.

Lemma replace_fn_tagged s out :
  Inv s -> replace_fn r f s = Returns out -> well_tagged out = true.
Proof. intros I H. now apply (replace_pieces_tagged (length s) s None out). Qed.
End ReplaceTagged.

(** *** What the groups of a match hold *)

Lemma matches_avoids a r prev s c p' s' c' :
  matches r prev s c p' s' c' -> avoids a r = true ->
  forall t, s = t ++ s' -> forallb (is_other a) t = true.
Proof.
  induction 1; cbn [avoids]; intros Av t E.
  - apply app_same_length_nil_eq in E. now subst.
  - destruct t as [|y t].
    + exfalso. simpl in E. apply (f_equal (@length _)) in E. simpl in E. lia.
    + inversion E as [[Ex Et]]. subst y.
      apply app_same_length_nil_eq in Et. subst t.
      simpl. rewrite andb_true_r. unfold is_other.
      destruct (N.eqb_spec x a) as [->|_]; [|reflexivity].
      rewrite H in Av. discriminate.
  - apply andb_true_iff in Av as [A1 A2].
    destruct (matches_suffix _ _ _ _ _ _ _ H) as [m1 E1].
    destruct (matches_suffix _ _ _ _ _ _ _ H0) as [m2 E2].
    pose proof E as E0. rewrite E1, E2, app_assoc in E0.
    apply app_inv_length in E0 as [<- _]; [|reflexivity].
    rewrite forallb_app, (IHmatches1 A1 m1 E1), (IHmatches2 A2 m2 E2).
    reflexivity.
  - apply andb_true_iff in Av as [A1 _]. auto.
  - apply andb_true_iff in Av as [_ A2]. auto.
  - apply app_same_length_nil_eq in E. now subst.
  - destruct (matches_suffix _ _ _ _ _ _ _ H0) as [m E'].
    pose proof E as E0. rewrite E' in E0.
    change (x :: m ++ s') with ((x :: m) ++ s') in E0.
    apply app_inv_length in E0 as [<- _]; [|reflexivity].
    cbn [forallb]. rewrite (IHmatches Av m E'), andb_true_r.
    unfold is_other. destruct (N.eqb_spec x a) as [->|_]; [|reflexivity].
    rewrite H in Av. discriminate.
  - auto.
  - apply app_same_length_nil_eq in E. now subst.
Qed.

Lemma matches_no_groups r prev s c p' s' c' :
  matches r prev s c p' s' c' -> no_groups r = true -> c' = c.
Proof.
  induction 1; cbn [no_groups]; intros G; auto; try discriminate.
  - apply andb_true_iff in G as [G1 G2].
    now rewrite (IHmatches2 G2), (IHmatches1 G1).
  - apply andb_true_iff in G as [G1 _]. auto.
  - apply andb_true_iff in G as [_ G2]. auto.
Qed.

Lemma matches_starts r prev g s' c p' c' :
  matches r prev (g ++ s') c p' s' c' -> starts r g.
Proof.
  intros M. destruct g as [|x g]; cbn [starts].
  - destruct (nullable r) eqn:N; [reflexivity|].
    exfalso. now apply (matches_nonempty _ _ _ _ _ _ _ M).
  - destruct (matches_first _ _ _ _ _ _ _ M) as [E|(y & t & E & F)].
    + exfalso. apply (f_equal (@length _)) in E.
      cbn [app length] in E. rewrite length_app in E. lia.
    + inversion E; subst. exact F.
Qed.

(** A group without inner groups, followed by the rest of the pattern. *)
Lemma matches_Cat_Group_inv n r1 r2 prev s c p' s' c' :
  matches (Cat (Group n r1) r2) prev s c p' s' c' ->
  no_groups r1 = true ->
  exists g rest p1,
    s = g ++ rest /\
    matches r1 prev (g ++ rest) c p1 rest c /\
    matches r2 p1 rest (set n g c) p' s' c'.
Proof.
  intros M G.
  apply matches_Cat_inv in M as (p1 & s1 & c1 & M1 & M2).
  apply matches_Group_inv in M1 as (g & c0 & -> & M1 & ->).
  pose proof (matches_no_groups _ _ _ _ _ _ _ M1 G) as ->.
  exists g, s1, p1. repeat split; assumption.
Qed.

Lemma matches_Group_last_inv n r1 prev s c p' s' c' :
  matches (Group n r1) prev s c p' s' c' ->
  no_groups r1 = true ->
  exists g,
    s = g ++ s' /\ matches r1 prev (g ++ s') c p' s' c /\ c' = set n g c.
Proof.
  intros M G.
  apply matches_Group_inv in M as (g & c0 & -> & M1 & ->).
  pose proof (matches_no_groups _ _ _ _ _ _ _ M1 G) as ->.
  exists g. repeat split; assumption.
Qed.

Lemma exec_hit_matches r prev m b c :
  exec r prev (m ++ b) = Some (length m, c) ->
  exists p', matches r prev (m ++ b) [] p' b c.
Proof.
  intros E. apply exec_sound in E as (m0 & s' & p' & E & L & M).
  pose proof E as E0. apply app_inv_length in E0 as [-> ->].
  - eauto.
  - apply (f_equal (@length _)) in E. rewrite !length_app in E. lia.
Qed.


Lemma no_blank_no_gt w :
  forallb (is_other (code " ")) w = true ->
  forallb (is_other (code ">")) w = true ->
  existsb (fun x => is_chr (code " ") x || is_chr (code ">") x) w = false.
Proof.
  induction w as [|x w IH]; [reflexivity|].
  cbn [forallb existsb]. intros H1 H2.
  apply andb_true_iff in H1 as [X1 H1], H2 as [X2 H2].
  rewrite (IH H1 H2), orb_false_r. unfold is_other in *. unfold is_chr.
  apply negb_true_iff in X1, X2. now rewrite X1, X2.
Qed.

(** From [first r x = true] for a pattern that begins with given
    characters: [x] is one of them. *)
Ltac first_chars F :=
  cbn -[N.eqb N.leb] in F; unfold is_chr, dq in F;
  repeat match type of F with
  | (_ || _) = true => apply orb_true_iff in F as [F|F]
  | false = true => discriminate F
  end;
  try (apply N.eqb_eq in F; subst).

(** From [starts r g] for a pattern that is not nullable: [g] begins with a
    first character of [r]. *)
Ltac starts_with S x g' :=
  match type of S with
  | starts _ ?g => destruct g as [|x g']; cbn [starts] in S; [discriminate S|]
  end.

(** Cuts the well-tagged text of [H] in front of its character [y], which
    is not a character of a tag opening. *)
Ltac cut_at H :=
  match type of H with
  | well_tagged (?a ++ (?y :: ?v) ++ ?b) = true =>
      apply (well_tagged_cut_at a y (v ++ b)); [reflexivity|exact H]
  | well_tagged (?a ++ ?y :: ?v) = true =>
      apply (well_tagged_cut_at a y v); [reflexivity|exact H]
  end.

(** *** Pass by pass *)

(** The keyword pass, run on text without any [<]. *)
Lemma keyword_pass_tagged t inner :
  well_tagged (subst t []) = true ->
  (forall g, forallb (is_other (code "<")) g = true ->
             well_tagged (subst t [(1, g)]) = true) ->
  forallb (is_other (code "<")) inner = true ->
  well_tagged (replace re_keyword t inner) = true.
Proof.
  intros _ Ht I.
  apply (replace_fn_tagged re_keyword (fun _ c => Returns (subst t c))
           (fun s => forallb (is_other (code "<")) s = true)) with (s := inner).
  - reflexivity.
  - intros a b. apply forallb_app_r.
  - apply well_tagged_no_lt.
  - intros prev a m b c out Inv X F. inversion F; subst out. clear F.
    split; [apply well_tagged_no_lt; now apply forallb_app_l in Inv|].
    apply exec_hit_matches in X as (p' & M).
    unfold re_keyword in M. cbn [cat] in M.
    apply matches_Cat_inv in M as (p1 & s1 & c1 & M1 & M).
    apply matches_WordBoundary_inv in M1 as (-> & -> & -> & _).
    apply matches_Cat_Group_inv in M as (g & rest & p2 & E & _ & M);
      [|reflexivity].
    apply matches_WordBoundary_inv in M as (_ & -> & -> & _).
    apply app_inv_length in E as [<- _]; [|reflexivity].
    apply Ht. apply forallb_app_r in Inv. now apply forallb_app_l in Inv.
  - exact I.
  - symmetry. apply replace_as_fn.
Qed.

Lemma liquid_tags_tagged s out :
  forallb (is_other (code "<")) s = true ->
  liquid_tags s = Returns out -> well_tagged out = true.
Proof.
  intros I H.
  apply (replace_fn_tagged re_liquid_tag liquid_tag_cb
           (fun s => forallb (is_other (code "<")) s = true)) with (s := s);
    auto.
  - intros a b. apply forallb_app_r.
  - apply well_tagged_no_lt.
  - clear. intros prev a m b c out Inv X F.
    split; [apply well_tagged_no_lt; now apply forallb_app_l in Inv|].
    apply forallb_app_r in Inv.
    apply exec_hit_matches in X as (p' & M).
    unfold re_liquid_tag in M. cbn [cat] in M.
    apply matches_Cat_Group_inv in M as (g1 & t1 & p1 & E1 & _ & M);
      [|reflexivity].
    apply matches_Cat_Group_inv in M as (g2 & t2 & p2 & E2 & _ & M);
      [|reflexivity].
    apply matches_Group_last_inv in M as (g3 & E3 & _ & ->); [|reflexivity].
    subst t2 t1. rewrite E1 in Inv.
    rewrite !forallb_app in Inv.
    apply andb_true_iff in Inv as [I1 Inv].
    apply andb_true_iff in Inv as [I2 Inv].
    apply andb_true_iff in Inv as [I3 _].
    unfold liquid_tag_cb in F.
    cbn [get set find fst snd Nat.eqb option_map show] in F.
    inversion F; subst out. clear F.
    repeat apply well_tagged_app;
      try reflexivity; try (now apply well_tagged_no_lt).
    apply keyword_pass_tagged; auto.
    intros g G. cbn [subst flat_map get find fst snd Nat.eqb option_map].
    rewrite app_nil_r.
    repeat apply well_tagged_app;
      try reflexivity; try (now apply well_tagged_no_lt).
Qed.

(** The filter pass, run on well-tagged text. *)
Lemma filter_pass_tagged inner :
  well_tagged inner = true ->
  well_tagged
    (replace re_filter
       [T (sq "| <span style='color:#953800;font-weight:500'>"); Ref 1;
        T (lit "</span>")] inner) = true.
Proof.
  intros I.
  eapply (replace_fn_tagged re_filter _ (fun s => well_tagged s = true))
    with (s := inner); [reflexivity| | | |exact I|symmetry; apply replace_as_fn].
  - apply well_tagged_suffix.
  - auto.
  - clear. intros prev a m b c out Inv X F. inversion F; subst out. clear F.
    apply exec_hit_matches in X as (p' & M).
    pose proof (matches_starts _ _ _ _ _ _ _ M) as S.
    starts_with S x m'. first_chars S.
    split; [cut_at Inv|].
    unfold re_filter in M. cbn [cat] in M.
    apply matches_Cat_inv in M as (p1 & s1 & c1 & M1 & M).
    apply matches_no_groups in M1 as ->; [|reflexivity].
    apply matches_Cat_inv in M as (p2 & s2 & c2 & M2 & M).
    apply matches_no_groups in M2 as ->; [|reflexivity].
    apply matches_Group_last_inv in M as (g & E & M & ->); [|reflexivity].
    pose proof (matches_avoids (code "<") _ _ _ _ _ _ _ M eq_refl g eq_refl) as G.
    cbn [subst flat_map get set find fst snd Nat.eqb option_map].
    repeat apply well_tagged_app;
      try reflexivity; try (now apply well_tagged_no_lt).
Qed.

Lemma liquid_output_tagged s out :
  well_tagged s = true ->
  liquid_output s = Returns out -> well_tagged out = true.
Proof.
  intros I H.
  apply (replace_fn_tagged re_liquid_output liquid_output_cb
           (fun s => well_tagged s = true)) with (s := s); auto.
  - apply well_tagged_suffix.
  - clear. intros prev a m b c out Inv X F.
    apply exec_hit_matches in X as (p' & M).
    pose proof (matches_starts _ _ _ _ _ _ _ M) as S.
    assert (Wa : well_tagged a = true).
    { starts_with S x m'. first_chars S. cut_at Inv. }
    split; [exact Wa|]. clear S.
    apply well_tagged_suffix in Inv.
    unfold re_liquid_output in M. cbn [cat] in M.
    apply matches_Cat_Group_inv in M as (g1 & t1 & p1 & E1 & M1 & M);
      [|reflexivity].
    apply matches_Cat_Group_inv in M as (g2 & t2 & p2 & E2 & _ & M);
      [|reflexivity].
    apply matches_Group_last_inv in M as (g3 & E3 & M3 & ->); [|reflexivity].
    subst t2 t1. rewrite E1 in Inv.
    pose proof (matches_avoids (code "<") _ _ _ _ _ _ _ M1 eq_refl g1 eq_refl) as G1.
    pose proof (matches_avoids (code "<") _ _ _ _ _ _ _ M3 eq_refl g3 eq_refl) as G3.
    apply well_tagged_suffix in Inv.
    assert (W2 : well_tagged g2 = true).
    { pose proof (matches_starts _ _ _ _ _ _ _ M3) as S.
      starts_with S y g3'. first_chars S; cut_at Inv. }
    unfold liquid_output_cb in F.
    cbn [get set find fst snd Nat.eqb option_map show] in F.
    inversion F; subst out. clear F.
    repeat apply well_tagged_app;
      try reflexivity; try (now apply well_tagged_no_lt).
    now apply filter_pass_tagged.
Qed.

(** The attribute pass, run on well-tagged text. *)
Lemma attr_pass_tagged attrs :
  well_tagged attrs = true ->
  well_tagged
    (replace re_attr
       [T (sq "<span style='color:#116329'>"); Ref 1; T (lit "</span>");
        Ref 2;
        T (sq "<span style='color:#0a3069'>"); Ref 3; Ref 4; Ref 5;
        T (lit "</span>")] attrs) = true.
Proof.
  intros I.
  eapply (replace_fn_tagged re_attr _ (fun s => well_tagged s = true))
    with (s := attrs);
    [reflexivity| | | |exact I|symmetry; apply replace_as_fn].
  - apply well_tagged_suffix.
  - auto.
  - clear. intros prev a m b c out Inv X F. inversion F; subst out. clear F.
    apply exec_hit_matches in X as (p' & M).
    unfold re_attr in M. cbn [cat] in M.
    apply matches_Cat_Group_inv in M as (g1 & t1 & p1 & E1 & M1 & M);
      [|reflexivity].
    apply matches_Cat_Group_inv in M as (g2 & t2 & p2 & E2 & M2 & M);
      [|reflexivity].
    apply matches_Cat_Group_inv in M as (g3 & t3 & p3 & E3 & M3 & M);
      [|reflexivity].
    apply matches_Cat_Group_inv in M as (g4 & t4 & p4 & E4 & _ & M);
      [|reflexivity].
    apply matches_Group_last_inv in M as (g5 & E5 & M5 & ->); [|reflexivity].
    subst t4 t3 t2 t1. rewrite E1 in Inv.
    pose proof (matches_avoids (code "<") _ _ _ _ _ _ _ M1 eq_refl g1 eq_refl) as G1.
    pose proof (matches_avoids (code " ") _ _ _ _ _ _ _ M1 eq_refl g1 eq_refl) as B1.
    pose proof (matches_avoids (code ">") _ _ _ _ _ _ _ M1 eq_refl g1 eq_refl) as C1.
    pose proof (matches_avoids (code "<") _ _ _ _ _ _ _ M2 eq_refl g2 eq_refl) as G2.
    pose proof (matches_avoids (code "<") _ _ _ _ _ _ _ M3 eq_refl g3 eq_refl) as G3.
    pose proof (matches_avoids (code "<") _ _ _ _ _ _ _ M5 eq_refl g5 eq_refl) as G5.
    assert (Wa : well_tagged a = true).
    { pose proof (matches_starts _ _ _ _ _ _ _ M2) as S.
      starts_with S y g2'. first_chars S.
      apply (well_tagged_cut a g1 61%N (g2' ++ g3 ++ g4 ++ g5 ++ b));
        [now apply no_blank_no_gt|reflexivity|exact Inv]. }
    split; [exact Wa|].
    do 4 apply well_tagged_suffix in Inv.
    assert (W4 : well_tagged g4 = true).
    { pose proof (matches_starts _ _ _ _ _ _ _ M5) as S.
      starts_with S y g5'. first_chars S; cut_at Inv. }
    cbn [subst flat_map get set find fst snd Nat.eqb option_map].
    repeat apply well_tagged_app;
      try reflexivity; try (now apply well_tagged_no_lt); try assumption.
Qed.

Lemma html_tags_tagged s out :
  well_tagged s = true ->
  html_tags s = Returns out -> well_tagged out = true.
Proof.
  intros I H.
  apply (replace_fn_tagged re_html_tag html_tag_cb
           (fun s => well_tagged s = true)) with (s := s); auto.
  - apply well_tagged_suffix.
  - clear. intros prev a m b c out Inv X F.
    apply exec_hit_matches in X as (p' & M).
    pose proof (matches_starts _ _ _ _ _ _ _ M) as S.
    assert (Wa : well_tagged a = true).
    { starts_with S x m'. first_chars S. cut_at Inv. }
    split; [exact Wa|]. clear S.
    apply well_tagged_suffix in Inv.
    unfold re_html_tag in M. cbn [cat] in M.
    apply matches_Cat_Group_inv in M as (g1 & t1 & p1 & E1 & M1 & M);
      [|reflexivity].
    apply matches_Cat_Group_inv in M as (g2 & t2 & p2 & E2 & M2 & M);
      [|reflexivity].
    apply matches_Cat_Group_inv in M as (g3 & t3 & p3 & E3 & _ & M);
      [|reflexivity].
    apply matches_Group_last_inv in M as (g4 & E4 & M4 & ->); [|reflexivity].
    subst t3 t2 t1. rewrite E1 in Inv.
    pose proof (matches_avoids (code "<") _ _ _ _ _ _ _ M1 eq_refl g1 eq_refl) as G1.
    pose proof (matches_avoids (code "<") _ _ _ _ _ _ _ M2 eq_refl g2 eq_refl) as G2.
    pose proof (matches_avoids (code "<") _ _ _ _ _ _ _ M4 eq_refl g4 eq_refl) as G4.
    do 2 apply well_tagged_suffix in Inv.
    assert (W3 : well_tagged g3 = true).
    { pose proof (matches_starts _ _ _ _ _ _ _ M4) as S.
      starts_with S y g4'. first_chars S. cut_at Inv. }
    unfold html_tag_cb in F.
    cbn [get set find fst snd Nat.eqb option_map show] in F.
    inversion F; subst out. clear F.
    repeat apply well_tagged_app;
      try reflexivity; try (now apply well_tagged_no_lt).
    now apply attr_pass_tagged.
Qed.

Lemma html_comments_tagged s :
  well_tagged s = true -> well_tagged (html_comments s) = true.
Proof.
  intros I. unfold html_comments.
  eapply (replace_fn_tagged re_comment _ (fun s => well_tagged s = true))
    with (s := s);
    [reflexivity| | | |exact I|symmetry; apply replace_as_fn].
  - apply well_tagged_suffix.
  - auto.
  - clear. intros prev a m b c out Inv X F. inversion F; subst out. clear F.
    apply exec_hit_matches in X as (p' & M).
    pose proof (matches_starts _ _ _ _ _ _ _ M) as S.
    assert (Wa : well_tagged a = true).
    { starts_with S x m'. first_chars S. cut_at Inv. }
    split; [exact Wa|]. clear S.
    apply well_tagged_suffix in Inv.
    unfold re_comment in M. cbn [cat] in M.
    apply matches_Cat_Group_inv in M as (g1 & t1 & p1 & E1 & M1 & M);
      [|reflexivity].
    apply matches_Cat_Group_inv in M as (g2 & t2 & p2 & E2 & _ & M);
      [|reflexivity].
    apply matches_Group_last_inv in M as (g3 & E3 & M3 & ->); [|reflexivity].
    subst t2 t1. rewrite E1 in Inv.
    pose proof (matches_avoids (code "<") _ _ _ _ _ _ _ M1 eq_refl g1 eq_refl) as G1.
    pose proof (matches_avoids (code "<") _ _ _ _ _ _ _ M3 eq_refl g3 eq_refl) as G3.
    apply well_tagged_suffix in Inv.
    assert (W2 : well_tagged g2 = true).
    { pose proof (matches_starts _ _ _ _ _ _ _ M3) as S.
      starts_with S y g3'. first_chars S. cut_at Inv. }
    cbn [subst flat_map get set find fst snd Nat.eqb option_map].
    repeat apply well_tagged_app;
      try reflexivity; try (now apply well_tagged_no_lt); try assumption.
Qed.

(** The escaped line has no [<] and no [>]. *)
Lemma escape_no_angle raw :
  forallb (fun x => is_other (code "<") x && is_other (code ">") x) (escape raw)
  = true.
Proof.
  rewrite escape_flat_map. induction raw as [|x raw IH]; [reflexivity|].
  cbn [flat_map]. rewrite forallb_app, IH, andb_true_r.
  unfold escape_char.
  destruct (N.eqb_spec x (code "&")); [reflexivity|].
  destruct (N.eqb_spec x (code "<")) as [|N1]; [reflexivity|].
  destruct (N.eqb_spec x (code ">")) as [|N2]; [reflexivity|].
  cbn [forallb]. unfold is_other.
  apply N.eqb_neq in N1, N2. now rewrite N1, N2.
Qed.

(** After the four structural passes every [<] of the text begins
    [<span ] or [</span>]. *)
Lemma structural_tagged raw s :
  structural (escape raw) = Returns s -> well_tagged s = true.
Proof.
  unfold structural. intros H.
  destruct (liquid_tags (escape raw)) as [s1|] eqn:E1; [|discriminate].
  cbn [bind] in H.
  destruct (liquid_output s1) as [s2|] eqn:E2; [|discriminate].
  cbn [bind] in H.
  destruct (html_tags s2) as [s3|] eqn:E3; [|discriminate].
  cbn [bind] in H. inversion H; subst s.
  apply html_comments_tagged.
  apply (html_tags_tagged s2); [|exact E3].
  apply (liquid_output_tagged s1); [|exact E2].
  apply (liquid_tags_tagged (escape raw)); [|exact E1].
  generalize (escape_no_angle raw). apply forallb_weaken.
  intros x Hx. now apply andb_true_iff in Hx.
Qed.

(** *** The mask table *)

(** The texts of the matches among the pieces, in order. *)
Lemma mask_pieces_tags ps : forall tags out tags',
  mask_pieces ps tags = (out, tags') ->
  forall e, In e tags' -> In e tags \/ exists c, In (Hit e c) ps.
Proof.
  induction ps as [|[x|m c] ps IH]; intros tags out tags' H e I.
  - inversion H; subst. auto.
  - cbn [mask_pieces] in H.
    destruct (mask_pieces ps tags) as [o t] eqn:E. inversion H; subst.
    destruct (IH _ _ _ E e I) as [?|[c ?]]; [auto|].
    right. exists c. now right.
  - cbn [mask_pieces] in H.
    destruct (mask_pieces ps (tags ++ [m])) as [o t] eqn:E. inversion H; subst.
    destruct (IH _ _ _ E e I) as [J|[c' J]].
    + apply in_app_or in J as [J|[<-|[]]]; [auto|].
      right. exists c. now left.
    + right. exists c'. now right.
Qed.




(* ------------------------------------------------------------------ *)
(** ** The first choice of the matcher *)

Lemma run_none_first (A : Type) r prev s c (k : cont A) :
  nullable r = false ->
  match s with [] => True | x :: _ => first r x = false end ->
  run r prev s c k = None.
Proof.
  intros N F. destruct (run r prev s c k) as [a|] eqn:E; [|reflexivity].
  exfalso. apply run_sound in E as (p' & s' & c' & M & _).
  destruct (matches_first _ _ _ _ _ _ _ M) as [E|(x & t & E & Fx)].
  - now apply (matches_nonempty _ _ _ _ _ _ _ M).
  - rewrite E in F. congruence.
Qed.

Lemma exec_of_reads r prev m rest c :
  reads r prev m rest [] c -> exec r prev (m ++ rest) = Some (length m, c).
Proof.
  intros R. unfold exec. apply R. f_equal. f_equal.
  rewrite length_app. lia.
Qed.

Lemma reads_Empty prev rest c : reads Empty prev [] rest c c.
Proof. intros A k a K. exact K. Qed.

Lemma reads_Class p x prev rest c :
  p x = true -> reads (Class p) prev [x] rest c c.
Proof. intros H A k a K. cbn [app run]. now rewrite H. Qed.

Lemma reads_Chr x prev rest c : reads (Chr x) prev [x] rest c c.
Proof. apply reads_Class. apply N.eqb_refl. Qed.

Lemma reads_Cat r1 r2 prev m1 m2 rest c c1 c2 :
  reads r1 prev m1 (m2 ++ rest) c c1 ->
  reads r2 (prev_after prev m1) m2 rest c1 c2 ->
  reads (Cat r1 r2) prev (m1 ++ m2) rest c c2.
Proof.
  intros R1 R2 A k a K. rewrite <- app_assoc. cbn [run].
  apply R1. apply R2. now rewrite <- prev_after_app.
Qed.

Lemma reads_Str l : forall prev rest c, reads (Str l) prev l rest c c.
Proof.
  induction l as [|x l IH]; intros prev rest c.
  - apply reads_Empty.
  - change (x :: l) with ([x] ++ l). cbn [Str].
    apply reads_Cat with (c1 := c); [apply reads_Chr|apply IH].
Qed.

Lemma reads_Group n r prev m rest c c' :
  reads r prev m rest c c' -> reads (Group n r) prev m rest c (set n m c').
Proof.
  intros R A k a K. cbn [run]. apply R. now rewrite consumed_app.
Qed.

Lemma reads_Rep_greedy p m prev rest c :
  forallb p m = true ->
  match rest with [] => True | x :: _ => p x = false end ->
  reads (Rep true p) prev m rest c c.
Proof.
  intros F H A k a K. cbn [run]. apply rep_greedy_all; [exact F|].
  destruct rest as [|x rest]; [exact K|]. cbn [rep]. now rewrite H.
Qed.

(** The optional part is absent when it cannot begin here. *)
Lemma reads_Opt_skip r prev rest c :
  nullable r = false ->
  match rest with [] => True | x :: _ => first r x = false end ->
  reads (Opt r) prev [] rest c c.
Proof.
  intros N F A k a K. cbn [app Opt run].
  now rewrite run_none_first.
Qed.

Lemma reads_Or_l r1 r2 prev m rest c c' :
  reads r1 prev m rest c c' -> reads (Or r1 r2) prev m rest c c'.
Proof. intros R A k a K. cbn [run]. now rewrite (R A k a K). Qed.

Lemma reads_Or_r r1 r2 prev m rest c c' :
  nullable r1 = false ->
  match m ++ rest with [] => True | x :: _ => first r1 x = false end ->
  reads r2 prev m rest c c' -> reads (Or r1 r2) prev m rest c c'.
Proof.
  intros N F R A k a K. cbn [run]. rewrite run_none_first by assumption.
  now apply R.
Qed.

Lemma reads_WordBoundary prev rest c :
  xorb (word_before prev) (word_after rest) = true ->
  reads WordBoundary prev [] rest c c.
Proof. intros H A k a K. cbn [app run]. now rewrite H. Qed.

(** A lazy repetition in a group stops at the first position where the rest
    of the pattern can go on; it reads [m] when the rest of the pattern
    cannot begin at any character of [m]. *)
Lemma rep_lazy_skip (A : Type) p m : forall prev rest c (k : cont A),
  forallb p m = true ->
  (forall a x b c0, m = a ++ x :: b ->
     k (prev_after prev a) (x :: b ++ rest) c0 = None) ->
  rep false p prev (m ++ rest) c k = rep false p (prev_after prev m) rest c k.
Proof.
  induction m as [|x m IH]; intros prev rest c k F H; [reflexivity|].
  cbn [forallb] in F. apply andb_true_iff in F as [Fx F].
  pose proof (H [] x m c eq_refl) as H0. cbn [prev_after fold_left] in H0.
  cbn [app rep]. rewrite Fx, H0.
  apply IH; [exact F|]. intros a y b c0 ->. apply (H (x :: a) y b c0 eq_refl).
Qed.

Lemma rep_lazy_stop (A : Type) p prev s c (k : cont A) a :
  k prev s c = Some a -> rep false p prev s c k = Some a.
Proof.
  intros K. destruct s as [|x s]; cbn [rep]; [exact K|].
  destruct (p x); [now rewrite K|exact K].
Qed.

Lemma reads_lazy_then n p r2 prev m m2 rest c c2 :
  forallb p m = true ->
  nullable r2 = false ->
  forallb (fun x => negb (first r2 x)) m = true ->
  reads r2 (prev_after prev m) m2 rest (set n m c) c2 ->
  reads (Cat (Group n (Rep false p)) r2) prev (m ++ m2) rest c c2.
Proof.
  intros F N NF R A k a K. rewrite <- app_assoc. cbn [run].
  rewrite rep_lazy_skip; [|exact F|].
  - apply rep_lazy_stop. rewrite consumed_app. apply R.
    now rewrite <- prev_after_app.
  - intros a0 x b c0 ->. apply run_none_first; [exact N|].
    apply forallb_app_r in NF. cbn [forallb] in NF.
    apply andb_true_iff in NF as [NF _]. now apply negb_true_iff.
Qed.

(* ------------------------------------------------------------------ *)
(** ** Matches of single patterns *)

(** [<] ... [>] with no [>] in between is a match of the masking pattern. *)
Lemma exec_tag prev body rest :
  forallb (is_other (code ">")) body = true ->
  exec re_tag prev (([code "<"] ++ body ++ [code ">"]) ++ rest)
  = Some (length ([code "<"] ++ body ++ [code ">"]), []).
Proof.
  intros F. apply exec_of_reads. unfold re_tag. cbn [cat].
  apply reads_Cat with (c1 := []); [apply reads_Chr|].
  apply reads_Cat with (c1 := []); [|apply reads_Chr].
  apply reads_Rep_greedy; [exact F|reflexivity].
Qed.

(** A quoted text without a quote inside is a match of the string
    pattern. *)
Lemma exec_string prev body rest :
  forallb (is_other dq) body = true ->
  exec re_string prev (([dq] ++ body ++ [dq]) ++ rest)
  = Some (length ([dq] ++ body ++ [dq]), [(1, body)]).
Proof.
  intros F. apply exec_of_reads. unfold re_string. cbn [cat].
  apply reads_Cat with (c1 := []); [apply reads_Chr|].
  apply reads_Cat with (c1 := [(1, body)]); [|apply reads_Chr].
  apply (reads_Group 1). apply reads_Rep_greedy; [exact F|].
  cbn [app]. unfold is_other. now rewrite N.eqb_refl.
Qed.

(** A placeholder is a match of the placeholder pattern. *)
Lemma exec_placeholder prev ds rest :
  ds <> [] -> forallb is_digit ds = true ->
  exec re_placeholder prev ((lit "__HL_TAG_" ++ ds ++ lit "__") ++ rest)
  = Some (length (lit "__HL_TAG_" ++ ds ++ lit "__"), [(1, ds)]).
Proof.
  intros N F. apply exec_of_reads. unfold re_placeholder. cbn [cat].
  apply reads_Cat with (c1 := []); [apply reads_Str|].
  apply reads_Cat with (c1 := [(1, ds)]); [|apply reads_Str].
  apply (reads_Group 1). destruct ds as [|x ds]; [congruence|].
  cbn [forallb] in F. apply andb_true_iff in F as [Fx F].
  change (x :: ds) with ([x] ++ ds). unfold Plus.
  apply reads_Cat with (c1 := []); [now apply reads_Class|].
  apply reads_Rep_greedy; [exact F|reflexivity].
Qed.

(** Digits between two characters that are neither word characters nor
    dots are a match of the number pattern. *)
Lemma exec_number prev d rest :
  d <> [] -> forallb is_digit d = true ->
  word_before prev = false ->
  match rest with
  | [] => True
  | x :: _ => is_word x = false /\ is_chr (code ".") x = false
  end ->
  exec re_number prev (d ++ rest) = Some (length d, [(1, d)]).
Proof.
  intros N F P R.
  assert (Rd : match rest with [] => True | x :: _ => is_digit x = false end).
  { destruct rest as [|x rest]; [exact I|]. destruct R as [R _].
    destruct (is_digit x) eqn:D; [|reflexivity].
    apply digit_is_word in D. congruence. }
  assert (Rw : word_after rest = false).
  { destruct rest as [|x rest]; [reflexivity|]. now destruct R. }
  apply exec_of_reads. unfold re_number. cbn [cat].
  destruct d as [|x d]; [congruence|].
  pose proof F as F'. cbn [forallb] in F'. apply andb_true_iff in F' as [Fx Fd].
  replace (x :: d) with ([] ++ (x :: d) ++ []) at 1
    by (cbn [app]; now rewrite app_nil_r).
  apply reads_Cat with (c1 := []).
  { apply reads_WordBoundary. cbn [app word_after].
    now rewrite P, (digit_is_word _ Fx). }
  cbn [prev_after fold_left].
  apply reads_Cat with (c1 := [(1, x :: d)]).
  2:{ apply reads_WordBoundary. rewrite Rw.
      rewrite word_before_after;
        [reflexivity|discriminate|now apply forallb_digit_word]. }
  apply (reads_Group 1).
  replace (x :: d) with (([x] ++ d) ++ [] ++ []) by (cbn; now rewrite app_nil_r).
  apply reads_Cat with (c1 := []).
  { unfold Plus. apply reads_Cat with (c1 := []); [now apply reads_Class|].
    apply reads_Rep_greedy; [exact Fd|]. cbn [app]. exact Rd. }
  apply reads_Cat with (c1 := []).
  { apply reads_Opt_skip; [reflexivity|]. cbn [app].
    destruct rest as [|y rest]; [exact I|]. now destruct R. }
  apply reads_Rep_greedy; [reflexivity|exact Rd].
Qed.

Lemma scan_no_match_in r xs : forall prev rest,
  no_match_in r prev xs rest = true ->
  scan r prev (xs ++ rest) 0 = map Plain xs ++ scan r (prev_after prev xs) rest 0.
Proof.
  induction xs as [|x xs IH]; intros prev rest H; [reflexivity|].
  cbn [no_match_in] in H.
  destruct (exec r prev ((x :: xs) ++ rest)) eqn:E; [discriminate|].
  cbn [app scan] in *. rewrite E. cbn [map app]. f_equal. now apply IH.
Qed.

Lemma exec_tag_lit prev t rest :
  is_tag t = true -> exec re_tag prev (t ++ rest) = Some (length t, []).
Proof.
  unfold is_tag. destruct t as [|x t]; [discriminate|]. intros H.
  apply andb_true_iff in H as [Hx H]. apply N.eqb_eq in Hx. subst x.
  destruct (rev t) as [|y b] eqn:R; [discriminate|].
  apply andb_true_iff in H as [Hy F]. apply N.eqb_eq in Hy. subst y.
  assert (E : t = rev b ++ [code ">"]).
  { rewrite <- (rev_involutive t), R. reflexivity. }
  subst t. apply (exec_tag prev (rev b) rest).
  rewrite forallb_forall in *. intros z Hz. apply F. now apply in_rev.
Qed.

Lemma mask_pieces_eq ps : forall tags,
  mask_pieces ps tags = (masked_text ps (length tags), tags ++ hit_texts ps).
Proof.
  induction ps as [|[x|m c] ps IH]; intros tags; cbn [mask_pieces masked_text hit_texts].
  - now rewrite app_nil_r.
  - now rewrite IH.
  - rewrite IH, length_app, <- app_assoc. cbn [length app].
    now rewrite Nat.add_1_r.
Qed.

Lemma masked_text_plain_app a ps n :
  masked_text (map Plain a ++ ps) n = a ++ masked_text ps n.
Proof. induction a as [|x a IH]; [reflexivity|]. cbn. now rewrite IH. Qed.

Lemma hit_texts_plain_app a ps : hit_texts (map Plain a ++ ps) = hit_texts ps.
Proof. induction a as [|x a IH]; [reflexivity|]. exact IH. Qed.

Lemma scan_one_none r prev x rest :
  exec r prev ([x] ++ rest) = None ->
  scan r prev ([x] ++ rest) 0 = map Plain [x] ++ scan r (Some x) rest 0.
Proof. intros E. cbn [app scan map] in *. now rewrite E. Qed.

Lemma app_until_unique y : forall a b r1 r2,
  forallb (is_other y) a = true -> forallb (is_other y) b = true ->
  a ++ y :: r1 = b ++ y :: r2 -> a = b /\ r1 = r2.
Proof.
  induction a as [|x a IH]; intros [|z b] r1 r2 Fa Fb E; cbn [app forallb] in *.
  - inversion E. auto.
  - inversion E; subst z. apply andb_true_iff in Fb as [Fb _].
    unfold is_other in Fb. now rewrite N.eqb_refl in Fb.
  - inversion E; subst x. apply andb_true_iff in Fa as [Fa _].
    unfold is_other in Fa. now rewrite N.eqb_refl in Fa.
  - inversion E; subst z.
    apply andb_true_iff in Fa as [_ Fa], Fb as [_ Fb].
    destruct (IH b r1 r2 Fa Fb H1) as [-> ->]. auto.
Qed.

(** A quoted run of digits that is not followed by blanks and a colon is
    not a key. *)
Lemma exec_json_key_digits prev d y rest :
  forallb is_digit d = true ->
  is_space y = false -> is_chr (code ":") y = false ->
  exec re_json_key prev ([dq] ++ d ++ [dq] ++ y :: rest) = None.
Proof.
  intros D Sy Cy. apply exec_none_matches. intros p' s' c' M.
  unfold re_json_key in M. cbn [cat] in M.
  apply matches_Cat_inv in M as (p1 & s1 & c1 & M1 & M).
  apply matches_Class_inv in M1 as (x & E1 & Hx & -> & ->).
  apply matches_Cat_Group_inv in M as (g & t1 & p2 & E2 & Mg & M);
    [|reflexivity].
  pose proof (matches_avoids dq _ _ _ _ _ _ _ Mg eq_refl g eq_refl) as G.
  apply matches_Cat_inv in M as (p3 & s3 & c3 & M3 & M).
  apply matches_Class_inv in M3 as (x3 & E3 & Hx3 & -> & ->).
  apply matches_Cat_inv in M as (p4 & s4 & c4 & M4 & M).
  apply matches_Rep_inv in M4 as (ws & E4 & Fw & -> & ->).
  apply matches_Class_inv in M as (x5 & E5 & Hx5 & _ & _).
  unfold is_chr in Hx3. apply N.eqb_eq in Hx3. subst x3.
  cbn [app] in E1. inversion E1 as [[Ex Es]]. subst s1 t1 s3 s4.
  apply app_until_unique in Es as [_ Es]; [| |exact G].
  2:{ revert D. apply forallb_weaken. unfold is_other, dq.
      intros z Hz. not_a_digit Hz. }
  destruct ws as [|w ws]; cbn [app] in Es; inversion Es; subst.
  - congruence.
  - cbn [forallb] in Fw. apply andb_true_iff in Fw as [Fw _]. congruence.
Qed.

(* ------------------------------------------------------------------ *)
(** ** A numeral in an attribute value: [<img width="N">] *)

Lemma digit_is_dot x : is_digit x = true -> is_dot x = true.
Proof.
  intros H. unfold is_dot, is_line_terminator. not_a_digit H.
Qed.

Lemma forallb_digit_dot d : forallb is_digit d = true -> forallb is_dot d = true.
Proof. apply forallb_weaken. exact digit_is_dot. Qed.

Lemma render_plain_app (f : piece -> str) a ps :
  (forall x, f (Plain x) = [x]) ->
  flat_map f (map Plain a ++ ps) = a ++ flat_map f ps.
Proof.
  intros H. rewrite flat_map_app. f_equal. now apply flat_map_plain.
Qed.

(** Proves an equation between two groupings of the same text. *)
Ltac same_text := repeat rewrite <- app_assoc; reflexivity.

Section ImgWidth.
Variable d : str.
Hypothesis d_not_empty : d <> [].
Hypothesis d_digits : forallb is_digit d = true.

(** The attribute pass on [ width="N"]. *)
Lemma img_width_attr :
  replace re_attr
    [T (sq "<span style='color:#116329'>"); Ref 1; T (lit "</span>"); Ref 2;
     T (sq "<span style='color:#0a3069'>"); Ref 3; Ref 4; Ref 5;
     T (lit "</span>")]
    (sq " width='" ++ d ++ sq "'")
  = lit " " ++ span attr_name_style (lit "width") ++ lit "="
    ++ span attr_value_style ([dq] ++ d ++ [dq]).
Proof.
  unfold replace, pieces.
  change (sq " width='" ++ d ++ sq "'")
    with (lit " " ++ lit "width" ++ lit "=" ++ [dq] ++ d ++ [dq]).
  rewrite scan_no_first by reflexivity.
  replace (lit "width" ++ lit "=" ++ [dq] ++ d ++ [dq])
    with ((lit "width" ++ lit "=" ++ [dq] ++ d ++ [dq]) ++ [])
    by apply app_nil_r.
  rewrite scan_hit
    with (c := [(5, [dq]); (4, d); (3, [dq]); (2, lit "="); (1, lit "width")]).
  - rewrite scan_nil by reflexivity.
    rewrite render_plain_app by reflexivity.
    cbn [flat_map subst get find fst snd Nat.eqb option_map].
    unfold span, attr_name_style, attr_value_style.
    rewrite !app_nil_r. same_text.
  - discriminate.
  - apply exec_of_reads. unfold re_attr. cbn [cat].
    apply reads_Cat with (c1 := [(1, lit "width")]).
    { apply (reads_Group 1). unfold Plus.
      change (lit "width") with ([code "w"] ++ lit "idth").
      apply reads_Cat with (c1 := []); [now apply reads_Class|].
      now apply reads_Rep_greedy. }
    apply reads_Cat with (c1 := [(2, lit "="); (1, lit "width")]).
    { apply (reads_Group 2). apply reads_Chr. }
    apply reads_Cat with (c1 := [(3, [dq]); (2, lit "="); (1, lit "width")]).
    { apply (reads_Group 3). apply reads_Or_r; [reflexivity|reflexivity|].
      apply reads_Chr. }
    apply reads_lazy_then.
    + now apply forallb_digit_dot.
    + reflexivity.
    + revert d_digits. apply forallb_weaken. no_digit_first.
    + apply (reads_Group 5). apply reads_Or_r; [reflexivity|reflexivity|].
      apply reads_Chr.
Qed.

(** The tag pass on the escaped line. *)
Lemma img_width_html_tags :
  html_tags (sq "&lt;img width='" ++ d ++ sq "'&gt;")
  = Returns
      (span bracket_style (lit "&lt;") ++ span tag_name_style (lit "img")
       ++ lit " " ++ span attr_name_style (lit "width") ++ lit "="
       ++ span attr_value_style ([dq] ++ d ++ [dq])
       ++ span bracket_style (lit "&gt;")).
Proof.
  unfold html_tags, replace_fn, pieces.
  replace (sq "&lt;img width='" ++ d ++ sq "'&gt;")
    with ((lit "&lt;" ++ lit "img" ++ (sq " width='" ++ d ++ sq "'")
           ++ lit "&gt;") ++ [])
    by (rewrite app_nil_r; same_text).
  rewrite scan_hit
    with (c := [(4, lit "&gt;"); (3, sq " width='" ++ d ++ sq "'");
                (2, lit "img"); (1, lit "&lt;")]).
  - rewrite scan_nil by reflexivity. cbn [replace_pieces].
    unfold html_tag_cb.
    cbn [get find fst snd Nat.eqb option_map show bind].
    rewrite img_width_attr. unfold span, bracket_style, tag_name_style.
    rewrite !app_nil_r. apply f_equal. same_text.
  - discriminate.
  - apply exec_of_reads. unfold re_html_tag. cbn [cat].
    apply reads_Cat with (c1 := [(1, lit "&lt;")]).
    { apply (reads_Group 1).
      change (lit "&lt;") with (lit "&lt;" ++ []).
      apply reads_Cat with (c1 := []); [apply reads_Str|].
      now apply reads_Opt_skip. }
    apply reads_Cat with (c1 := [(2, lit "img"); (1, lit "&lt;")]).
    { apply (reads_Group 2). unfold Plus.
      change (lit "img") with ([code "i"] ++ lit "mg").
      eapply reads_Cat; [now apply reads_Class|].
      now apply reads_Rep_greedy. }
    apply reads_lazy_then.
    + rewrite !forallb_app, (forallb_digit_dot _ d_digits). reflexivity.
    + reflexivity.
    + rewrite !forallb_app. apply andb_true_iff. split; [reflexivity|].
      apply andb_true_iff. split; [|reflexivity].
      revert d_digits. apply forallb_weaken. no_digit_first.
    + apply (reads_Group 4). apply reads_Str.
Qed.

(** The line after the structural passes, in two groupings. *)
Lemma img_width_structural :
  structural (escape (sq "<img width='" ++ d ++ sq "'>"))
  = Returns
      (sq "<span style='color:#6e7781'>&lt;</span><span style='color:#0550ae'>img</span> <span style='color:#116329'>width</span>=<span style='color:#0a3069'>'"
       ++ d ++ sq "'</span><span style='color:#6e7781'>&gt;</span>").
Proof.
  rewrite !escape_app, (escape_digits _ d_digits).
  change (escape (sq "<img width='")) with (sq "&lt;img width='").
  change (escape (sq "'>")) with (sq "'&gt;").
  assert (NF : forall r,
    nullable r = false ->
    (forall x, is_digit x = true -> negb (first r x) = true) ->
    forallb (fun x => negb (first r x)) (sq "&lt;img width='") = true ->
    forallb (fun x => negb (first r x)) (sq "'&gt;") = true ->
    pieces r (sq "&lt;img width='" ++ d ++ sq "'&gt;")
    = map Plain (sq "&lt;img width='" ++ d ++ sq "'&gt;")).
  { intros r N D F1 F2. apply pieces_no_first; [exact N|].
    rewrite !forallb_app, F1, F2, andb_true_r. cbn [andb].
    revert d_digits. now apply forallb_weaken. }
  unfold structural, liquid_tags, liquid_output.
  rewrite replace_fn_no_hit
    by (apply NF; [reflexivity|no_digit_first|reflexivity|reflexivity]).
  cbn [bind].
  rewrite replace_fn_no_hit
    by (apply NF; [reflexivity|no_digit_first|reflexivity|reflexivity]).
  cbn [bind]. rewrite img_width_html_tags. cbn [bind]. f_equal.
  unfold span, bracket_style, tag_name_style, attr_name_style, attr_value_style.
  match goal with |- html_comments ?s = ?t =>
    replace s with t by same_text
  end.
  unfold html_comments. apply replace_no_hit. unfold pieces.
  rewrite <- (app_nil_r (sq "'</span><span style='color:#6e7781'>&gt;</span>")).
  rewrite scan_no_match_in by reflexivity.
  rewrite scan_no_first
    by (try reflexivity; revert d_digits; apply forallb_weaken; no_digit_first).
  rewrite scan_no_match_in by reflexivity.
  rewrite scan_nil by reflexivity.
  rewrite app_nil_r, <- !map_app. reflexivity.
Qed.

(** The masking pass: ten tags go to the table, the quoted value stays. *)
Lemma img_width_mask :
  mask
    (sq "<span style='color:#6e7781'>&lt;</span><span style='color:#0550ae'>img</span> <span style='color:#116329'>width</span>=<span style='color:#0a3069'>'"
     ++ d ++ sq "'</span><span style='color:#6e7781'>&gt;</span>")
  = (sq "__HL_TAG_0__&lt;__HL_TAG_1____HL_TAG_2__img__HL_TAG_3__ __HL_TAG_4__width__HL_TAG_5__=__HL_TAG_6__'"
     ++ d ++ sq "'__HL_TAG_7____HL_TAG_8__&gt;__HL_TAG_9__",
     [sq "<span style='color:#6e7781'>"; lit "</span>";
      sq "<span style='color:#0550ae'>"; lit "</span>";
      sq "<span style='color:#116329'>"; lit "</span>";
      sq "<span style='color:#0a3069'>"; lit "</span>";
      sq "<span style='color:#6e7781'>"; lit "</span>"]).
Proof.
  unfold mask. rewrite mask_pieces_eq. unfold pieces.
  match goal with |- context [scan _ _ ?s _] =>
    replace s with
      (sq "<span style='color:#6e7781'>" ++ lit "&lt;" ++ lit "</span>"
       ++ sq "<span style='color:#0550ae'>" ++ lit "img" ++ lit "</span>"
       ++ lit " "
       ++ sq "<span style='color:#116329'>" ++ lit "width" ++ lit "</span>"
       ++ lit "="
       ++ sq "<span style='color:#0a3069'>" ++ [dq] ++ d ++ [dq] ++ lit "</span>"
       ++ sq "<span style='color:#6e7781'>" ++ lit "&gt;" ++ lit "</span>" ++ [])
      by (rewrite app_nil_r; same_text)
  end.
  repeat first
    [ rewrite (scan_hit re_tag) with (c := [])
        by (first [discriminate|apply exec_tag_lit; reflexivity])
    | rewrite scan_no_match_in by reflexivity
    | rewrite scan_no_first
        by (try reflexivity; revert d_digits; apply forallb_weaken;
            no_digit_first) ].
  rewrite scan_nil by reflexivity.
  repeat (cbn [masked_text hit_texts app];
          rewrite ?masked_text_plain_app, ?hit_texts_plain_app).
  reflexivity.
Qed.

Lemma d_no_first r :
  (forall x, is_digit x = true -> negb (first r x) = true) ->
  forallb (fun x => negb (first r x)) d = true.
Proof. intros H. revert d_digits. now apply forallb_weaken. Qed.

(** The content passes: the quoted value is wrapped by the string pass and
    the numeral by the number pass. *)
Lemma img_width_content :
  content
    (sq "__HL_TAG_0__&lt;__HL_TAG_1____HL_TAG_2__img__HL_TAG_3__ __HL_TAG_4__width__HL_TAG_5__=__HL_TAG_6__'"
     ++ d ++ sq "'__HL_TAG_7____HL_TAG_8__&gt;__HL_TAG_9__")
  = sq "__HL_TAG_0__&lt;__HL_TAG_1____HL_TAG_2__img__HL_TAG_3__ __HL_TAG_4__width__HL_TAG_5__=__HL_TAG_6__<span style='color:#0a3069'>'<span style='color:#0550ae'>"
    ++ d
    ++ sq "</span>'</span>__HL_TAG_7____HL_TAG_8__&gt;__HL_TAG_9__".
Proof.
  pose (M1 := lit "__HL_TAG_0__&lt;__HL_TAG_1____HL_TAG_2__img__HL_TAG_3__ __HL_TAG_4__width__HL_TAG_5__=__HL_TAG_6__").
  pose (M2 := lit "__HL_TAG_7____HL_TAG_8__&gt;__HL_TAG_9__").
  unfold content.
  (* keys *)
  assert (K : json_keys (M1 ++ [dq] ++ d ++ [dq] ++ M2)
              = M1 ++ [dq] ++ d ++ [dq] ++ M2).
  { apply replace_no_hit. unfold pieces.
    rewrite scan_no_match_in by reflexivity.
    rewrite scan_one_none
      by (apply exec_json_key_digits; [exact d_digits|reflexivity|reflexivity]).
    rewrite scan_no_first by (try reflexivity; apply d_no_first; no_digit_first).
    rewrite <- (app_nil_r M2).
    rewrite scan_no_match_in by reflexivity.
    rewrite scan_no_match_in by reflexivity.
    rewrite scan_nil by reflexivity.
    rewrite !app_nil_r, <- !map_app. reflexivity. }
  change (sq "__HL_TAG_0__&lt;__HL_TAG_1____HL_TAG_2__img__HL_TAG_3__ __HL_TAG_4__width__HL_TAG_5__=__HL_TAG_6__'" ++ d ++ sq "'__HL_TAG_7____HL_TAG_8__&gt;__HL_TAG_9__")
    with (M1 ++ [dq] ++ d ++ [dq] ++ M2).
  rewrite K.
  (* strings *)
  assert (S : strings (M1 ++ [dq] ++ d ++ [dq] ++ M2)
              = (M1 ++ sq "<span style='color:#0a3069'>'") ++ d
                ++ [dq] ++ lit "</span>" ++ M2).
  { unfold strings, replace, pieces.
    rewrite scan_no_match_in by reflexivity.
    replace ([dq] ++ d ++ [dq] ++ M2) with (([dq] ++ d ++ [dq]) ++ M2 ++ [])
      by (rewrite app_nil_r; same_text).
    rewrite scan_hit with (c := [(1, d)]);
      [|discriminate|apply exec_string].
    2:{ revert d_digits. apply forallb_weaken. unfold is_other, dq.
        intros z Hz. not_a_digit Hz. }
    rewrite scan_no_match_in by reflexivity.
    rewrite scan_nil by reflexivity.
    rewrite render_plain_app by reflexivity.
    cbn [flat_map subst get find fst snd Nat.eqb option_map].
    rewrite render_plain_app by reflexivity.
    cbn [flat_map]. rewrite !app_nil_r. same_text. }
  rewrite S.
  (* numbers *)
  assert (N : numbers ((M1 ++ sq "<span style='color:#0a3069'>'") ++ d
                       ++ [dq] ++ lit "</span>" ++ M2)
              = (M1 ++ sq "<span style='color:#0a3069'>'<span style='color:#0550ae'>")
                ++ d ++ [code "<"] ++ lit "/span>" ++ [dq] ++ lit "</span>" ++ M2).
  { unfold numbers, replace, pieces.
    rewrite scan_no_match_in by reflexivity.
    rewrite scan_hit with (c := [(1, d)]);
      [|exact d_not_empty
       |apply exec_number;
          [exact d_not_empty|exact d_digits|reflexivity|split; reflexivity]].
    rewrite scan_no_first by reflexivity.
    rewrite <- (app_nil_r M2), app_assoc.
    rewrite scan_no_match_in by reflexivity.
    rewrite scan_nil by reflexivity.
    rewrite render_plain_app by reflexivity.
    cbn [flat_map subst get find fst snd Nat.eqb option_map].
    rewrite render_plain_app by reflexivity.
    rewrite render_plain_app by reflexivity.
    cbn [flat_map]. rewrite !app_nil_r. same_text. }
  rewrite N.
  (* booleans *)
  unfold booleans.
  rewrite replace_no_hit; [same_text|].
  unfold pieces.
  rewrite scan_no_match_in by reflexivity.
  rewrite scan_no_first by (try reflexivity; apply d_no_first; no_digit_first).
  rewrite scan_no_first by reflexivity.
  replace (lit "/span>" ++ [dq] ++ lit "</span>" ++ M2)
    with ((lit "/span>" ++ [dq] ++ lit "</span>" ++ M2) ++ [])
    by apply app_nil_r.
  rewrite scan_no_match_in by reflexivity.
  rewrite scan_nil by reflexivity.
  rewrite !app_nil_r, <- !map_app. reflexivity.
Qed.

(** The unmask pass puts the ten tags back. *)
Lemma img_width_unmask :
  unmask
    [sq "<span style='color:#6e7781'>"; lit "</span>";
     sq "<span style='color:#0550ae'>"; lit "</span>";
     sq "<span style='color:#116329'>"; lit "</span>";
     sq "<span style='color:#0a3069'>"; lit "</span>";
     sq "<span style='color:#6e7781'>"; lit "</span>"]
    (sq "__HL_TAG_0__&lt;__HL_TAG_1____HL_TAG_2__img__HL_TAG_3__ __HL_TAG_4__width__HL_TAG_5__=__HL_TAG_6__<span style='color:#0a3069'>'<span style='color:#0550ae'>"
     ++ d
     ++ sq "</span>'</span>__HL_TAG_7____HL_TAG_8__&gt;__HL_TAG_9__")
  = span bracket_style (lit "&lt;") ++ span tag_name_style (lit "img")
    ++ lit " " ++ span attr_name_style (lit "width") ++ lit "="
    ++ span attr_value_style
         (span string_style ([dq] ++ span number_style d ++ [dq]))
    ++ span bracket_style (lit "&gt;").
Proof.
  unfold unmask, pieces.
  match goal with |- context [scan _ _ ?s _] =>
    replace s with
      ((lit "__HL_TAG_" ++ lit "0" ++ lit "__") ++ lit "&lt;"
       ++ (lit "__HL_TAG_" ++ lit "1" ++ lit "__")
       ++ (lit "__HL_TAG_" ++ lit "2" ++ lit "__") ++ lit "img"
       ++ (lit "__HL_TAG_" ++ lit "3" ++ lit "__") ++ lit " "
       ++ (lit "__HL_TAG_" ++ lit "4" ++ lit "__") ++ lit "width"
       ++ (lit "__HL_TAG_" ++ lit "5" ++ lit "__") ++ lit "="
       ++ (lit "__HL_TAG_" ++ lit "6" ++ lit "__")
       ++ sq "<span style='color:#0a3069'>'<span style='color:#0550ae'>"
       ++ d ++ sq "</span>'</span>"
       ++ (lit "__HL_TAG_" ++ lit "7" ++ lit "__")
       ++ (lit "__HL_TAG_" ++ lit "8" ++ lit "__") ++ lit "&gt;"
       ++ (lit "__HL_TAG_" ++ lit "9" ++ lit "__") ++ [])
      by (rewrite app_nil_r; same_text)
  end.
  repeat first
    [ erewrite (scan_hit re_placeholder)
        by (first [discriminate
                  |apply exec_placeholder; [discriminate|reflexivity]])
    | rewrite scan_no_match_in by reflexivity
    | rewrite scan_no_first
        by (try reflexivity; apply d_no_first; no_digit_first) ].
  rewrite scan_nil by reflexivity.
  repeat first
    [ rewrite render_plain_app by reflexivity
    | progress cbn [flat_map] ].
  unfold span, bracket_style, tag_name_style, attr_name_style,
    attr_value_style, string_style, number_style.
  rewrite !app_nil_r. same_text.
Qed.

(** The whole function on [<img width="N">]. *)
Lemma img_width_highlightLine :
  highlightLine (sq "<img width='" ++ d ++ sq "'>")
  = Returns
      (span bracket_style (lit "&lt;") ++ span tag_name_style (lit "img")
       ++ lit " " ++ span attr_name_style (lit "width") ++ lit "="
       ++ span attr_value_style
            (span string_style ([dq] ++ span number_style d ++ [dq]))
       ++ span bracket_style (lit "&gt;")).
Proof.
  unfold highlightLine. rewrite img_width_structural. cbn [bind].
  rewrite img_width_mask, img_width_content, img_width_unmask. reflexivity.
Qed.

End ImgWidth.

(* ------------------------------------------------------------------ *)
(** ** The claims about masking *)

(** C1 (as stated, refuted): in [<img width="1200">] the numeral 1200, which
    appears only inside the attribute value, is wrapped by the number pass in
    a span of its own. *)
Lemma C1_numeral_in_attribute_wrapped_again :
  exists out,
    highlightLine (sq "<img width='1200'>") = Returns out /\
    infix (span number_style (lit "1200")) out = true.
Proof.
  eexists. split; [vm_compute; reflexivity|]. vm_compute. reflexivity.
Qed.

(** C1 (amended): for every line [<img width="N">], N a non-empty string of
    decimal digits, masking hides the ten span tags written by the tag pass
    and nothing else; the quoted value stays in the masked text, so the
    string pass wraps it once more and the number pass wraps N in a span of
    the number colour.  In the output N sits inside three spans: the
    attribute-value span of the tag pass, the span of the string pass and the
    span of the number pass.  The digits inside the masked tags
    ([#116329], [#6e7781], ...) are not touched. *)
Theorem C1_numeral_in_attribute_value :
  forall d, d <> [] -> forallb is_digit d = true ->
    exists s,
      structural (escape (sq "<img width='" ++ d ++ sq "'>")) = Returns s /\
      mask s
      = (sq "__HL_TAG_0__&lt;__HL_TAG_1____HL_TAG_2__img__HL_TAG_3__ __HL_TAG_4__width__HL_TAG_5__=__HL_TAG_6__'"
         ++ d ++ sq "'__HL_TAG_7____HL_TAG_8__&gt;__HL_TAG_9__",
         [sq "<span style='color:#6e7781'>"; lit "</span>";
          sq "<span style='color:#0550ae'>"; lit "</span>";
          sq "<span style='color:#116329'>"; lit "</span>";
          sq "<span style='color:#0a3069'>"; lit "</span>";
          sq "<span style='color:#6e7781'>"; lit "</span>"]) /\
      highlightLine (sq "<img width='" ++ d ++ sq "'>")
      = Returns
          (span bracket_style (lit "&lt;") ++ span tag_name_style (lit "img")
           ++ lit " " ++ span attr_name_style (lit "width") ++ lit "="
           ++ span attr_value_style
                (span string_style ([dq] ++ span number_style d ++ [dq]))
           ++ span bracket_style (lit "&gt;")).
Proof.
  intros d N D. eexists. split; [now apply img_width_structural|].
  split; [now apply img_width_mask|now apply img_width_highlightLine].
Qed.

Lemma C1_numeral_in_attribute_value_witness :
  highlightLine (sq "<img width='1200'>")
  = Returns
      (span bracket_style (lit "&lt;") ++ span tag_name_style (lit "img")
       ++ lit " " ++ span attr_name_style (lit "width") ++ lit "="
       ++ span attr_value_style
            (span string_style
               ([dq] ++ span number_style (lit "1200") ++ [dq]))
       ++ span bracket_style (lit "&gt;")).
Proof.
  destruct (C1_numeral_in_attribute_value (lit "1200")) as (s & _ & _ & H);
    [discriminate|reflexivity|].
  exact H.
Defined.

(** C2 (the code at the failing input): a line that itself spells a
    placeholder.  The structural passes write three spans, that is six tags;
    the masked text holds seven placeholders, six from masking and the one
    typed in the line; unmasking replaces that one, too, by entry 0 of the
    table, so the output ends in a second copy of the first opening tag and
    the text typed in the line is gone. *)
Theorem C2_placeholder_in_the_line :
  let raw := lit "{% if x %} __HL_TAG_0__" in
  let s := span delimiter_style (lit "{%") ++ lit " "
           ++ span keyword_style (lit "if") ++ lit " x "
           ++ span delimiter_style (lit "%}") ++ lit " __HL_TAG_0__" in
  let masked := lit "__HL_TAG_0__{%__HL_TAG_1__ __HL_TAG_2__if__HL_TAG_3__ x __HL_TAG_4__%}__HL_TAG_5__ __HL_TAG_0__" in
  let tags := [sq "<span style='color:#1a7f37;font-weight:600'>"; lit "</span>";
               sq "<span style='color:#cf222e;font-weight:600'>"; lit "</span>";
               sq "<span style='color:#1a7f37;font-weight:600'>"; lit "</span>"] in
  structural (escape raw) = Returns s /\
  mask s = (masked, tags) /\
  length tags = 6 /\
  length (hits re_placeholder masked) = 7 /\
  highlightLine raw
  = Returns (span delimiter_style (lit "{%") ++ lit " "
             ++ span keyword_style (lit "if") ++ lit " x "
             ++ span delimiter_style (lit "%}") ++ lit " "
             ++ sq "<span style='color:#1a7f37;font-weight:600'>").
Proof. vm_compute. repeat split. Qed.

(* ------------------------------------------------------------------ *)
(** ** Only span tags in the markup *)

(** *** Closed text *)

Lemma closed_suffix a b : closed (a ++ b) = true -> closed b = true.
Proof.
  induction a as [|x a IH]; intros H; [exact H|].
  cbn [app closed] in H. apply andb_true_iff in H as [_ H]. auto.
Qed.

Lemma closed_no_lt s : forallb (is_other (code "<")) s = true -> closed s = true.
Proof.
  induction s as [|x s IH]; intros H; [reflexivity|].
  cbn [forallb closed] in *. apply andb_true_iff in H as [Hx H].
  unfold is_other in Hx. now rewrite Hx, IH.
Qed.

(** In front of a text that has a [>], every [<] is closed. *)
Lemma closed_before a b :
  existsb (is_chr (code ">")) b = true -> closed b = true ->
  closed (a ++ b) = true.
Proof.
  intros E C. induction a as [|x a IH]; [exact C|].
  cbn [app closed]. rewrite IH, andb_true_r, existsb_app, E.
  now rewrite !orb_true_r.
Qed.

Lemma closed_app a b :
  closed a = true -> closed b = true -> closed (a ++ b) = true.
Proof.
  induction a as [|x a IH]; intros Ca Cb; [exact Cb|].
  cbn [app closed] in *. apply andb_true_iff in Ca as [Hx Ca].
  rewrite (IH Ca Cb), andb_true_r, existsb_app.
  apply orb_true_iff in Hx as [-> | ->]; [reflexivity|].
  now rewrite orb_true_r.
Qed.

Lemma ends_gt_closed o rest :
  ends_gt o -> closed rest = true ->
  closed (o ++ rest) = true /\ existsb (is_chr (code ">")) (o ++ rest) = true.
Proof.
  intros [o' ->] C. rewrite <- app_assoc. cbn [app].
  assert (E : existsb (is_chr (code ">")) (code ">" :: rest) = true) by reflexivity.
  split.
  - apply closed_before; [exact E|]. cbn [closed]. now rewrite C.
  - rewrite existsb_app, E. apply orb_true_r.
Qed.

Lemma ends_gt_app a b : ends_gt b -> ends_gt (a ++ b).
Proof. intros [o ->]. exists (a ++ o). now rewrite app_assoc. Qed.

(** A replacement whose every output ends with [>] keeps the text closed:
    a [<] in front of a match finds its [>] in the output of the match at
    the latest. *)
Section ReplaceClosed.
Variable r : regex.
Variable f : str -> caps -> completion str.
Hypothesis r_not_nullable : nullable r = false.
Hypothesis hit_closed : forall m c out, f m c = Returns out -> ends_gt out.

Lemma replace_pieces_closed n : forall s prev out,
  length s <= n -> closed s = true ->
  replace_pieces f (scan r prev s 0) = Returns out ->
  closed out = true.
Proof.
  induction n as [|n IH]; intros s prev out L C H.
  - destruct s; [|simpl in L; lia].
    rewrite scan_nil in H by assumption. inversion H. reflexivity.
  - destruct (scan_first_hit r r_not_nullable s prev)
      as [P|(a & m & c & b & -> & Nm & X & S)].
    + rewrite P, replace_pieces_plain in H. inversion H; subst. auto.
    + rewrite S, replace_pieces_app_plain in H. cbn [replace_pieces] in H.
      destruct (f m c) as [o|] eqn:F; [|discriminate]. cbn [bind] in H.
      destruct (replace_pieces f (scan r (prev_after prev (a ++ m)) b 0))
        as [rest|] eqn:R; [|discriminate].
      cbn [bind] in H. inversion H; subst out.
      assert (Cr : closed rest = true).
      { apply (IH b (prev_after prev (a ++ m)) rest); auto.
        - rewrite !length_app in L. destruct m; [congruence|]. simpl in L. lia.
        - apply (closed_suffix (a ++ m)). now rewrite <- app_assoc. }
      destruct (ends_gt_closed o rest (hit_closed _ _ _ F) Cr) as [Co Eo].
      now apply closed_before.
Qed.

Lemma replace_fn_closed s out :
  closed s = true -> replace_fn r f s = Returns out -> closed out = true.
Proof. intros C H. now apply (replace_pieces_closed (length s) s None out). Qed.
End ReplaceClosed.

Lemma Returns_inj (A : Type) (a b : A) : Returns a = Returns b -> a = b.
Proof. now intros [= ->]. Qed.

Lemma span_end_gt : ends_gt (lit "</span>").
Proof. now exists (lit "</span"). Qed.

Ltac ends_with_span :=
  repeat match goal with |- ends_gt (_ ++ _) => apply ends_gt_app end;
  exact span_end_gt.

Lemma liquid_tags_closed s out :
  closed s = true -> liquid_tags s = Returns out -> closed out = true.
Proof.
  apply replace_fn_closed; [reflexivity|].
  intros m c o F. unfold liquid_tag_cb in F.
  destruct (get c 2); [|discriminate]. apply Returns_inj in F. subst o.
  ends_with_span.
Qed.

Lemma liquid_output_closed s out :
  closed s = true -> liquid_output s = Returns out -> closed out = true.
Proof.
  apply replace_fn_closed; [reflexivity|].
  intros m c o F. unfold liquid_output_cb in F.
  destruct (get c 2); [|discriminate]. apply Returns_inj in F. subst o.
  ends_with_span.
Qed.

Lemma html_tags_closed s out :
  closed s = true -> html_tags s = Returns out -> closed out = true.
Proof.
  apply replace_fn_closed; [reflexivity|].
  intros m c o F. unfold html_tag_cb in F.
  destruct (get c 3); [|discriminate]. apply Returns_inj in F. subst o.
  ends_with_span.
Qed.

Lemma html_comments_closed s :
  closed s = true -> closed (html_comments s) = true.
Proof.
  intros C. unfold html_comments.
  eapply (replace_fn_closed re_comment);
    [reflexivity| |exact C|symmetry; apply replace_as_fn].
  intros m c o F. apply Returns_inj in F. subst o. cbn [subst flat_map].
  rewrite app_nil_r. ends_with_span.
Qed.

Lemma structural_closed raw s :
  structural (escape raw) = Returns s -> closed s = true.
Proof.
  unfold structural. intros H.
  destruct (liquid_tags (escape raw)) as [s1|] eqn:E1; [|discriminate].
  cbn [bind] in H.
  destruct (liquid_output s1) as [s2|] eqn:E2; [|discriminate].
  cbn [bind] in H.
  destruct (html_tags s2) as [s3|] eqn:E3; [|discriminate].
  cbn [bind] in H. inversion H; subst s.
  apply html_comments_closed.
  apply (html_tags_closed s2); [|exact E3].
  apply (liquid_output_closed s1); [|exact E2].
  apply (liquid_tags_closed (escape raw)); [|exact E1].
  apply closed_no_lt.
  generalize (escape_no_angle raw). apply forallb_weaken.
  intros x Hx. now apply andb_true_iff in Hx.
Qed.

(** *** Decimal numerals *)

Lemma digits_of_uint_digits u : forallb is_digit (digits_of_uint u) = true.
Proof. induction u; cbn [digits_of_uint forallb]; auto. Qed.

Lemma toString_digits n : forallb is_digit (toString n) = true.
Proof. apply digits_of_uint_digits. Qed.

Lemma toString_not_empty n : toString n <> [].
Proof.
  unfold toString. destruct n as [|p]; [discriminate|].
  pose proof (DecimalPos.Unsigned.to_uint_nonnil p) as H.
  cbn [N.to_uint]. destruct (Pos.to_uint p); [congruence|discriminate..].
Qed.

Lemma digit_value_digits u : fold_right digit_value Decimal.Nil (digits_of_uint u) = u.
Proof. induction u; cbn [digits_of_uint fold_right]; rewrite ?IHu; reflexivity. Qed.

Lemma parseInt_toString n : parseInt (toString n) = n.
Proof.
  unfold parseInt, toString. rewrite digit_value_digits.
  apply DecimalN.Unsigned.of_to.
Qed.

Lemma placeholder_no_lt i : forallb (is_other (code "<")) (placeholder i) = true.
Proof.
  unfold placeholder. rewrite !forallb_app.
  replace (forallb (is_other (code "<")) (toString i)) with true; [reflexivity|].
  symmetry. generalize (toString_digits i). apply forallb_weaken.
  intros x Hx. unfold is_other. not_a_digit Hx.
Qed.

(** *** Masking closed text *)

Lemma existsb_split y : forall s,
  existsb (is_chr y) s = true ->
  exists body b, s = body ++ y :: b /\ forallb (is_other y) body = true.
Proof.
  induction s as [|x s IH]; cbn [existsb]; [discriminate|]. intros H.
  unfold is_chr at 1 in H. destruct (N.eqb_spec x y) as [->|Nx].
  - exists [], s. auto.
  - cbn [orb] in H. destruct (IH H) as (body & b & -> & F).
    exists (x :: body), b. split; [reflexivity|].
    cbn [forallb]. rewrite F, andb_true_r. unfold is_other.
    now apply negb_true_iff, N.eqb_neq.
Qed.

(** Masking leaves no [<] in closed text. *)
Lemma masked_text_no_lt n : forall s prev k,
  length s <= n -> closed s = true ->
  forallb (is_other (code "<")) (masked_text (scan re_tag prev s 0) k) = true.
Proof.
  induction n as [|n IH]; intros s prev k L C.
  - destruct s; [reflexivity|simpl in L; lia].
  - destruct s as [|x s]; [reflexivity|].
    cbn [closed] in C. apply andb_true_iff in C as [Hx C].
    destruct (N.eqb_spec x (code "<")) as [->|Nx].
    + cbn [negb orb] in Hx.
      destruct (existsb_split _ _ Hx) as (body & b & -> & F).
      pose proof (exec_tag prev body b F) as X.
      change (code "<" :: body ++ code ">" :: b)
        with ([code "<"] ++ body ++ code ">" :: b).
      replace ([code "<"] ++ body ++ code ">" :: b)
        with (([code "<"] ++ body ++ [code ">"]) ++ b)
        by (repeat rewrite <- app_assoc; reflexivity).
      rewrite (scan_hit re_tag prev _ b []); [|discriminate|exact X].
      cbn [masked_text]. rewrite forallb_app, placeholder_no_lt.
      apply IH.
      * cbn [length] in L. rewrite length_app in L. cbn [length] in L. lia.
      * apply (closed_suffix (body ++ [code ">"])).
        now rewrite <- app_assoc.
    + assert (E : exec re_tag prev (x :: s) = None).
      { apply exec_none_first; [reflexivity|].
        cbn -[N.eqb]. unfold is_chr. apply N.eqb_neq in Nx.
        change 60%N with (code "<"). now rewrite Nx. }
      cbn [scan]. rewrite E. cbn [masked_text forallb].
      rewrite IH; [|simpl in L; lia|exact C].
      unfold is_other. apply N.eqb_neq in Nx. now rewrite Nx.
Qed.

Lemma mask_no_lt s masked tags :
  closed s = true -> mask s = (masked, tags) ->
  forallb (is_other (code "<")) masked = true.
Proof.
  intros C M. unfold mask in M. rewrite mask_pieces_eq in M.
  inversion M; subst. now apply (masked_text_no_lt (length s)).
Qed.

(** *** The content passes on well-tagged text *)

Lemma json_keys_tagged s :
  well_tagged s = true -> well_tagged (json_keys s) = true.
Proof.
  intros I. unfold json_keys.
  eapply (replace_fn_tagged re_json_key _ (fun s => well_tagged s = true))
    with (s := s);
    [reflexivity| | | |exact I|symmetry; apply replace_as_fn].
  - apply well_tagged_suffix.
  - auto.
  - clear. intros prev a m b c out Inv X F. apply Returns_inj in F. subst out.
    apply exec_hit_matches in X as (p' & M).
    pose proof (matches_starts _ _ _ _ _ _ _ M) as S.
    assert (Wa : well_tagged a = true).
    { starts_with S x m'. first_chars S. cut_at Inv. }
    split; [exact Wa|]. clear S.
    unfold re_json_key in M. cbn [cat] in M.
    apply matches_Cat_inv in M as (p1 & s1 & c1 & M1 & M).
    apply matches_Class_inv in M1 as (x & E1 & Hx & -> & ->).
    apply matches_Cat_Group_inv in M as (g & t1 & p2 & E2 & Mg & M);
      [|reflexivity].
    pose proof (matches_no_groups _ _ _ _ _ _ _ M eq_refl) as ->.
    pose proof (matches_avoids (code "<") _ _ _ _ _ _ _ Mg eq_refl g eq_refl) as G.
    cbn [subst flat_map get set find fst snd Nat.eqb option_map].
    repeat apply well_tagged_app;
      try reflexivity; try (now apply well_tagged_no_lt).
Qed.

Lemma strings_tagged s :
  well_tagged s = true -> well_tagged (strings s) = true.
Proof.
  intros I. unfold strings.
  eapply (replace_fn_tagged re_string _ (fun s => well_tagged s = true))
    with (s := s);
    [reflexivity| | | |exact I|symmetry; apply replace_as_fn].
  - apply well_tagged_suffix.
  - auto.
  - clear. intros prev a m b c out Inv X F. apply Returns_inj in F. subst out.
    apply exec_hit_matches in X as (p' & M).
    pose proof (matches_starts _ _ _ _ _ _ _ M) as S.
    assert (Wa : well_tagged a = true).
    { starts_with S x m'. first_chars S. cut_at Inv. }
    split; [exact Wa|]. clear S.
    apply well_tagged_suffix in Inv.
    unfold re_string in M. cbn [cat] in M.
    apply matches_Cat_inv in M as (p1 & s1 & c1 & M1 & M).
    apply matches_Class_inv in M1 as (x & E1 & Hx & -> & ->).
    apply matches_Cat_Group_inv in M as (g & t1 & p2 & E2 & Mg & M);
      [|reflexivity].
    pose proof (matches_no_groups _ _ _ _ _ _ _ M eq_refl) as ->.
    apply matches_Class_inv in M as (y & E3 & Hy & _ & _).
    unfold is_chr in Hy. apply N.eqb_eq in Hy. subst y.
    rewrite E1, E2, E3 in Inv.
    apply (well_tagged_suffix [x]) in Inv.
    assert (Wg : well_tagged g = true) by cut_at Inv.
    cbn [subst flat_map get set find fst snd Nat.eqb option_map].
    repeat apply well_tagged_app;
      try reflexivity; try assumption.
Qed.

Lemma digit_not_tag_char x : is_digit x = true -> tag_char x = false.
Proof. intros H. unfold tag_char. cbn -[N.eqb]. not_a_digit H. Qed.

Lemma numbers_tagged s :
  well_tagged s = true -> well_tagged (numbers s) = true.
Proof.
  intros I. unfold numbers.
  eapply (replace_fn_tagged re_number _ (fun s => well_tagged s = true))
    with (s := s);
    [reflexivity| | | |exact I|symmetry; apply replace_as_fn].
  - apply well_tagged_suffix.
  - auto.
  - clear. intros prev a m b c out Inv X F. apply Returns_inj in F. subst out.
    apply exec_hit_matches in X as (p' & M).
    pose proof (matches_starts _ _ _ _ _ _ _ M) as S.
    assert (Wa : well_tagged a = true).
    { starts_with S x m'. cbn -[is_digit] in S.
      rewrite !orb_false_r in S.
      apply (well_tagged_cut_at a x (m' ++ b)); [|exact Inv].
      now apply digit_not_tag_char. }
    split; [exact Wa|]. clear S.
    unfold re_number in M. cbn [cat] in M.
    apply matches_Cat_inv in M as (p1 & s1 & c1 & M1 & M).
    apply matches_WordBoundary_inv in M1 as (-> & -> & -> & _).
    apply matches_Cat_Group_inv in M as (g & rest & p2 & E & Mg & M);
      [|reflexivity].
    apply matches_WordBoundary_inv in M as (_ & _ & -> & _).
    pose proof (matches_avoids (code "<") _ _ _ _ _ _ _ Mg eq_refl g eq_refl) as G.
    cbn [subst flat_map get set find fst snd Nat.eqb option_map].
    repeat apply well_tagged_app;
      try reflexivity; try (now apply well_tagged_no_lt).
Qed.

Lemma booleans_tagged s :
  well_tagged s = true -> well_tagged (booleans s) = true.
Proof.
  intros I. unfold booleans.
  eapply (replace_fn_tagged re_boolean _ (fun s => well_tagged s = true))
    with (s := s);
    [reflexivity| | | |exact I|symmetry; apply replace_as_fn].
  - apply well_tagged_suffix.
  - auto.
  - clear. intros prev a m b c out Inv X F. apply Returns_inj in F. subst out.
    apply exec_hit_matches in X as (p' & M).
    unfold re_boolean in M. cbn [cat] in M.
    apply matches_Cat_inv in M as (p1 & s1 & c1 & M1 & M).
    apply matches_WordBoundary_inv in M1 as (-> & -> & -> & _).
    apply matches_Cat_Group_inv in M as (g & rest & p2 & E & Mg & M);
      [|reflexivity].
    apply matches_WordBoundary_inv in M as (_ & -> & -> & _).
    apply app_inv_length in E as [<- _]; [|reflexivity].
    apply matches_words_inv in Mg as (w & Iw & Ew).
    apply app_inv_tail in Ew. subst m.
    cbn [subst flat_map get set find fst snd Nat.eqb option_map].
    cbn [In] in Iw.
    destruct Iw as [<-|[<-|[<-|[<-|[]]]]].
    all: split; [|reflexivity].
    all: match type of Inv with well_tagged (_ ++ _ ++ ?t) = true =>
           first
             [ apply (well_tagged_cut_at a (code "t") (lit "rue" ++ t));
               [reflexivity|exact Inv]
             | apply (well_tagged_cut_at a (code "f") (lit "alse" ++ t));
               [reflexivity|exact Inv]
             | apply (well_tagged_cut a [code "n"] (code "i") (lit "l" ++ t));
               [reflexivity|reflexivity|exact Inv]
             | apply (well_tagged_cut a [code "n"] (code "u") (lit "ll" ++ t));
               [reflexivity|reflexivity|exact Inv] ]
         end.
Qed.

Lemma content_tagged s :
  well_tagged s = true -> well_tagged (content s) = true.
Proof.
  intros W. unfold content.
  now apply booleans_tagged, numbers_tagged, strings_tagged, json_keys_tagged.
Qed.

(** *** Unmasking *)

Lemma unmask_as_fn tags s :
  Returns (unmask tags s)
  = replace_fn re_placeholder (fun _ c => Returns (show (unmask_cb tags c))) s.
Proof.
  unfold unmask, replace_fn. induction (pieces re_placeholder s) as [|[x|m c] ps IH].
  - reflexivity.
  - cbn [flat_map replace_pieces]. rewrite <- IH. reflexivity.
  - cbn [flat_map replace_pieces bind]. rewrite <- IH. reflexivity.
Qed.

Lemma index_In tags : forall i e, index tags i = Some e -> In e tags.
Proof.
  induction tags as [|t tags IH]; intros i e H; cbn [index] in H; [discriminate|].
  destruct (N.eqb i 0).
  - inversion H. now left.
  - right. eauto.
Qed.

(** A text that begins in [w ++ y :: b] and has no [y], except perhaps at
    its end, ends within [w ++ [y]]. *)
Lemma prefix_stop y p : forall w b,
  existsb (N.eqb y) (removelast p) = false ->
  prefix p (w ++ y :: b) = true -> prefix p (w ++ [y]) = true.
Proof.
  induction p as [|c p IH]; intros w b Hp H; [reflexivity|].
  destruct w as [|z w]; cbn [app prefix] in *.
  - apply andb_true_iff in H as [Hc H]. rewrite Hc. cbn [andb].
    destruct p as [|c' p]; [reflexivity|].
    cbn [removelast existsb] in Hp. apply N.eqb_eq in Hc. subst c.
    now rewrite N.eqb_refl in Hp.
  - apply andb_true_iff in H as [-> H]. cbn [andb].
    destruct p as [|c' p]; [reflexivity|].
    apply (IH w b); [|exact H].
    change (removelast (c :: c' :: p)) with (c :: removelast (c' :: p)) in Hp.
    cbn [existsb] in Hp. now apply orb_false_iff in Hp.
Qed.

(** Well-tagged text, cut behind a [>] that follows text without [>]. *)
Lemma well_tagged_upto w : forall b,
  well_tagged (w ++ code ">" :: b) = true ->
  well_tagged (w ++ [code ">"]) = true.
Proof.
  induction w as [|x w IH]; intros b H; [reflexivity|].
  cbn [app well_tagged] in *. apply andb_true_iff in H as [Hx H].
  rewrite (IH b H), andb_true_r.
  apply orb_true_iff in Hx as [Hx|Hx].
  - apply orb_true_iff in Hx as [Hx|Hx].
    + now rewrite Hx.
    + apply orb_true_iff. left. apply orb_true_iff. right.
      exact (prefix_stop (code ">") (lit "span ") w b eq_refl Hx).
  - apply orb_true_iff. right.
    exact (prefix_stop (code ">") (lit "/span>") w b eq_refl Hx).
Qed.

(** What the masking pattern cuts out of well-tagged text is well tagged. *)
Lemma tag_hit_tagged prev e b c :
  well_tagged (e ++ b) = true ->
  exec re_tag prev (e ++ b) = Some (length e, c) ->
  well_tagged e = true.
Proof.
  intros W X. apply exec_hit_matches in X as (p' & M).
  unfold re_tag in M. cbn [cat] in M.
  apply matches_Cat_inv in M as (p1 & s1 & c1 & M1 & M).
  apply matches_Class_inv in M1 as (x & E1 & Hx & -> & ->).
  apply matches_Cat_inv in M as (p2 & s2 & c2 & M2 & M).
  apply matches_Rep_inv in M2 as (body & -> & F & -> & ->).
  apply matches_Class_inv in M as (y & E2 & Hy & _ & _).
  unfold is_chr in Hy. apply N.eqb_eq in Hy. subst y.
  assert (E : e = (x :: body) ++ [code ">"]).
  { apply (app_inv_length e b ((x :: body) ++ [code ">"]) b);
      [|reflexivity].
    rewrite E1, E2. cbn [app]. now rewrite <- app_assoc. }
  subst e. apply (well_tagged_upto (x :: body) b).
  rewrite <- app_assoc in W. exact W.
Qed.

Lemma mask_tags_tagged s masked tags :
  well_tagged s = true -> mask s = (masked, tags) ->
  forall e, In e tags -> well_tagged e = true.
Proof.
  intros W Mk e I. unfold mask in Mk.
  destruct (mask_pieces_tags _ _ _ _ Mk e I) as [[]|[c H]].
  apply scan_hit_position in H as (a & b & E & X).
  rewrite E in W. apply well_tagged_suffix in W.
  exact (tag_hit_tagged _ _ _ _ W X).
Qed.

Lemma unmask_tagged tags s :
  (forall e, In e tags -> well_tagged e = true) ->
  well_tagged s = true -> well_tagged (unmask tags s) = true.
Proof.
  intros T I.
  eapply (replace_fn_tagged re_placeholder _ (fun s => well_tagged s = true))
    with (s := s);
    [reflexivity| | | |exact I|symmetry; apply unmask_as_fn].
  - apply well_tagged_suffix.
  - auto.
  - intros prev a m b c out Inv X F. apply Returns_inj in F. subst out.
    apply exec_hit_matches in X as (p' & M).
    pose proof (matches_starts _ _ _ _ _ _ _ M) as S.
    split.
    + starts_with S x m'. first_chars S. cut_at Inv.
    + unfold unmask_cb. destruct (get c 1) as [idx|]; [|reflexivity].
      destruct (index tags (parseInt idx)) as [e|] eqn:E; [|reflexivity].
      cbn [show]. apply T. exact (index_In _ _ _ E).
Qed.

(** X1.  Whatever the line, every [<] of the markup [highlightLine] returns
    begins [<span ] or [</span>]: the text of the line never opens an
    element of its own. *)
Theorem highlightLine_only_spans raw :
  exists out, highlightLine raw = Returns out /\ well_tagged out = true.
Proof.
  destruct (structural_returns (escape raw)) as [s S].
  unfold highlightLine. rewrite S. cbn [bind].
  destruct (mask s) as [masked tags] eqn:Mk.
  eexists. split; [reflexivity|].
  pose proof (structural_tagged raw s S) as W.
  pose proof (structural_closed raw s S) as C.
  apply unmask_tagged.
  - exact (mask_tags_tagged s masked tags W Mk).
  - apply content_tagged, well_tagged_no_lt.
    exact (mask_no_lt s masked tags C Mk).
Qed.

(** *** The mask table and the masked text *)

Lemma tag_hit_is_tag prev e b c :
  exec re_tag prev (e ++ b) = Some (length e, c) -> is_tag e = true.
Proof.
  intros X. apply exec_hit_matches in X as (p' & M).
  unfold re_tag in M. cbn [cat] in M.
  apply matches_Cat_inv in M as (p1 & s1 & c1 & M1 & M).
  apply matches_Class_inv in M1 as (x & E1 & Hx & -> & ->).
  apply matches_Cat_inv in M as (p2 & s2 & c2 & M2 & M).
  apply matches_Rep_inv in M2 as (body & -> & F & -> & ->).
  apply matches_Class_inv in M as (y & E2 & Hy & _ & _).
  unfold is_chr in Hx, Hy. apply N.eqb_eq in Hx, Hy. subst x y.
  assert (E : e = code "<" :: body ++ [code ">"]).
  { apply (app_inv_length e b (code "<" :: body ++ [code ">"]) b);
      [|reflexivity].
    rewrite E1, E2. cbn [app]. now rewrite <- app_assoc. }
  subst e. cbn [is_tag]. rewrite N.eqb_refl, rev_app_distr. cbn [rev app].
  rewrite N.eqb_refl. cbn [andb].
  rewrite forallb_forall in *. intros z Hz. apply F. now apply in_rev.
Qed.

(** X2.  Masking hides every tag.  Whatever the line, the text handed to the
    content passes has no [<] left, and every entry of the mask table is a
    tag: a [<], text without [>], and a [>]. *)
Theorem masked_text_has_no_tag raw :
  exists s masked tags,
    structural (escape raw) = Returns s /\
    mask s = (masked, tags) /\
    forallb (is_other (code "<")) masked = true /\
    forallb is_tag tags = true.
Proof.
  destruct (structural_returns (escape raw)) as [s S].
  destruct (mask s) as [masked tags] eqn:Mk.
  exists s, masked, tags. repeat split; auto.
  - exact (mask_no_lt s masked tags (structural_closed raw s S) Mk).
  - apply forallb_forall. intros e I. unfold mask in Mk.
    destruct (mask_pieces_tags _ _ _ _ Mk e I) as [[]|[c H]].
    apply scan_hit_position in H as (a & b & E & X).
    exact (tag_hit_is_tag _ _ _ _ X).
Qed.

(* ------------------------------------------------------------------ *)
(** ** The component: lines, gutter and rows *)

Lemma split_not_nil : forall s cur, split cur s <> [].
Proof.
  induction s as [|x s IH]; intros cur; cbn [split]; [discriminate|].
  destruct (N.eqb x lf); [discriminate|apply IH].
Qed.

Lemma join_cons l ls : ls <> [] -> join (l :: ls) = l ++ lf :: join ls.
Proof. destruct ls; [congruence|reflexivity]. Qed.

Lemma join_split : forall s cur, join (split cur s) = cur ++ s.
Proof.
  induction s as [|x s IH]; intros cur; cbn [split].
  - cbn [join]. now rewrite app_nil_r.
  - destruct (N.eqb_spec x lf) as [->|Nx].
    + rewrite join_cons by apply split_not_nil. now rewrite IH.
    + rewrite IH, <- app_assoc. reflexivity.
Qed.

Lemma split_no_lf : forall s cur,
  forallb (is_other lf) cur = true ->
  Forall (fun l => forallb (is_other lf) l = true) (split cur s).
Proof.
  induction s as [|x s IH]; intros cur C; cbn [split].
  - now constructor.
  - destruct (N.eqb_spec x lf) as [->|Nx].
    + constructor; [exact C|]. now apply IH.
    + apply IH. rewrite forallb_app, C. cbn [forallb]. unfold is_other.
      apply N.eqb_neq in Nx. now rewrite Nx.
Qed.

Lemma length_split : forall s cur,
  length (split cur s) = S (count_occ N.eq_dec s lf).
Proof.
  induction s as [|x s IH]; intros cur; cbn [split count_occ]; [reflexivity|].
  destruct (N.eqb_spec x lf) as [->|Nx].
  - destruct (N.eq_dec lf lf); [|congruence]. cbn [length]. now rewrite IH.
  - destruct (N.eq_dec x lf); [congruence|]. apply IH.
Qed.

(** X3.  The body shows the copied text, cut at its line feeds: the lines have no
    line feed, there is one more line than there are line feeds, and the
    lines joined by line feeds are the text the copy button copies. *)
Theorem lines_of_copied_text code :
  join (lines code) = copied_text code /\
  Forall (fun l => forallb (is_other lf) l = true) (lines code) /\
  totalLines code = S (count_occ N.eq_dec (copied_text code) lf).
Proof.
  unfold totalLines, lines, copied_text. repeat split.
  - apply join_split.
  - now apply split_no_lf.
  - apply length_split.
Qed.

(** *** The width of the gutter *)

Lemma length_digits_of_uint u :
  length (digits_of_uint u) = Decimal.nb_digits u.
Proof. induction u; cbn [digits_of_uint length Decimal.nb_digits]; auto. Qed.

Lemma nb_digits_succ d :
  Decimal.nb_digits d <= Decimal.nb_digits (Decimal.Little.succ d).
Proof. induction d; cbn [Decimal.Little.succ Decimal.nb_digits]; lia. Qed.

Lemma length_toString n :
  length (toString n) = Decimal.nb_digits (DecimalPos.Unsigned.to_lu n).
Proof.
  unfold toString. rewrite length_digits_of_uint.
  replace (N.to_uint n) with (Decimal.rev (DecimalPos.Unsigned.to_lu n))
    by (destruct n; reflexivity).
  apply DecimalFacts.nb_digits_rev.
Qed.

(** A larger number has at least as many digits. *)
Lemma length_toString_le n m :
  (n <= m)%N -> length (toString n) <= length (toString m).
Proof.
  revert m. apply N.le_ind.
  - intros ? ? ->. reflexivity.
  - lia.
  - intros m _ IH. rewrite (length_toString (N.succ m)).
    rewrite DecimalPos.Unsigned.to_lu_succ, <- nb_digits_succ.
    now rewrite <- length_toString.
Qed.

(** X4.  The gutter is wide enough for every line number: the number of line
    [i] (counted from 0), which is [i + 1], has at most [gutterChars]
    digits. *)
Theorem gutter_fits_every_line_number code i :
  i < totalLines code ->
  length (toString (N.of_nat i + 1)) <= gutterChars code.
Proof.
  intros H. unfold gutterChars. apply length_toString_le. lia.
Qed.

Lemma gutter_fits_every_line_number_witness :
  length (toString (N.of_nat 9 + 1))
  <= gutterChars (Some (lit "a" ++ concat (repeat [lf; code "b"] 9))).
Proof.
  apply (gutter_fits_every_line_number _ 9). vm_compute. lia.
Defined.

(** *** The rows of the body *)

Lemma line_html_returns line :
  exists h, line_html line = Returns h /\ h <> [].
Proof.
  destruct (highlightLine_returns line) as [h H].
  unfold line_html. rewrite H. cbn [bind]. eexists. split; [reflexivity|].
  destruct h; discriminate.
Qed.

Lemma rows_from_returns numbered : forall ls i,
  exists rs, rows_from numbered i ls = Returns rs /\
    map fst rs
    = map (fun k => if numbered then Some (i + N.of_nat k + 1)%N else None)
        (seq 0 (length ls)) /\
    Forall2 (fun line r => line_html line = Returns (snd r) /\ snd r <> []) ls rs.
Proof.
  induction ls as [|line ls IH]; intros i.
  - exists []. repeat split. constructor.
  - destruct (line_html_returns line) as (h & H & Nh).
    destruct (IH (i + 1)%N) as (rs & R & Nums & All).
    exists ((if numbered then Some (i + 1)%N else None, h) :: rs).
    cbn [rows_from]. rewrite H, R. cbn [bind].
    repeat split.
    + cbn [map length seq fst]. f_equal; [destruct numbered; [f_equal; lia|reflexivity]|].
      rewrite Nums, <- seq_shift, map_map. apply map_ext. intros k.
      destruct numbered; [f_equal; lia|reflexivity].
    + constructor; [|exact All]. cbn [snd]. auto.
Qed.

(** X5.  Rendering the body never throws.  There is one row per line; with line
    numbers on, the rows are numbered 1, 2, ... in order; the markup of a
    row is that of its line and is never empty. *)
Theorem rows_numbered_and_not_empty numbered code :
  exists rs, rows numbered code = Returns rs /\
    map fst rs
    = map (fun k => if numbered then Some (N.of_nat k + 1)%N else None)
        (seq 0 (totalLines code)) /\
    Forall2 (fun line r => line_html line = Returns (snd r) /\ snd r <> [])
      (lines code) rs.
Proof.
  destruct (rows_from_returns numbered (lines code) 0%N) as (rs & R & Nums & All).
  exists rs. repeat split; auto.
Qed.

(* ------------------------------------------------------------------ *)
(** ** Round trips *)

(** The pieces of a scan, put together, are the scanned text. *)
Lemma scan_text r :
  nullable r = false ->
  forall n s prev, length s <= n -> flat_map piece_text (scan r prev s 0) = s.
Proof.
  intros N. induction n as [|n IH]; intros s prev L.
  - destruct s; [|simpl in L; lia]. now rewrite scan_nil.
  - destruct (scan_first_hit r N s prev)
      as [P|(a & m & c & b & -> & Nm & X & S)].
    + rewrite P. now apply flat_map_plain.
    + rewrite S, render_plain_app by reflexivity. cbn [flat_map piece_text].
      rewrite IH; [reflexivity|].
      rewrite !length_app in L. destruct m; [congruence|]. simpl in L. lia.
Qed.

Lemma pieces_text r s : nullable r = false -> flat_map piece_text (pieces r s) = s.
Proof. intros N. now apply (scan_text r N (length s)). Qed.

(** *** Placeholders and their indices *)

(** A placeholder alone is replaced by the entry its index names, or by
    [undefined] when the table has no such entry. *)
Lemma unmask_one prev i rest :
  scan re_placeholder prev (placeholder i ++ rest) 0
  = Hit (placeholder i) [(1, toString i)]
    :: scan re_placeholder (prev_after prev (placeholder i)) rest 0.
Proof.
  apply scan_hit; [discriminate|].
  apply (exec_placeholder prev (toString i) rest).
  - apply toString_not_empty.
  - apply toString_digits.
Qed.

Lemma unmask_cb_toString tags i :
  unmask_cb tags [(1, toString i)] = index tags i.
Proof.
  unfold unmask_cb. cbn [get find fst snd Nat.eqb option_map].
  now rewrite parseInt_toString.
Qed.

(** X6.  The index written into a placeholder is read back as it was, whatever
    its size: the placeholder of [i] is replaced by entry [i] of the table,
    or by the text [undefined] when the table has no entry [i]. *)
Theorem unmask_placeholder tags i :
  unmask tags (placeholder i) = show (index tags i).
Proof.
  unfold unmask, pieces.
  rewrite <- (app_nil_r (placeholder i)) at 1.
  rewrite unmask_one, scan_nil by reflexivity.
  cbn [flat_map]. now rewrite unmask_cb_toString, app_nil_r.
Qed.

Lemma index_app_length tags0 m later :
  index (tags0 ++ m :: later) (N.of_nat (length tags0)) = Some m.
Proof.
  induction tags0 as [|t tags0 IH]; [reflexivity|].
  cbn [app length index].
  replace (N.eqb (N.of_nat (S (length tags0))) 0) with false
    by (symmetry; apply N.eqb_neq; lia).
  replace (N.pred (N.of_nat (S (length tags0)))) with (N.of_nat (length tags0))
    by lia.
  exact IH.
Qed.

(** *** Masking and unmasking *)

Lemma unmask_masked_text tags ps : forall tags0 prev,
  (forall x, In (Plain x) ps -> is_chr (code "_") x = false) ->
  tags = tags0 ++ hit_texts ps ->
  flat_map (fun p => match p with
                     | Plain x => [x]
                     | Hit _ c => show (unmask_cb tags c)
                     end)
    (scan re_placeholder prev (masked_text ps (length tags0)) 0)
  = flat_map piece_text ps.
Proof.
  induction ps as [|[x|m c] ps IH]; intros tags0 prev P T.
  - reflexivity.
  - cbn [masked_text flat_map piece_text].
    assert (E : exec re_placeholder prev (x :: masked_text ps (length tags0)) = None).
    { apply exec_none_first; [reflexivity|].
      cbn -[N.eqb]. rewrite !orb_false_r. apply (P x). now left. }
    cbn [scan]. rewrite E. cbn [flat_map app]. f_equal.
    apply IH; [|exact T]. intros y Hy. apply P. now right.
  - cbn [masked_text flat_map piece_text hit_texts] in *.
    replace (N.of_nat (S (length tags0)) - 1)%N with (N.of_nat (length tags0))
      by lia.
    rewrite unmask_one. cbn [flat_map].
    rewrite unmask_cb_toString, T, index_app_length. cbn [show]. f_equal.
    rewrite <- T.
    replace (S (length tags0)) with (length (tags0 ++ [m]))
      by (rewrite length_app; cbn [length]; lia).
    apply IH.
    + intros y Hy. apply P. now right.
    + rewrite T, <- app_assoc. reflexivity.
Qed.

(** X7.  Masking followed at once by unmasking gives the text back, when the
    text has no underscore (placeholders are spelt with underscores). *)
Theorem mask_unmask_round_trip s masked tags :
  forallb (is_other (code "_")) s = true ->
  mask s = (masked, tags) ->
  unmask tags masked = s.
Proof.
  intros U Mk. unfold mask in Mk. rewrite mask_pieces_eq in Mk.
  injection Mk as <- <-.
  transitivity (flat_map piece_text (pieces re_tag s));
    [|now apply pieces_text].
  apply (unmask_masked_text _ (pieces re_tag s) [] None); [|reflexivity].
  intros x Hx.
  assert (I : In x s).
  { rewrite <- (pieces_text re_tag s eq_refl).
    apply in_flat_map. exists (Plain x). split; [exact Hx|now left]. }
  apply (forallb_In _ _ _ _ U) in I. unfold is_other in I. unfold is_chr.
  now apply negb_true_iff.
Qed.

Lemma mask_unmask_round_trip_witness :
  exists masked tags,
    mask (sq "<span style='color:#6e7781'>&lt;</span>b") = (masked, tags) /\
    masked = lit "__HL_TAG_0__&lt;__HL_TAG_1__b" /\
    unmask tags masked = sq "<span style='color:#6e7781'>&lt;</span>b".
Proof.
  destruct (mask (sq "<span style='color:#6e7781'>&lt;</span>b"))
    as [masked tags] eqn:Mk.
  exists masked, tags. split; [reflexivity|]. split.
  - vm_compute in Mk. now inversion Mk.
  - apply (mask_unmask_round_trip _ masked tags); [reflexivity|exact Mk].
Defined.

(** *** Escaping loses nothing *)

Lemma escape_char_cases x :
  (x = code "&" /\ escape_char x = lit "&amp;") \/
  (x = code "<" /\ escape_char x = lit "&lt;") \/
  (x = code ">" /\ escape_char x = lit "&gt;") \/
  (x <> code "&" /\ escape_char x = [x]).
Proof.
  unfold escape_char.
  destruct (N.eqb_spec x (code "&")) as [->|N1]; [auto|].
  destruct (N.eqb_spec x (code "<")) as [->|N2]; [auto|].
  destruct (N.eqb_spec x (code ">")) as [->|N3]; [auto|].
  auto 6.
Qed.

(** X8.  Escaping loses nothing: two lines with the same escaped text are
    the same line. *)
Theorem escape_injective : forall a b, escape a = escape b -> a = b.
Proof.
  intros a b. rewrite !escape_flat_map. revert b.
  induction a as [|x a IH]; intros [|y b] H.
  - reflexivity.
  - exfalso. cbn [flat_map] in H.
    destruct (escape_char_cases y) as [[_ E]|[[_ E]|[[_ E]|[_ E]]]];
      rewrite E in H; discriminate.
  - exfalso. cbn [flat_map] in H.
    destruct (escape_char_cases x) as [[_ E]|[[_ E]|[[_ E]|[_ E]]]];
      rewrite E in H; discriminate.
  - cbn [flat_map] in H.
    destruct (escape_char_cases x) as [[Hx Ex]|[[Hx Ex]|[[Hx Ex]|[Hx Ex]]]];
      destruct (escape_char_cases y) as [[Hy Ey]|[[Hy Ey]|[[Hy Ey]|[Hy Ey]]]];
      rewrite Ex, Ey in H; try discriminate H;
      cbn [app lit list_ascii_of_string map] in H;
      injection H as H; try congruence.
    all: try (f_equal; [congruence|apply IH; congruence]).
    all: exfalso; first [apply Hy; symmetry; exact H|apply Hx; exact H].
Qed.

Lemma escape_injective_witness :
  sq "a < 'b' & c" = sq "a < 'b' & c".
Proof.
  apply (escape_injective (sq "a < 'b' & c") (sq "a < 'b' & c")). reflexivity.
Defined.

(* ------------------------------------------------------------------ *)
(** ** The passes, one construct at a time *)

(** *** Decimal numbers *)

(** Digits, a dot and digits are one match of the number pattern. *)
Lemma exec_number_decimal d1 d2 :
  d1 <> [] -> forallb is_digit d1 = true ->
  d2 <> [] -> forallb is_digit d2 = true ->
  exec re_number None ((d1 ++ [code "."] ++ d2) ++ [])
  = Some (length (d1 ++ [code "."] ++ d2), [(1, d1 ++ [code "."] ++ d2)]).
Proof.
  intros N1 F1 N2 F2.
  apply exec_of_reads. unfold re_number. cbn [cat].
  destruct d1 as [|x d1]; [congruence|].
  pose proof F1 as F'. cbn [forallb] in F'. apply andb_true_iff in F' as [Fx Fd].
  replace ((x :: d1) ++ [code "."] ++ d2)
    with ([] ++ ((x :: d1) ++ [code "."] ++ d2) ++ []) at 1
    by (cbn [app]; now rewrite app_nil_r).
  apply reads_Cat with (c1 := []).
  { apply reads_WordBoundary. cbn [app word_after].
    now rewrite (digit_is_word _ Fx). }
  cbn [prev_after fold_left].
  eapply reads_Cat.
  2:{ apply reads_WordBoundary. cbn [word_after].
      rewrite app_assoc, prev_after_app.
      rewrite word_before_after;
        [reflexivity|exact N2|now apply forallb_digit_word]. }
  apply (reads_Group 1).
  change (x :: d1) with ([x] ++ d1).
  apply reads_Cat with (c1 := []).
  { unfold Plus. apply reads_Cat with (c1 := []); [now apply reads_Class|].
    apply reads_Rep_greedy; [exact Fd|reflexivity]. }
  apply reads_Cat with (c1 := []).
  { apply reads_Or_l, reads_Chr. }
  apply reads_Rep_greedy; [exact F2|exact I].
Qed.

(** Digits and a dot with nothing behind it: the dot is given back. *)
Lemma exec_number_trailing_dot d :
  d <> [] -> forallb is_digit d = true ->
  exec re_number None (d ++ [code "."]) = Some (length d, [(1, d)]).
Proof.
  intros N F. destruct d as [|x d]; [congruence|].
  pose proof F as F'. simpl in F'. apply andb_true_iff in F' as [Fx Fd].
  unfold exec, re_number. cbn [cat run Plus Opt Chr word_before word_after app].
  rewrite (digit_is_word _ Fx), Fx. cbn [xorb].
  apply rep_greedy_all; [exact Fd|].
  cbn -[N.eqb is_chr is_digit is_word].
  change (is_digit 46%N) with false. change (is_word 46%N) with false.
  change (is_chr 46%N 46%N) with true. cbn [xorb].
  change (prev_after (Some x) d) with (prev_after None (x :: d)).
  rewrite word_before_after by (auto using forallb_digit_word).
  rewrite Nat.sub_0_r, length_app. cbn [length].
  replace (length d + 1) with (length (x :: d)) by (cbn [length]; lia).
  change (x :: d ++ [46%N]) with ((x :: d) ++ [46%N]).
  now rewrite firstn_app, Nat.sub_diag, firstn_all, firstn_O, app_nil_r.
Qed.

(** X9.  A decimal number is wrapped as one number, dot and decimals included;
    a dot with no digit behind it is not part of the number. *)
Theorem numbers_decimal d1 d2 :
  d1 <> [] -> forallb is_digit d1 = true -> forallb is_digit d2 = true ->
  numbers (d1 ++ [code "."] ++ d2)
  = match d2 with
    | [] => span number_style d1 ++ [code "."]
    | _ :: _ => span number_style (d1 ++ [code "."] ++ d2)
    end.
Proof.
  intros N1 F1 F2. unfold numbers, replace, pieces.
  destruct d2 as [|y d2].
  - cbn [app].
    rewrite (scan_hit re_number None d1 [code "."] [(1, d1)]);
      [|exact N1|now apply exec_number_trailing_dot].
    rewrite (scan_one_none re_number _ (code ".") []);
      [|apply exec_none_first; reflexivity].
    rewrite scan_nil by reflexivity.
    cbn [flat_map map subst get find fst snd Nat.eqb option_map app].
    unfold span. rewrite !app_nil_r. same_text.
  - rewrite <- (app_nil_r (d1 ++ [code "."] ++ y :: d2)).
    rewrite (scan_hit re_number None _ [] [(1, d1 ++ [code "."] ++ y :: d2)]).
    + rewrite scan_nil by reflexivity.
      cbn [flat_map subst get find fst snd Nat.eqb option_map].
      unfold span. now rewrite !app_nil_r.
    + destruct d1; [congruence|discriminate].
    + apply exec_number_decimal; auto. discriminate.
Qed.

Lemma numbers_decimal_witness :
  numbers (lit "3" ++ [code "."] ++ lit "14")
  = span number_style (lit "3" ++ [code "."] ++ lit "14") /\
  numbers (lit "3" ++ [code "."] ++ [])
  = span number_style (lit "3") ++ [code "."].
Proof.
  split.
  - apply (numbers_decimal (lit "3") (lit "14")); [discriminate|reflexivity..].
  - apply (numbers_decimal (lit "3") []); [discriminate|reflexivity..].
Defined.

(** *** Quoted strings *)

Lemma no_quote_no_first a :
  forallb (is_other dq) a = true ->
  forallb (fun x => negb (first re_string x)) a = true.
Proof.
  apply forallb_weaken. intros x Hx. cbn -[N.eqb].
  unfold is_chr. unfold is_other in Hx. now rewrite orb_false_r.
Qed.

(** A quote without a partner is no match of the string pattern. *)
Lemma exec_string_open prev b :
  forallb (is_other dq) b = true -> exec re_string prev ([dq] ++ b) = None.
Proof.
  intros F. apply exec_none_matches. intros p' s' c' M.
  unfold re_string in M. cbn [cat] in M.
  apply matches_Cat_inv in M as (p1 & s1 & c1 & M1 & M).
  apply matches_Class_inv in M1 as (x & E1 & Hx & -> & ->).
  apply matches_Cat_Group_inv in M as (g & t1 & p2 & E2 & Mg & M);
    [|reflexivity].
  apply matches_Class_inv in M as (y & E3 & Hy & _ & _).
  unfold is_chr in Hy. apply N.eqb_eq in Hy. subst y.
  cbn [app] in E1. injection E1 as _ E1.
  rewrite E1, E2, E3 in F. apply forallb_app_r in F. cbn [forallb] in F.
  apply andb_true_iff in F as [F _]. unfold is_other in F.
  now rewrite N.eqb_refl in F.
Qed.

(** X10.  A quoted text is wrapped, quotes included, and the text around it is
    left as it is; a quote without a partner is left alone. *)
Theorem strings_quoted a body b :
  forallb (is_other dq) a = true ->
  forallb (is_other dq) body = true ->
  forallb (is_other dq) b = true ->
  strings (a ++ ([dq] ++ body ++ [dq]) ++ b)
  = a ++ span string_style ([dq] ++ body ++ [dq]) ++ b /\
  strings (a ++ [dq] ++ b) = a ++ [dq] ++ b.
Proof.
  intros Fa Fy Fb. unfold strings, replace, pieces. split.
  - rewrite scan_no_first; [|reflexivity|now apply no_quote_no_first].
    rewrite (scan_hit re_string _ _ b [(1, body)]);
      [|discriminate|now apply exec_string].
    rewrite <- (app_nil_r b) at 1.
    rewrite scan_no_first; [|reflexivity|now apply no_quote_no_first].
    rewrite scan_nil by reflexivity.
    rewrite render_plain_app by reflexivity. cbn [flat_map].
    rewrite render_plain_app by reflexivity.
    cbn [flat_map subst get find fst snd Nat.eqb option_map].
    unfold span. rewrite !app_nil_r. f_equal; same_text.
  - rewrite scan_no_first; [|reflexivity|now apply no_quote_no_first].
    rewrite scan_one_none by now apply exec_string_open.
    rewrite <- (app_nil_r b) at 1.
    rewrite scan_no_first; [|reflexivity|now apply no_quote_no_first].
    rewrite scan_nil by reflexivity.
    rewrite !render_plain_app by reflexivity.
    cbn [flat_map]. now rewrite app_nil_r.
Qed.

Lemma strings_quoted_witness :
  strings (lit "x = " ++ ([dq] ++ lit "a b" ++ [dq]) ++ lit ";")
  = lit "x = " ++ span string_style ([dq] ++ lit "a b" ++ [dq]) ++ lit ";" /\
  strings (lit "x = " ++ [dq] ++ lit ";") = lit "x = " ++ [dq] ++ lit ";".
Proof.
  apply (strings_quoted (lit "x = ") (lit "a b") (lit ";")); reflexivity.
Defined.

(** *** Liquid tags *)

Lemma reads_dash (present : bool) prev rest c :
  match rest with [] => True | x :: _ => is_chr (code "-") x = false end ->
  reads (Opt (Chr (code "-"))) prev (dash present) rest c c.
Proof.
  intros H. destruct present; cbn [dash].
  - apply reads_Or_l, reads_Chr.
  - apply reads_Opt_skip; [reflexivity|]. destruct rest; [exact I|exact H].
Qed.

(** How the tag pattern cuts [{% inner %}], with or without dashes. *)
Lemma exec_liquid_tag d1 d2 inner prev :
  inner <> [] ->
  forallb is_dot inner = true ->
  forallb (is_other (code "%")) inner = true ->
  forallb (is_other (code "-")) inner = true ->
  exec re_liquid_tag prev
    (((lit "{%" ++ dash d1) ++ inner ++ (dash d2 ++ lit "%}")) ++ [])
  = Some (length ((lit "{%" ++ dash d1) ++ inner ++ (dash d2 ++ lit "%}")),
          [(3, dash d2 ++ lit "%}"); (2, inner); (1, lit "{%" ++ dash d1)]).
Proof.
  intros Ni Fd Fp Fm. apply exec_of_reads. unfold re_liquid_tag. cbn [cat].
  eapply reads_Cat.
  { apply (reads_Group 1). eapply reads_Cat; [apply reads_Str|].
    apply reads_dash. destruct inner as [|x inner]; [congruence|].
    cbn [app forallb] in *. apply andb_true_iff in Fm as [Fm _].
    unfold is_other in Fm. unfold is_chr. now apply negb_true_iff. }
  apply reads_lazy_then.
  - exact Fd.
  - reflexivity.
  - clear - Fp Fm. induction inner as [|x inner IH]; [reflexivity|].
    cbn [forallb] in *.
    apply andb_true_iff in Fp as [Px Fp], Fm as [Mx Fm].
    rewrite (IH Fp Fm), andb_true_r. cbn -[N.eqb]. unfold is_chr.
    unfold is_other in Px, Mx. apply negb_true_iff in Px, Mx.
    change 45%N with (code "-"). change 37%N with (code "%").
    now rewrite Px, Mx.
  - apply (reads_Group 3). eapply reads_Cat; [|apply reads_Str].
    apply reads_dash. reflexivity.
Qed.

(** X11.  A Liquid tag [{% inner %}], with or without whitespace-control dashes:
    the two delimiters are wrapped in the delimiter colour, dash included,
    and the keyword pass runs on the text between them. *)
Theorem liquid_tags_delimiters d1 d2 inner :
  inner <> [] ->
  forallb is_dot inner = true ->
  forallb (is_other (code "%")) inner = true ->
  forallb (is_other (code "-")) inner = true ->
  liquid_tags ((lit "{%" ++ dash d1) ++ inner ++ (dash d2 ++ lit "%}"))
  = Returns (span delimiter_style (lit "{%" ++ dash d1)
             ++ keyword_pass inner
             ++ span delimiter_style (dash d2 ++ lit "%}")).
Proof.
  intros Ni Fd Fp Fm. unfold liquid_tags, replace_fn, pieces.
  rewrite <- (app_nil_r ((lit "{%" ++ dash d1) ++ inner ++ (dash d2 ++ lit "%}"))).
  rewrite (scan_hit re_liquid_tag None _ []
             [(3, dash d2 ++ lit "%}"); (2, inner); (1, lit "{%" ++ dash d1)]).
  - rewrite scan_nil by reflexivity.
    cbn [replace_pieces liquid_tag_cb get find fst snd Nat.eqb option_map bind show].
    unfold span, keyword_pass, delimiter_style. f_equal.
    rewrite app_nil_r. same_text.
  - destruct d1; discriminate.
  - now apply exec_liquid_tag.
Qed.

Lemma liquid_tags_delimiters_witness :
  liquid_tags ((lit "{%" ++ dash true) ++ lit " if x " ++ (dash false ++ lit "%}"))
  = Returns (span delimiter_style (lit "{%-")
             ++ (lit " " ++ span keyword_style (lit "if") ++ lit " x ")
             ++ span delimiter_style (lit "%}")).
Proof.
  rewrite (liquid_tags_delimiters true false (lit " if x "));
    [reflexivity|discriminate|reflexivity..].
Defined.

(** *** Whole words *)

(** A pass [\b(w1|w2|...)\b] leaves alone a run of word characters that is
    none of its words. *)
Lemma words_pass_other n l t w :
  nullable (words l) = false ->
  forallb is_word w = true -> ~ In w (map lit l) ->
  replace (cat [WordBoundary; Group n (words l); WordBoundary]) t w = w.
Proof.
  intros Nl W B.
  assert (Nr : nullable (cat [WordBoundary; Group n (words l); WordBoundary])
               = false).
  { cbn [cat nullable]. now rewrite Nl. }
  apply replace_no_hit. unfold pieces.
  rewrite <- (app_nil_r w) at 1. rewrite scan_plain.
  - rewrite scan_nil by exact Nr. apply app_nil_r.
  - intros a x b ->. rewrite app_nil_r.
    apply exec_bounded_in_word; [exact Nl|exact W|].
    intros prev c p' c' M. apply matches_words_inv in M as (w0 & I & E).
    rewrite app_nil_r in E. apply B. rewrite E. now apply in_map.
Qed.

(** X12.  Keywords are matched as whole words only: a run of word characters is
    wrapped in the keyword colour when it is one of the keywords of the
    source, and left alone otherwise, also when it contains one (as
    [format] contains [for]). *)
Theorem keyword_pass_whole_words w :
  forallb is_word w = true ->
  keyword_pass w
  = if in_dec (list_eq_dec N.eq_dec) w (map lit keywords)
    then span keyword_style w else w.
Proof.
  intros W. destruct (in_dec (list_eq_dec N.eq_dec) w (map lit keywords)) as [I|I].
  - clear W. cbn [map keywords In] in I.
    repeat (destruct I as [<-|I]; [vm_compute; reflexivity|]).
    destruct I.
  - now apply words_pass_other.
Qed.

Lemma keyword_pass_whole_words_witness :
  keyword_pass (lit "form") = span keyword_style (lit "form") /\
  keyword_pass (lit "format") = lit "format".
Proof.
  split.
  - now rewrite (keyword_pass_whole_words (lit "form")).
  - now rewrite (keyword_pass_whole_words (lit "format")).
Defined.

(** X13.  A bare word (no underscore, not a number) comes out of [highlightLine]
    wrapped in the boolean colour when it is [true], [false], [nil] or
    [null], and unchanged otherwise. *)
Theorem highlightLine_bare_word w :
  forallb is_word w = true ->
  forallb is_digit w = false ->
  existsb (is_chr (code "_")) w = false ->
  highlightLine w
  = Returns (if in_dec (list_eq_dec N.eq_dec) w
                  (map lit ["true"; "false"; "nil"; "null"]%string)
             then span boolean_style w else w).
Proof.
  intros W D U.
  destruct (in_dec (list_eq_dec N.eq_dec) w
              (map lit ["true"; "false"; "nil"; "null"]%string)) as [I|I].
  - clear - I. cbn [map In] in I.
    repeat (destruct I as [<-|I]; [vm_compute; reflexivity|]).
    destruct I.
  - now apply highlightLine_word.
Qed.

Lemma highlightLine_bare_word_witness :
  highlightLine (lit "null") = Returns (span boolean_style (lit "null")) /\
  highlightLine (lit "nullable") = Returns (lit "nullable").
Proof.
  split.
  - now rewrite (highlightLine_bare_word (lit "null")).
  - now rewrite (highlightLine_bare_word (lit "nullable")).
Defined.

(** *** Liquid output *)

Lemma exec_liquid_output d1 d2 inner prev :
  inner <> [] ->
  forallb is_dot inner = true ->
  forallb (is_other (code "}")) inner = true ->
  forallb (is_other (code "-")) inner = true ->
  exec re_liquid_output prev
    (((lit "{{" ++ dash d1) ++ inner ++ (dash d2 ++ lit "}}")) ++ [])
  = Some (length ((lit "{{" ++ dash d1) ++ inner ++ (dash d2 ++ lit "}}")),
          [(3, dash d2 ++ lit "}}"); (2, inner); (1, lit "{{" ++ dash d1)]).
Proof.
  intros Ni Fd Fp Fm. apply exec_of_reads. unfold re_liquid_output. cbn [cat].
  eapply reads_Cat.
  { apply (reads_Group 1). eapply reads_Cat; [apply reads_Str|].
    apply reads_dash. destruct inner as [|x inner]; [congruence|].
    cbn [app forallb] in *. apply andb_true_iff in Fm as [Fm _].
    unfold is_other in Fm. unfold is_chr. now apply negb_true_iff. }
  apply reads_lazy_then.
  - exact Fd.
  - reflexivity.
  - clear - Fp Fm. induction inner as [|x inner IH]; [reflexivity|].
    cbn [forallb] in *.
    apply andb_true_iff in Fp as [Px Fp], Fm as [Mx Fm].
    rewrite (IH Fp Fm), andb_true_r. cbn -[N.eqb]. unfold is_chr.
    unfold is_other in Px, Mx. apply negb_true_iff in Px, Mx.
    change 45%N with (code "-"). change 125%N with (code "}").
    now rewrite Px, Mx.
  - apply (reads_Group 3). eapply reads_Cat; [|apply reads_Str].
    apply reads_dash. reflexivity.
Qed.

(** X14.  A Liquid output [{{ inner }}], with or without whitespace-control
    dashes: the delimiters are wrapped in the delimiter colour, and the text
    between them, after the filter pass, in the output colour. *)
Theorem liquid_output_delimiters d1 d2 inner :
  inner <> [] ->
  forallb is_dot inner = true ->
  forallb (is_other (code "}")) inner = true ->
  forallb (is_other (code "-")) inner = true ->
  liquid_output ((lit "{{" ++ dash d1) ++ inner ++ (dash d2 ++ lit "}}"))
  = Returns (span delimiter_style (lit "{{" ++ dash d1)
             ++ span output_style (filter_pass inner)
             ++ span delimiter_style (dash d2 ++ lit "}}")).
Proof.
  intros Ni Fd Fp Fm. unfold liquid_output, replace_fn, pieces.
  rewrite <- (app_nil_r ((lit "{{" ++ dash d1) ++ inner ++ (dash d2 ++ lit "}}"))).
  rewrite (scan_hit re_liquid_output None _ []
             [(3, dash d2 ++ lit "}}"); (2, inner); (1, lit "{{" ++ dash d1)]).
  - rewrite scan_nil by reflexivity.
    cbn [replace_pieces liquid_output_cb get find fst snd Nat.eqb option_map bind show].
    unfold span, filter_pass, delimiter_style, output_style. f_equal.
    rewrite app_nil_r. same_text.
  - destruct d1; discriminate.
  - now apply exec_liquid_output.
Qed.

Lemma liquid_output_delimiters_witness :
  liquid_output ((lit "{{" ++ dash false) ++ lit " x | upcase " ++ (dash true ++ lit "}}"))
  = Returns (span delimiter_style (lit "{{")
             ++ span output_style
                  (lit " x | " ++ span filter_style (lit "upcase") ++ lit " ")
             ++ span delimiter_style (lit "-}}")).
Proof.
  rewrite (liquid_output_delimiters false true (lit " x | upcase "));
    [reflexivity|discriminate|reflexivity..].
Defined.

(** *** Filters *)

Lemma space_not_word x : is_space x = true -> is_word x = false.
Proof.
  intros H. destruct (is_word x) eqn:W; [exfalso|reflexivity].
  apply word_range in W. revert H.
  unfold is_space, between.
  repeat match goal with
  | |- context [N.eqb x ?n] =>
      destruct (N.eqb_spec x n) as [->|_]; [exfalso; clear - W; lia|]
  end.
  cbn [orb]. rewrite !orb_false_r.
  intros H. apply orb_true_iff in H as [H|H];
    apply andb_true_iff in H as [H1 H2]; apply N.leb_le in H1, H2; lia.
Qed.

Lemma exec_filter prev ws name rest :
  forallb is_space ws = true ->
  name <> [] -> forallb is_word name = true ->
  word_after rest = false ->
  exec re_filter prev (([code "|"] ++ ws ++ name) ++ rest)
  = Some (length ([code "|"] ++ ws ++ name), [(1, name)]).
Proof.
  intros Fs Nn Fw R. apply exec_of_reads. unfold re_filter. cbn [cat].
  destruct name as [|x name]; [congruence|].
  cbn [forallb] in Fw. apply andb_true_iff in Fw as [Wx Fw].
  eapply reads_Cat; [apply reads_Chr|].
  eapply reads_Cat.
  { apply reads_Rep_greedy; [exact Fs|]. cbn [app].
    destruct (is_space x) eqn:S; [|reflexivity].
    apply space_not_word in S. congruence. }
  apply (reads_Group 1). unfold Plus.
  change (x :: name) with ([x] ++ name).
  eapply reads_Cat; [now apply reads_Class|].
  apply reads_Rep_greedy; [exact Fw|].
  destruct rest as [|y rest]; [exact I|exact R].
Qed.

Lemma no_bar_no_first a :
  forallb (is_other (code "|")) a = true ->
  forallb (fun x => negb (first re_filter x)) a = true.
Proof.
  apply forallb_weaken. intros x Hx. cbn -[N.eqb].
  unfold is_chr. unfold is_other in Hx. change 124%N with (code "|").
  now rewrite orb_false_r.
Qed.

(** X15.  A filter [| name]: the name is wrapped in the filter colour, and
    whatever blanks stand between the bar and the name in the line, one
    blank is written between them. *)
Theorem filter_pass_one_blank a ws name b :
  forallb (is_other (code "|")) a = true ->
  forallb is_space ws = true ->
  name <> [] -> forallb is_word name = true ->
  forallb (is_other (code "|")) b = true ->
  word_after b = false ->
  filter_pass (a ++ ([code "|"] ++ ws ++ name) ++ b)
  = a ++ (lit "| " ++ span filter_style name) ++ b.
Proof.
  intros Fa Fs Nn Fw Fb Wb. unfold filter_pass, replace, pieces.
  rewrite scan_no_first; [|reflexivity|now apply no_bar_no_first].
  rewrite (scan_hit re_filter _ _ b [(1, name)]);
    [|discriminate|now apply exec_filter].
  rewrite <- (app_nil_r b) at 1.
  rewrite scan_no_first; [|reflexivity|now apply no_bar_no_first].
  rewrite scan_nil by reflexivity.
  rewrite render_plain_app by reflexivity. cbn [flat_map].
  rewrite render_plain_app by reflexivity.
  cbn [flat_map subst get find fst snd Nat.eqb option_map].
  unfold span, filter_style. rewrite !app_nil_r. f_equal; same_text.
Qed.

Lemma filter_pass_one_blank_witness :
  filter_pass (lit " x " ++ ([code "|"] ++ lit "   " ++ lit "upcase") ++ lit " ")
  = lit " x " ++ (lit "| " ++ span filter_style (lit "upcase")) ++ lit " " /\
  filter_pass (lit " x " ++ ([code "|"] ++ [] ++ lit "upcase") ++ lit " ")
  = lit " x " ++ (lit "| " ++ span filter_style (lit "upcase")) ++ lit " ".
Proof.
  split.
  - apply (filter_pass_one_blank (lit " x ") (lit "   ") (lit "upcase") (lit " "));
      try reflexivity. discriminate.
  - apply (filter_pass_one_blank (lit " x ") [] (lit "upcase") (lit " "));
      try reflexivity. discriminate.
Defined.

(** *** JSON keys *)

(** A lazy [+?] in a group reads [x :: m] when the rest of the pattern
    cannot begin at any character of [m]. *)
Lemma reads_lazy_plus_then n p r2 prev x m m2 rest c c2 :
  p x = true -> forallb p m = true ->
  nullable r2 = false ->
  forallb (fun y => negb (first r2 y)) m = true ->
  reads r2 (prev_after prev (x :: m)) m2 rest (set n (x :: m) c) c2 ->
  reads (Cat (Group n (Plus false p)) r2) prev ((x :: m) ++ m2) rest c c2.
Proof.
  intros Px F N NF R A k a K. unfold Plus. cbn [app run]. rewrite Px.
  rewrite <- app_assoc.
  rewrite rep_lazy_skip; [|exact F|].
  - apply rep_lazy_stop.
    change (x :: m ++ m2 ++ rest) with ((x :: m) ++ m2 ++ rest).
    rewrite consumed_app. apply R.
    now rewrite <- prev_after_app.
  - intros a0 y b c0 ->. apply run_none_first; [exact N|].
    apply forallb_app_r in NF. cbn [forallb] in NF.
    apply andb_true_iff in NF as [NF _]. now apply negb_true_iff.
Qed.

Lemma word_or_dash_not_quote key :
  forallb is_word_or_dash key = true ->
  forallb (fun y => negb (is_chr dq y)) key = true.
Proof.
  apply forallb_weaken. intros y Hy. unfold is_word_or_dash in Hy.
  unfold is_chr, dq. apply orb_true_iff in Hy as [Hy|Hy].
  - not_a_word Hy.
  - apply N.eqb_eq in Hy. now subst y.
Qed.

Lemma exec_json_key prev key ws rest :
  key <> [] -> forallb is_word_or_dash key = true ->
  forallb is_space ws = true ->
  exec re_json_key prev (([dq] ++ key ++ [dq] ++ ws ++ [code ":"]) ++ rest)
  = Some (length ([dq] ++ key ++ [dq] ++ ws ++ [code ":"]), [(1, key)]).
Proof.
  intros Nk Fk Fs. apply exec_of_reads. unfold re_json_key. cbn [cat].
  destruct key as [|x key]; [congruence|].
  pose proof (word_or_dash_not_quote _ Fk) as Q.
  cbn [forallb] in Fk, Q.
  apply andb_true_iff in Fk as [Kx Fk], Q as [_ Q].
  eapply reads_Cat; [apply reads_Chr|].
  apply reads_lazy_plus_then; [exact Kx|exact Fk|reflexivity| |].
  { revert Q. apply forallb_weaken. intros y Hy. cbn -[N.eqb is_chr].
    now rewrite orb_false_r. }
  eapply reads_Cat; [apply reads_Chr|].
  eapply reads_Cat; [|apply reads_Chr].
  apply reads_Rep_greedy; [exact Fs|reflexivity].
Qed.

Lemma no_quote_no_key a :
  forallb (is_other dq) a = true ->
  forallb (fun x => negb (first re_json_key x)) a = true.
Proof.
  apply forallb_weaken. intros x Hx. cbn -[N.eqb].
  unfold is_chr. unfold is_other in Hx. now rewrite orb_false_r.
Qed.

(** X16.  A key ["key":] is wrapped in the key colour, quotes included, and the
    colon follows the span at once: blanks between the closing quote and
    the colon are dropped. *)
Theorem json_keys_colon a key ws b :
  forallb (is_other dq) a = true ->
  key <> [] -> forallb is_word_or_dash key = true ->
  forallb is_space ws = true ->
  forallb (is_other dq) b = true ->
  json_keys (a ++ ([dq] ++ key ++ [dq] ++ ws ++ [code ":"]) ++ b)
  = a ++ (span key_style ([dq] ++ key ++ [dq]) ++ [code ":"]) ++ b.
Proof.
  intros Fa Nk Fk Fs Fb. unfold json_keys, replace, pieces.
  rewrite scan_no_first; [|reflexivity|now apply no_quote_no_key].
  rewrite (scan_hit re_json_key _ _ b [(1, key)]);
    [|discriminate|now apply exec_json_key].
  rewrite <- (app_nil_r b) at 1.
  rewrite scan_no_first; [|reflexivity|now apply no_quote_no_key].
  rewrite scan_nil by reflexivity.
  rewrite render_plain_app by reflexivity. cbn [flat_map].
  rewrite render_plain_app by reflexivity.
  cbn [flat_map subst get find fst snd Nat.eqb option_map].
  unfold span, key_style. rewrite !app_nil_r. f_equal; same_text.
Qed.

Lemma json_keys_colon_witness :
  json_keys (lit "{ " ++ ([dq] ++ lit "max-width" ++ [dq] ++ lit "  " ++ [code ":"])
             ++ lit " 1 }")
  = lit "{ " ++ (span key_style ([dq] ++ lit "max-width" ++ [dq]) ++ [code ":"])
    ++ lit " 1 }".
Proof.
  apply (json_keys_colon (lit "{ ") (lit "max-width") (lit "  ") (lit " 1 }"));
    try reflexivity. discriminate.
Defined.

(** *** Tags without attributes *)

Lemma word_or_dash_not_slash x :
  is_word_or_dash x = true -> is_chr (code "/") x = false.
Proof.
  intros H. unfold is_word_or_dash in H. unfold is_chr.
  apply orb_true_iff in H as [H|H].
  - not_a_word H.
  - apply N.eqb_eq in H. now subst x.
Qed.

Lemma exec_html_tag_simple sl name prev :
  name <> [] -> forallb is_word_or_dash name = true ->
  exec re_html_tag prev (((lit "&lt;" ++ slash sl) ++ name ++ [] ++ lit "&gt;") ++ [])
  = Some (length ((lit "&lt;" ++ slash sl) ++ name ++ [] ++ lit "&gt;"),
          [(4, lit "&gt;"); (3, []); (2, name); (1, lit "&lt;" ++ slash sl)]).
Proof.
  intros Nn Fn. apply exec_of_reads. unfold re_html_tag. cbn [cat].
  destruct name as [|x name]; [congruence|].
  cbn [forallb] in Fn. apply andb_true_iff in Fn as [Nx Fn].
  eapply reads_Cat.
  { apply (reads_Group 1). eapply reads_Cat; [apply reads_Str|].
    destruct sl; cbn [slash].
    - apply reads_Or_l, reads_Chr.
    - apply reads_Opt_skip; [reflexivity|]. cbn [app first Chr].
      now apply word_or_dash_not_slash. }
  eapply reads_Cat.
  { apply (reads_Group 2). unfold Plus.
    change (x :: name) with ([x] ++ name).
    eapply reads_Cat; [now apply reads_Class|].
    apply reads_Rep_greedy; [exact Fn|reflexivity]. }
  apply reads_lazy_then; [reflexivity|reflexivity|reflexivity|].
  apply (reads_Group 4). apply reads_Str.
Qed.

(** X17.  A tag without attributes, opening or closing: the bracket (with the
    slash of a closing tag) and the closing bracket are wrapped in the
    bracket colour, the name in the tag-name colour. *)
Theorem html_tags_no_attributes sl name :
  name <> [] -> forallb is_word_or_dash name = true ->
  html_tags ((lit "&lt;" ++ slash sl) ++ name ++ lit "&gt;")
  = Returns (span bracket_style (lit "&lt;" ++ slash sl)
             ++ span tag_name_style name
             ++ span bracket_style (lit "&gt;")).
Proof.
  intros Nn Fn. unfold html_tags, replace_fn, pieces.
  replace ((lit "&lt;" ++ slash sl) ++ name ++ lit "&gt;")
    with (((lit "&lt;" ++ slash sl) ++ name ++ [] ++ lit "&gt;") ++ [])
    by now rewrite app_nil_r.
  rewrite (scan_hit re_html_tag None _ []
             [(4, lit "&gt;"); (3, []); (2, name); (1, lit "&lt;" ++ slash sl)]).
  - rewrite scan_nil by reflexivity.
    cbn [replace_pieces html_tag_cb get find fst snd Nat.eqb option_map bind show].
    change (replace re_attr _ []) with (@nil char).
    unfold span, bracket_style, tag_name_style. f_equal.
    rewrite app_nil_r. cbn [app]. same_text.
  - destruct sl; discriminate.
  - now apply exec_html_tag_simple.
Qed.

Lemma html_tags_no_attributes_witness :
  html_tags ((lit "&lt;" ++ slash true) ++ lit "my-tag" ++ lit "&gt;")
  = Returns (span bracket_style (lit "&lt;/")
             ++ span tag_name_style (lit "my-tag")
             ++ span bracket_style (lit "&gt;")).
Proof.
  apply (html_tags_no_attributes true (lit "my-tag")); [discriminate|reflexivity].
Defined.

(** *** HTML comments *)

Lemma comment_char_other a x :
  existsb (N.eqb a) (lit "&<>{-") = true ->
  comment_char x = true -> N.eqb x a = false.
Proof.
  intros Ha H. unfold comment_char in H. apply andb_true_iff in H as [_ H].
  apply negb_true_iff in H. destruct (N.eqb_spec x a) as [->|]; [|reflexivity].
  congruence.
Qed.

Lemma escape_comment_text t : forallb comment_char t = true -> escape t = t.
Proof.
  intros F. rewrite escape_flat_map. apply flat_map_singleton.
  intros x Hx. apply (forallb_In _ _ _ _ F) in Hx. unfold escape_char.
  rewrite (comment_char_other (code "&") x eq_refl Hx).
  rewrite (comment_char_other (code "<") x eq_refl Hx).
  now rewrite (comment_char_other (code ">") x eq_refl Hx).
Qed.

(** No pattern that begins with [a] begins in a comment text, when [a] is
    one of the characters a comment text does not have. *)
Lemma comment_text_no_first r a t :
  (forall x, first r x = is_chr a x) ->
  existsb (N.eqb a) (lit "&<>{-") = true ->
  forallb comment_char t = true ->
  forallb (fun x => negb (first r x)) t = true.
Proof.
  intros Hr Ha. apply forallb_weaken. intros x Hx. rewrite Hr. unfold is_chr.
  now rewrite (comment_char_other a x Ha Hx).
Qed.

Lemma first_liquid_tag x : first re_liquid_tag x = is_chr (code "{") x.
Proof. cbn -[N.eqb is_chr]. now rewrite !orb_false_r. Qed.

Lemma first_liquid_output x : first re_liquid_output x = is_chr (code "{") x.
Proof. cbn -[N.eqb is_chr]. now rewrite !orb_false_r. Qed.

Lemma first_html_tag x : first re_html_tag x = is_chr (code "&") x.
Proof. cbn -[N.eqb is_chr]. now rewrite !orb_false_r. Qed.

Lemma first_comment_end x :
  first (Group 3 (Str (lit "--&gt;"))) x = is_chr (code "-") x.
Proof. cbn -[N.eqb is_chr]. now rewrite !orb_false_r. Qed.

(** X18.  An HTML comment is wrapped as a whole in the comment colour, and is not
    taken for a tag. *)
Theorem structural_html_comment t :
  forallb comment_char t = true ->
  structural (escape (lit "<!--" ++ t ++ lit "-->"))
  = Returns (span comment_style (lit "&lt;!--" ++ t ++ lit "--&gt;")).
Proof.
  intros F. rewrite !escape_app, (escape_comment_text _ F).
  change (escape (lit "<!--")) with (lit "&lt;!--").
  change (escape (lit "-->")) with (lit "--&gt;").
  assert (Dot : forallb is_dot t = true).
  { revert F. apply forallb_weaken. intros x Hx. unfold comment_char in Hx.
    now apply andb_true_iff in Hx. }
  unfold structural, liquid_tags, liquid_output, html_tags.
  rewrite replace_fn_no_hit.
  2:{ apply pieces_no_first; [reflexivity|].
      rewrite !forallb_app. apply andb_true_iff. split; [reflexivity|].
      apply andb_true_iff. split; [|reflexivity].
      exact (comment_text_no_first _ _ t first_liquid_tag eq_refl F). }
  cbn [bind].
  rewrite replace_fn_no_hit.
  2:{ apply pieces_no_first; [reflexivity|].
      rewrite !forallb_app. apply andb_true_iff. split; [reflexivity|].
      apply andb_true_iff. split; [|reflexivity].
      exact (comment_text_no_first _ _ t first_liquid_output eq_refl F). }
  cbn [bind].
  rewrite replace_fn_no_hit.
  2:{ unfold pieces.
      rewrite scan_no_match_in by reflexivity.
      rewrite scan_no_first;
        [|reflexivity|exact (comment_text_no_first _ _ t first_html_tag eq_refl F)].
      rewrite <- (app_nil_r (lit "--&gt;")) at 1.
      rewrite scan_no_match_in by reflexivity.
      rewrite scan_nil by reflexivity.
      now rewrite app_nil_r, !map_app. }
  cbn [bind]. f_equal. unfold html_comments, replace, pieces.
  replace (lit "&lt;!--" ++ t ++ lit "--&gt;")
    with ((lit "&lt;!--" ++ t ++ lit "--&gt;") ++ []) at 1
    by apply app_nil_r.
  rewrite (scan_hit re_comment None _ []
             [(3, lit "--&gt;"); (2, t); (1, lit "&lt;!--")]).
  - rewrite scan_nil by reflexivity.
    cbn [flat_map subst get find fst snd Nat.eqb option_map].
    unfold span, comment_style. rewrite !app_nil_r. same_text.
  - discriminate.
  - apply exec_of_reads. unfold re_comment. cbn [cat].
    eapply reads_Cat; [apply (reads_Group 1), reads_Str|].
    apply reads_lazy_then; [exact Dot|reflexivity| |].
    + exact (comment_text_no_first _ _ t first_comment_end eq_refl F).
    + apply (reads_Group 3). apply reads_Str.
Qed.

Lemma structural_html_comment_witness :
  structural (escape (lit "<!--" ++ lit " a div, 2 spans " ++ lit "-->"))
  = Returns (span comment_style (lit "&lt;!-- a div, 2 spans --&gt;")).
Proof.
  apply (structural_html_comment (lit " a div, 2 spans ")). reflexivity.
Defined.

(* ------------------------------------------------------------------ *)
(** ** The number pass in context *)

(** *** A pattern does not look beyond a character it cannot read *)

Lemma consumed_local (u v : str) y rest :
  consumed (u ++ y :: rest) (v ++ y :: rest) = firstn (length u - length v) u.
Proof.
  unfold consumed. rewrite !length_app. cbn [length].
  replace (length u + S (length rest) - (length v + S (length rest)))
    with (length u - length v) by lia.
  rewrite firstn_app.
  replace (length u - length v - length u) with 0 by lia.
  cbn [firstn]. apply app_nil_r.
Qed.

Section Local.
Variable A : Type.
Variable y : char.
Variables rest rest' : str.

Lemma rep_local g p : forall u prev c (k k' : cont A),
  p y = false ->
  (forall prev' v c', k prev' (v ++ y :: rest) c' = k' prev' (v ++ y :: rest') c') ->
  rep g p prev (u ++ y :: rest) c k = rep g p prev (u ++ y :: rest') c k'.
Proof.
  induction u as [|x u IH]; intros prev c k k' Py K.
  - cbn [app rep]. rewrite Py. apply (K prev [] c).
  - cbn [app rep]. rewrite (IH (Some x) c k k' Py K).
    pose proof (K prev (x :: u) c) as K0. cbn [app] in K0. rewrite K0.
    reflexivity.
Qed.

Lemma run_local r : forall u prev c (k k' : cont A),
  avoids y r = true ->
  (forall prev' v c', k prev' (v ++ y :: rest) c' = k' prev' (v ++ y :: rest') c') ->
  run r prev (u ++ y :: rest) c k = run r prev (u ++ y :: rest') c k'.
Proof.
  induction r as [|p|r1 IH1 r2 IH2|r1 IH1 r2 IH2|g p|n r1 IH1|];
    intros u prev c k k' Av K; cbn [avoids] in Av.
  - cbn [run]. apply K.
  - apply negb_true_iff in Av. destruct u as [|x u]; cbn [app run].
    + now rewrite Av.
    + destruct (p x); [apply K|reflexivity].
  - apply andb_true_iff in Av as [A1 A2]. cbn [run].
    apply IH1; [exact A1|]. intros prev' v c'. now apply IH2.
  - apply andb_true_iff in Av as [A1 A2]. cbn [run].
    rewrite (IH1 u prev c k k' A1 K), (IH2 u prev c k k' A2 K). reflexivity.
  - apply negb_true_iff in Av. cbn [run]. now apply rep_local.
  - cbn [run]. apply IH1; [exact Av|]. intros prev' v c'.
    rewrite !consumed_local. apply K.
  - cbn [run]. destruct u as [|x u]; cbn [app word_after];
      destruct (xorb _ _); try reflexivity.
    + apply (K prev [] c).
    + apply (K prev (x :: u) c).
Qed.
End Local.

Lemma exec_local r y u prev rest rest' :
  avoids y r = true ->
  exec r prev (u ++ y :: rest) = exec r prev (u ++ y :: rest').
Proof.
  intros Av. unfold exec. apply run_local; [exact Av|].
  intros prev' v c'. rewrite !length_app. cbn [length].
  do 2 f_equal. lia.
Qed.

Lemma avoids_first y r : avoids y r = true -> first r y = false.
Proof.
  induction r; cbn [avoids first]; intros Av.
  - reflexivity.
  - now apply negb_true_iff.
  - apply andb_true_iff in Av as [A1 A2].
    rewrite IHr1, IHr2 by assumption. now rewrite andb_false_r.
  - apply andb_true_iff in Av as [A1 A2]. now rewrite IHr1, IHr2.
  - now apply negb_true_iff.
  - auto.
  - reflexivity.
Qed.

(** A match that begins in front of [y] ends in front of it. *)
Lemma exec_stops_before r y u prev rest len c :
  avoids y r = true ->
  exec r prev (u ++ y :: rest) = Some (len, c) -> len <= length u.
Proof.
  intros Av E. apply exec_sound in E as (m & s' & p' & E & -> & M).
  pose proof (matches_avoids y _ _ _ _ _ _ _ M Av m E) as F.
  symmetry in E. apply app_eq_app in E as [l [[E1 E2]|[E1 E2]]].
  - subst m. destruct l as [|z l].
    + rewrite app_nil_r. lia.
    + exfalso. cbn [app] in E2. injection E2 as <- _.
      apply forallb_app_r in F. cbn [forallb] in F.
      apply andb_true_iff in F as [F _]. unfold is_other in F.
      now rewrite N.eqb_refl in F.
  - subst u. rewrite length_app. lia.
Qed.

(** The scan of a text up to a character the pattern cannot read does not
    depend on what follows. *)
Lemma scan_local r y rest :
  avoids y r = true -> nullable r = false ->
  forall u prev k, k <= length u ->
    scan r prev (u ++ y :: rest) k
    = scan r prev (u ++ [y]) k ++ scan r (Some y) rest 0.
Proof.
  intros Av N. induction u as [|x u IH]; intros prev k L.
  - cbn [length] in L. replace k with 0 by lia. cbn [app scan].
    rewrite !exec_none_first;
      try exact N; try exact I; try (cbn; now apply avoids_first).
    reflexivity.
  - destruct k as [|k].
    + cbn [app scan].
      pose proof (exec_local r y (x :: u) prev rest [] Av) as EL.
      cbn [app] in EL. rewrite EL.
      destruct (exec r prev (x :: u ++ [y])) as [[len c]|] eqn:E.
      * assert (Hl : len <= length (x :: u)).
        { apply (exec_stops_before r y (x :: u) prev [] len c Av E). }
        cbn [app]. f_equal.
        -- change (x :: u ++ y :: rest) with ((x :: u) ++ y :: rest).
           change (x :: u ++ [y]) with ((x :: u) ++ [y]).
           rewrite !firstn_app.
           replace (len - length (x :: u)) with 0 by lia. reflexivity.
        -- destruct len as [|n].
           ++ cbn [app]. f_equal. apply IH. lia.
           ++ apply IH. cbn [length] in Hl. lia.
      * cbn [app]. f_equal. apply IH. lia.
    + cbn [app scan]. apply IH. cbn [length] in L. lia.
Qed.

(** *** A token between two delimiters *)

Lemma digits_or_dots_in_word m :
  forallb (fun x => is_digit x || is_chr (code ".") x) m = true ->
  forallb is_word m = true -> forallb is_digit m = true.
Proof.
  induction m as [|y l IH]; [reflexivity|]. cbn [forallb]. intros F W.
  apply andb_true_iff in F as [Fy F], W as [Wy W].
  rewrite (IH F W), andb_true_r.
  destruct (is_digit y); [reflexivity|]. cbn [orb] in Fy.
  apply dot_not_word in Fy. congruence.
Qed.

(** Inside a run of word characters that is not all digits, no match of
    the number pattern begins, whatever follows the run. *)
Lemma exec_number_in_token prev0 a x b rest :
  word_before prev0 = false ->
  forallb is_word (a ++ x :: b) = true ->
  forallb is_digit (a ++ x :: b) = false ->
  exec re_number (prev_after prev0 a) (x :: b ++ rest) = None.
Proof.
  intros P0 W D. apply exec_none_matches. intros p' s' c' M.
  apply matches_number_inv in M as (m & E & Nm & F & B1 & B2).
  pose proof (forallb_app_l _ _ _ _ W) as Wa.
  pose proof (forallb_app_r _ _ _ _ W) as Wxb.
  assert (a = []) as ->.
  { destruct a as [|y a]; [reflexivity|exfalso].
    rewrite word_before_after in B1 by (auto; discriminate).
    cbn [forallb] in Wxb. apply andb_true_iff in Wxb as [Wx _].
    cbn [word_after] in B1. now rewrite Wx in B1. }
  cbn [app prev_after fold_left] in *.
  change (x :: b ++ rest) with ((x :: b) ++ rest) in E.
  apply app_eq_app in E as [l [[E1 E2]|[E1 E2]]].
  - (* the match would stop inside the run *)
    destruct l as [|z l].
    + rewrite app_nil_r in E1. subst m.
      rewrite (digits_or_dots_in_word _ F Wxb) in D. discriminate.
    + rewrite E1 in Wxb. subst s'.
      change (fold_left (fun _ y => Some y) m prev0) with (prev_after prev0 m) in B2.
      rewrite word_before_after in B2 by (eauto using forallb_app_l).
      apply forallb_app_r in Wxb. cbn [forallb] in Wxb.
      apply andb_true_iff in Wxb as [Wz _].
      cbn [app word_after] in B2. now rewrite Wz in B2.
  - (* the match would cover the run *)
    subst m. apply forallb_app_l in F.
    rewrite (digits_or_dots_in_word _ F Wxb) in D. discriminate.
Qed.

Lemma scan_prev_irrelevant r prev prev' b :
  nullable r = false ->
  match b with [] => True | z :: _ => first r z = false end ->
  scan r prev b 0 = scan r prev' b 0.
Proof.
  intros N F. destruct b as [|z b].
  - now rewrite !scan_nil.
  - cbn [scan]. now rewrite !exec_none_first.
Qed.

Lemma apart_not_first z : apart z = true -> first re_number z = false.
Proof.
  unfold apart. intros H. apply andb_true_iff in H as [W _].
  apply negb_true_iff in W. cbn -[is_digit is_chr].
  destruct (is_digit z) eqn:D; [|reflexivity].
  apply digit_is_word in D. congruence.
Qed.

Lemma apart_avoided y : apart y = true -> avoids y re_number = true.
Proof.
  unfold apart. intros H. apply andb_true_iff in H as [W Dt].
  apply negb_true_iff in W.
  assert (D : is_digit y = false).
  { destruct (is_digit y) eqn:D; [|reflexivity].
    apply digit_is_word in D. congruence. }
  cbn -[is_digit is_chr]. change 46%N with (code "."). now rewrite D, Dt.
Qed.

(** The number pass on a token and what follows it. *)
Lemma numbers_token prev0 t b :
  word_before prev0 = false ->
  t <> [] -> forallb is_word t = true -> begins_apart b = true ->
  flat_map (fun p => match p with
                     | Plain x => [x]
                     | Hit _ c =>
                         subst [T (sq "<span style='color:#0550ae'>"); Ref 1;
                                T (lit "</span>")] c
                     end)
    (scan re_number prev0 (t ++ b) 0)
  = (if forallb is_digit t then span number_style t else t) ++ numbers b.
Proof.
  intros P0 Nt W Bb.
  assert (Fb : match b with [] => True | z :: _ => first re_number z = false end).
  { destruct b as [|z b]; [exact I|]. now apply apart_not_first. }
  destruct (forallb is_digit t) eqn:D.
  - rewrite (scan_hit re_number prev0 t b [(1, t)]); [|exact Nt|].
    + cbn [flat_map subst get find fst snd Nat.eqb option_map].
      rewrite (scan_prev_irrelevant re_number _ None b eq_refl Fb).
      unfold span, number_style, numbers, replace, pieces.
      rewrite !app_nil_r. same_text.
    + apply exec_number; auto.
      destruct b as [|z b]; [exact I|]. cbn [begins_apart] in Bb.
      unfold apart in Bb. apply andb_true_iff in Bb as [B1 B2].
      now apply negb_true_iff in B1, B2.
  - rewrite scan_plain.
    + rewrite render_plain_app by reflexivity.
      rewrite (scan_prev_irrelevant re_number _ None b eq_refl Fb).
      reflexivity.
    + intros a x b0 ->. now apply exec_number_in_token.
Qed.

(** X19.  The number pass in context.  In any text, a token (a run of word
    characters, in the sense of the pattern: letters A-Z and a-z, digits and
    the underscore) that stands between characters that are neither word
    characters nor dots, or at an end of the text, is wrapped in the number
    colour when it is all digits, and is left alone otherwise, digits
    included; the text before and the text after it are treated as they
    are on their own. *)
Theorem numbers_token_in_context a t b :
  ends_apart a = true ->
  t <> [] -> forallb is_word t = true ->
  begins_apart b = true ->
  numbers (a ++ t ++ b)
  = numbers a
    ++ (if forallb is_digit t then span number_style t else t)
    ++ numbers b.
Proof.
  intros Ea Nt W Bb. unfold ends_apart in Ea.
  destruct (rev a) as [|y ra] eqn:R.
  - assert (a = []) as ->.
    { rewrite <- (rev_involutive a), R. reflexivity. }
    change (numbers []) with (@nil char). cbn [app].
    unfold numbers at 1, replace, pieces.
    now apply numbers_token.
  - assert (a = rev ra ++ [y]) as ->.
    { rewrite <- (rev_involutive a), R. reflexivity. }
    unfold numbers at 1 2, replace, pieces.
    rewrite <- app_assoc. cbn [app].
    rewrite (scan_local re_number y (t ++ b) (apart_avoided y Ea) eq_refl)
      by lia.
    rewrite flat_map_app. f_equal.
    apply numbers_token; auto.
    unfold apart in Ea. apply andb_true_iff in Ea as [Wy _].
    cbn [word_before]. now apply negb_true_iff.
Qed.

Lemma numbers_token_in_context_witness :
  numbers (lit "x " ++ lit "123" ++ lit " y")
  = lit "x " ++ span number_style (lit "123") ++ lit " y" /\
  numbers (lit "w=7, " ++ lit "item123" ++ lit ";")
  = (lit "w=" ++ span number_style (lit "7") ++ lit ", ") ++ lit "item123" ++ lit ";".
Proof.
  split.
  - apply (numbers_token_in_context (lit "x ") (lit "123") (lit " y"));
      try reflexivity. discriminate.
  - apply (numbers_token_in_context (lit "w=7, ") (lit "item123") (lit ";"));
      try reflexivity. discriminate.
Defined.

(* ------------------------------------------------------------------ *)
(** ** The mask table holds markup *)

(** *** Only markup characters inside tags *)



(** Outside a tag less is asked than inside. *)
Lemma state_after_le a : forall i, state_after false a = true -> state_after i a = true.
Proof.
  induction a as [|x a IH]; intros i; [discriminate|].
  unfold state_after. cbn [fold_left].
  destruct (N.eqb x (code "<")); [auto|].
  destruct (N.eqb x (code ">")); [auto|].
  destruct i; [|auto]. apply (IH true).
Qed.






Lemma fits_closes l k : closes l -> fits k l.
Proof. intros C. apply C. Qed.






Section ReplaceMarkup.
Variable r : regex.
Variable f : str -> caps -> completion str.
Hypothesis r_not_nullable : nullable r = false.
Hypothesis hit_markup : forall prev m b c o i k,
  (k = true -> i = true) ->
  markup_in_tags i m = true ->
  exec r prev (m ++ b) = Some (length m, c) ->
  f m c = Returns o ->
  fits k o.


End ReplaceMarkup.

(** *** Pass by pass *)















